(** * split.py: difficulty scoring and stratification of a chess move tree

    A shallow embedding of the pure core of [split.py]: the position feature
    extractor ([count_pieces], [determine_game_phase],
    [calculate_position_complexity]), the scorer
    ([calculate_difficulty_score]), the tree walker
    ([analyze_move_difficulty]), the stratifier
    ([categorize_moves_by_difficulty]) and the tier tree builder
    ([create_level_knowledge_tree]); and of its other pure functions:
    [count_moves], [extract_position_from_path], [is_tactical_move],
    [analyze_opening_moves] and the phase distribution of
    [save_difficulty_levels].  Reading and writing files is not modelled.

    Conventions.
    - Python [float] arithmetic is abstracted by the interface [PyFloat].  It
      has two instances: [Q] (exact rationals, no rounding; most universal
      statements are proved there) and [spec_float] at binary64 (IEEE 754
      round-to-nearest-even, which is what CPython computes; the concrete
      scenarios are re-evaluated there bit for bit, and the clamp and the
      scorer at low ratings are proved there for every double).
    - Python [int]s that the program itself produces (piece counts, depth,
      lengths) are [Z] or [nat]; numbers read from the JSON document
      (rating, timesPlayed, wins, losses, draws) are values of the float
      interface.
    - A Python [dict] is an association list in insertion order with unique
      keys; a raised exception ([IndexError], [KeyError]) is [None]. *)

From Stdlib Require Import ZArith Zpower QArith Qpower Qabs Qminmax Qround.
From Stdlib Require Import List String Ascii Bool.
From Stdlib Require Import Lia Lqa Permutation Sorted SpecFloat.
Import ListNotations.

Local Open Scope string_scope.
Local Open Scope list_scope.
Local Open Scope Z_scope.

(* ================================================================= *)
(** ** Python primitives *)

Module Py.

(** [dict]: association list, insertion ordered. *)
Definition dict (V : Type) := list (string * V).

(** [d.get(k)] / [k in d] / [d[k]]. *)
Fixpoint dict_get {V} (d : dict V) (k : string) : option V :=
  match d with
  | [] => None
  | (k', v) :: d' => if String.eqb k' k then Some v else dict_get d' k
  end.

(** [d[k] = v]: an existing key keeps its place, a new key goes last. *)
Fixpoint dict_set {V} (d : dict V) (k : string) (v : V) : dict V :=
  match d with
  | [] => [(k, v)]
  | (k', v') :: d' =>
      if String.eqb k' k then (k', v) :: d' else (k', v') :: dict_set d' k v
  end.

Definition keys {V} (d : dict V) : list string := map fst d.

(** Keys of a dict are pairwise distinct. *)
Fixpoint unique_keys (ks : list string) : bool :=
  match ks with
  | [] => true
  | k :: ks' => negb (existsb (String.eqb k) ks') && unique_keys ks'
  end.

(** Truthiness of a string-or-None value: [None] and the empty string are
    falsy. *)
Definition truthy (s : option string) : bool :=
  match s with
  | Some (String _ _) => true
  | _ => false
  end.

(** [c.isalpha()] on an ASCII character. *)
Definition isalpha (c : ascii) : bool :=
  let n := N_of_ascii c in
  ((65 <=? n) && (n <=? 90) || (97 <=? n) && (n <=? 122))%N.

(** [c.lower()] on an ASCII character. *)
Definition lower_ascii (c : ascii) : ascii :=
  let n := N_of_ascii c in
  if ((65 <=? n) && (n <=? 90))%N then ascii_of_N (n + 32) else c.

(** [s.lower()]. *)
Fixpoint lower (s : string) : string :=
  match s with
  | EmptyString => EmptyString
  | String c s' => String (lower_ascii c) (lower s')
  end.

(** [sub in s] for strings. *)
Fixpoint contains (sub s : string) : bool :=
  String.prefix sub s ||
  match s with
  | EmptyString => false
  | String _ s' => contains sub s'
  end.

(** [c in s] for a character. *)
Fixpoint has_char (c : ascii) (s : string) : bool :=
  match s with
  | EmptyString => false
  | String c' s' => Ascii.eqb c' c || has_char c s'
  end.

(** [s.split(' ')[0]]: the text before the first space. *)
Fixpoint before_space (s : string) : string :=
  match s with
  | EmptyString => EmptyString
  | String c s' =>
      if Ascii.eqb c " " then EmptyString else String c (before_space s')
  end.

(** [sum(1 for c in s if c.isalpha())]. *)
Fixpoint count_alpha (s : string) : Z :=
  match s with
  | EmptyString => 0
  | String c s' => (if isalpha c then 1 else 0) + count_alpha s'
  end.

(** [l[-1]]; [None] stands for [IndexError]. *)
Definition last_item {A} (l : list A) : option A :=
  match rev l with
  | [] => None
  | x :: _ => Some x
  end.

End Py.

(* ================================================================= *)
(** ** The float interface and its two instances *)

Class PyFloat (F : Type) := {
  of_int : Z -> F;           (* float(n) for a Python int n *)
  fadd : F -> F -> F;
  fsub : F -> F -> F;
  fmul : F -> F -> F;
  fdiv : F -> F -> F;        (* true division; every divisor in the program
                                is guarded or a non-zero literal *)
  flt : F -> F -> bool;      (* x < y *)
  fle : F -> F -> bool;      (* x <= y *)
  feq : F -> F -> bool;      (* x == y *)
  fabs : F -> F;
  ftrunc : F -> Z            (* int(x): truncation towards zero *)
}.

Declare Scope float_scope.
Delimit Scope float_scope with F.
Infix "+" := fadd : float_scope.
Infix "-" := fsub : float_scope.
Infix "*" := fmul : float_scope.
Infix "/" := fdiv : float_scope.
Infix "<?" := flt : float_scope.
Infix "<=?" := fle : float_scope.
Infix "=?" := feq : float_scope.

Section FloatOps.
Context {F : Type} {num : PyFloat F}.

(** A decimal literal [n/d], e.g. [0.7] is [dec 7 10]: the correctly
    rounded quotient of two exactly representable integers is the float the
    literal denotes. *)
Definition dec (n : Z) (d : positive) : F := (of_int n / of_int (Zpos d))%F.

(** [min(a, b)]: the first argument unless the second is smaller. *)
Definition py_min (a b : F) : F := if (b <? a)%F then b else a.

(** [max(a, b)]: the first argument unless the second is larger. *)
Definition py_max (a b : F) : F := if (a <? b)%F then b else a.

(** [x > y] and [x >= y]. *)
Definition fgt (x y : F) : bool := (y <? x)%F.
Definition fge (x y : F) : bool := (y <=? x)%F.
End FloatOps.

Infix ">?" := fgt : float_scope.
Infix ">=?" := fge : float_scope.

(** Exact rationals. *)
#[export] Instance Q_float : PyFloat Q := {
  of_int := inject_Z;
  fadd := Qplus;
  fsub := Qminus;
  fmul := Qmult;
  fdiv := Qdiv;
  flt := fun x y => negb (Qle_bool y x);
  fle := Qle_bool;
  feq := Qeq_bool;
  fabs := Qabs;
  ftrunc := fun x => if Qle_bool 0 x then Qfloor x else Qceiling x
}.

(** IEEE 754 binary64, the format of a CPython [float]. *)
Module Binary64.
Definition prec : Z := 53.
Definition emax : Z := 1024.
Definition b64_of_int (n : Z) : spec_float :=
  binary_normalize prec emax n 0 false.

(** The rational value of a finite float. *)
Definition to_Q (x : spec_float) : Q :=
  match x with
  | S754_finite s m e =>
      let v := (inject_Z (Zpos m) * Qpower 2 e)%Q in
      if s then Qopp v else v
  | _ => 0%Q
  end.

Definition is_finite (x : spec_float) : bool :=
  match x with
  | S754_zero _ | S754_finite _ _ _ => true
  | _ => false
  end.

(** [int(x)] of a finite float (CPython raises on infinities and NaN,
    which the program never converts). *)
Definition trunc (x : spec_float) : Z :=
  match x with
  | S754_finite s m e =>
      let v := if (0 <=? e)%Z then Zpos m * 2 ^ e
               else Z.quot (Zpos m) (2 ^ (- e)) in
      if s then - v else v
  | _ => 0
  end.
End Binary64.

#[export] Instance b64_float : PyFloat spec_float := {
  of_int := Binary64.b64_of_int;
  fadd := SFadd Binary64.prec Binary64.emax;
  fsub := SFsub Binary64.prec Binary64.emax;
  fmul := SFmul Binary64.prec Binary64.emax;
  fdiv := SFdiv Binary64.prec Binary64.emax;
  flt := SFltb;
  fle := SFleb;
  feq := SFeqb;
  fabs := SFabs;
  ftrunc := Binary64.trunc
}.

(** The order facts about a float format that the final clamp of the scorer
    relies on. *)
Class FloatOrder (F : Type) {num : PyFloat F} := {
  flt_fle : forall a b : F, flt a b = true -> fle a b = true;
  fle_zero_zero : fle (of_int 0) (of_int 0) = true;
  flt_zero_one : flt (of_int 0) (of_int 1) = true;
  fle_one_one : fle (of_int 1) (of_int 1) = true
}.

(* ================================================================= *)
(** ** Position feature extractor *)

Definition parse_fen_from_position (position : string) : string :=
  if Py.has_char " " position then Py.before_space position else position.

(** The dict with the twelve piece letters as keys. *)
Record PieceCounts := mkCounts {
  cnt_P : Z; cnt_N : Z; cnt_B : Z; cnt_R : Z; cnt_Q : Z; cnt_K : Z;
  cnt_p : Z; cnt_n : Z; cnt_b : Z; cnt_r : Z; cnt_q : Z; cnt_k : Z
}.

Definition zero_counts : PieceCounts := mkCounts 0 0 0 0 0 0 0 0 0 0 0 0.

(** [if char in piece_counts: piece_counts[char] += 1]. *)
Definition count_char (pc : PieceCounts) (char : ascii) : PieceCounts :=
  let '(mkCounts P N B R Q K p n b r q k) := pc in
  if Ascii.eqb char "P" then mkCounts (P + 1) N B R Q K p n b r q k
  else if Ascii.eqb char "N" then mkCounts P (N + 1) B R Q K p n b r q k
  else if Ascii.eqb char "B" then mkCounts P N (B + 1) R Q K p n b r q k
  else if Ascii.eqb char "R" then mkCounts P N B (R + 1) Q K p n b r q k
  else if Ascii.eqb char "Q" then mkCounts P N B R (Q + 1) K p n b r q k
  else if Ascii.eqb char "K" then mkCounts P N B R Q (K + 1) p n b r q k
  else if Ascii.eqb char "p" then mkCounts P N B R Q K (p + 1) n b r q k
  else if Ascii.eqb char "n" then mkCounts P N B R Q K p (n + 1) b r q k
  else if Ascii.eqb char "b" then mkCounts P N B R Q K p n (b + 1) r q k
  else if Ascii.eqb char "r" then mkCounts P N B R Q K p n b (r + 1) q k
  else if Ascii.eqb char "q" then mkCounts P N B R Q K p n b r (q + 1) k
  else if Ascii.eqb char "k" then mkCounts P N B R Q K p n b r q (k + 1)
  else pc.

Fixpoint count_from (pc : PieceCounts) (fen : string) : PieceCounts :=
  match fen with
  | EmptyString => pc
  | String char rest => count_from (count_char pc char) rest
  end.

Definition count_pieces (fen : string) : PieceCounts :=
  count_from zero_counts fen.

Definition white_material (pc : PieceCounts) : Z :=
  cnt_P pc * 1 + cnt_N pc * 3 + cnt_B pc * 3 + cnt_R pc * 5 + cnt_Q pc * 9.

Definition black_material (pc : PieceCounts) : Z :=
  cnt_p pc * 1 + cnt_n pc * 3 + cnt_b pc * 3 + cnt_r pc * 5 + cnt_q pc * 9.

Definition total_material (pc : PieceCounts) : Z :=
  white_material pc + black_material pc.

Definition total_pieces (pc : PieceCounts) : Z :=
  cnt_N pc + cnt_B pc + cnt_R pc + cnt_Q pc +
  cnt_n pc + cnt_b pc + cnt_r pc + cnt_q pc.

Section Features.
Context {F : Type} {num : PyFloat F}.
Local Open Scope float_scope.

Definition GamePhase : Type := string * F.

Definition determine_game_phase (piece_counts : PieceCounts) : GamePhase :=
  let total := total_material piece_counts in
  if ((total_pieces piece_counts >=? 12) &&
      (cnt_Q piece_counts >=? 1) && (cnt_q piece_counts >=? 1))%Z
  then ("opening", of_int 0)
  else if (total >=? 30)%Z
  then ("opening", py_min (of_int 1) (of_int (40 - total) / of_int 10))
  else if (total >=? 20)%Z
  then ("middlegame", of_int (30 - total) / of_int 10)
  else if (total >=? 10)%Z
  then ("endgame", of_int (20 - total) / of_int 10)
  else ("endgame", of_int 1).

Definition calculate_position_complexity (piece_counts : PieceCounts) : F :=
  let minor_pieces :=
    (cnt_N piece_counts + cnt_B piece_counts +
     cnt_n piece_counts + cnt_b piece_counts)%Z in
  let major_pieces :=
    (cnt_R piece_counts + cnt_Q piece_counts +
     cnt_r piece_counts + cnt_q piece_counts)%Z in
  let pawns := (cnt_P piece_counts + cnt_p piece_counts)%Z in
  let piece_complexity :=
    (of_int minor_pieces * dec 7 10 + of_int major_pieces * dec 12 10 +
     of_int pawns * dec 4 10) / of_int 20 in
  let material_imbalance :=
    of_int (Z.abs (white_material piece_counts -
                   black_material piece_counts)) / of_int 32 in
  let queen_factor :=
    if ((cnt_Q piece_counts >? 0) || (cnt_q piece_counts >? 0))%Z
    then dec 2 10 else of_int 0 in
  let complexity :=
    piece_complexity * dec 6 10 +
    (of_int 1 - material_imbalance) * dec 2 10 +
    queen_factor in
  py_min (of_int 1) complexity.

End Features.

(* ================================================================= *)
(** ** Data model: the move tree and the scored move *)

Section DataModel.
Context {F : Type}.

(** The [stats] dict of a node; an absent key is [None]. *)
Record Stats := mkStats {
  st_rating : option F;
  st_timesPlayed : option F;
  st_wins : option F;
  st_losses : option F;
  st_draws : option F;
  st_type : option string;
  st_position : option string;
  st_timesVisited : option Z;
  st_firstSeen : option Z
}.

(** The empty dict, the default of [move_data.get('stats', {})]. *)
Definition no_stats : Stats :=
  mkStats None None None None None None None None None.

(** A node of the move tree: the keys [position], [stats] and [moves],
    each of which may be absent. *)
#[warnings="-register-all"] Inductive Node := mkNode {
  node_position : option string;
  node_stats : option Stats;
  node_moves : option (Py.dict Node)
}.

(** [node.get('moves', {})]. *)
Definition moves_of (node : Node) : Py.dict Node :=
  match node_moves node with
  | Some d => d
  | None => []
  end.

(** [node.get('stats', {})]. *)
Definition stats_of (node : Node) : Stats :=
  match node_stats node with
  | Some st => st
  | None => no_stats
  end.

(** The position found on the node itself: its [position] key, else the
    [position] key of its [stats]. *)
Definition own_position (node : Node) : option string :=
  match node_position node with
  | Some p => Some p
  | None =>
      match node_stats node with
      | Some st => st_position st
      | None => None
      end
  end.

(** The record appended to [moves_with_difficulty]. *)
Record ScoredMove := mkScored {
  sm_move : string;
  sm_path : list string;
  sm_difficulty : F;
  sm_rating : F;
  sm_times_played : F;
  sm_win_rate : F;
  sm_depth : Z;
  sm_game_phase : string;
  sm_phase_progress : F;
  sm_position_complexity : F;
  sm_move_data : Node;
  sm_move_sequence : list string
}.

(** Following a path of move notations from a node. *)
Fixpoint tree_get (node : Node) (path : list string) : option Node :=
  match path with
  | [] => Some node
  | k :: rest =>
      match Py.dict_get (moves_of node) k with
      | Some child => tree_get child rest
      | None => None
      end
  end.

(** [at_path node path target]: [target] is the node that [path] leads to
    from [node], through entries of the [moves] dicts. *)
Inductive at_path : Node -> list string -> Node -> Prop :=
| at_here : forall node, at_path node [] node
| at_step : forall node k child rest target,
    In (k, child) (moves_of node) ->
    at_path child rest target ->
    at_path node (k :: rest) target.

(** Every key of every [moves] dict occurs once. *)
Fixpoint well_formed (node : Node) : bool :=
  match node with
  | mkNode _ _ None => true
  | mkNode _ _ (Some d) =>
      Py.unique_keys (Py.keys d) &&
      (fix all (items : Py.dict Node) : bool :=
         match items with
         | [] => true
         | (_, child) :: rest => well_formed child && all rest
         end) d
  end.

(** Induction on a node with the hypothesis for every child. *)
Section NodeInduction.
Variable P : Node -> Prop.
Hypothesis step : forall pos st mv,
  Forall (fun kv => P (snd kv))
         (match mv with Some d => d | None => [] end) ->
  P (mkNode pos st mv).

Fixpoint node_induction (node : Node) : P node :=
  match node with
  | mkNode pos st mv =>
      step pos st mv
        (match mv as o
               return Forall (fun kv => P (snd kv))
                             (match o with Some d => d | None => [] end)
         with
         | None => Forall_nil _
         | Some d0 =>
             (fix all (items : Py.dict Node)
                : Forall (fun kv => P (snd kv)) items :=
                match items with
                | [] => Forall_nil _
                | kv :: rest =>
                    Forall_cons kv
                      (match kv as kv0 return P (snd kv0) with
                       | (_, child) => node_induction child
                       end)
                      (all rest)
                end) d0
         end)
  end.
End NodeInduction.

End DataModel.

Arguments Stats : clear implicits.
Arguments Node : clear implicits.
Arguments ScoredMove : clear implicits.

(* ================================================================= *)
(** ** Difficulty scorer *)

Section Scorer.
Context {F : Type} {num : PyFloat F}.
Local Open Scope float_scope.

Definition calculate_win_rate (stats : Stats F) : F :=
  let wins := match st_wins stats with Some w => w | None => of_int 0 end in
  let losses :=
    match st_losses stats with Some l => l | None => of_int 0 end in
  let draws :=
    match st_draws stats with Some d => d | None => of_int 0 end in
  let total := wins + losses + draws in
  if total =? of_int 0 then dec 5 10
  else (wins + draws * dec 5 10) / total.

Definition is_opening_theory (move_sequence : list string) (depth : Z)
  : bool * F :=
  if (depth <=? 10)%Z
  then (true, py_max (of_int 0) (of_int 1 - of_int depth / of_int 10))
  else (false, of_int 0).

(** The phase-specific adjustment of [calculate_difficulty_score];
    [None] is the [IndexError] of [move_sequence[-1]]. *)
Definition phase_adjustment (difficulty times_played : F) (depth : Z)
    (game_phase : string * F) (position_complexity : F)
    (move_sequence : list string) (is_capture is_check : bool)
  : option F :=
  let '(phase_name, phase_progress) := game_phase in
  if String.eqb phase_name "opening" then
    let '(is_theory, theory_strength) :=
      is_opening_theory move_sequence depth in
    if is_theory then
      let theory_factor := dec 7 10 + dec 3 10 * theory_strength in
      let difficulty := difficulty * theory_factor in
      if times_played >? of_int 10
      then Some (difficulty * dec 9 10)
      else Some difficulty
    else Some difficulty
  else if String.eqb phase_name "middlegame" then
    let difficulty := difficulty * dec 11 10 in
    if is_capture || is_check
    then Some (difficulty * dec 115 100)
    else Some difficulty
  else if String.eqb phase_name "endgame" then
    if phase_progress >? dec 7 10 then
      match Py.last_item move_sequence with
      | None => None
      | Some last_move =>
          let piece_count := Py.count_alpha last_move in
          if (piece_count <=? 3)%Z
          then Some (difficulty *
                     (dec 9 10 + position_complexity * dec 5 10))
          else Some (difficulty * dec 12 10)
      end
    else Some difficulty
  else Some difficulty.

(** Everything after the phase adjustment, up to and including the
    clamp. *)
Definition common_adjustment (difficulty times_played win_rate : F)
    (depth : Z) (has_children : bool) (position_complexity : F)
    (is_capture is_check : bool) : F :=
  let difficulty :=
    difficulty * (dec 7 10 + dec 6 10 * position_complexity) in
  let depth_factor := of_int 1 + of_int depth * dec 3 100 in
  let difficulty := difficulty * depth_factor in
  let difficulty :=
    if times_played >? of_int 0 then
      let frequency_factor :=
        of_int 1 - dec 2 10 / (of_int 1 + dec 5 100 * times_played) in
      difficulty * frequency_factor
    else difficulty in
  let win_rate_complexity :=
    of_int 1 - fabs (win_rate - dec 5 10) * dec 4 10 in
  let difficulty :=
    difficulty * (dec 8 10 + dec 2 10 * win_rate_complexity) in
  let difficulty :=
    if has_children then difficulty * dec 105 100 else difficulty in
  let difficulty :=
    if is_capture || is_check then
      let calculation_factor :=
        if (depth >? 2)%Z then dec 11 10 else dec 95 100 in
      difficulty * calculation_factor
    else difficulty in
  py_max (of_int 0) (py_min (of_int 1) difficulty).

Definition calculate_difficulty_score (rating times_played win_rate : F)
    (depth : Z) (has_children : bool) (game_phase : string * F)
    (position_complexity : F) (move_sequence : list string)
    (is_capture is_check : bool) : option F :=
  let difficulty := (rating - of_int 800) / of_int 2000 in
  match phase_adjustment difficulty times_played depth game_phase
          position_complexity move_sequence is_capture is_check with
  | None => None
  | Some difficulty =>
      Some (common_adjustment difficulty times_played win_rate depth
              has_children position_complexity is_capture is_check)
  end.

End Scorer.


(* ================================================================= *)
(** ** Tree walker *)

Section Walker.
Context {F : Type} {num : PyFloat F}.

(** [position_info]: the [position] argument when it is truthy, else the
    node's own position when it has one. *)
Definition resolve_position (node : Node F) (position : option string)
  : option string :=
  if Py.truthy position then position
  else match own_position node with
       | Some p => Some p
       | None => position
       end.

(** Phase and complexity for the moves of a node whose position resolved
    to [position_info]; the defaults apply when there is no usable
    string. *)
Definition position_context (position_info : option string)
  : (string * F) * F :=
  let fen :=
    match position_info with
    | Some p => if Py.truthy position_info
                then Some (parse_fen_from_position p) else None
    | None => None
    end in
  match fen with
  | Some f =>
      if Py.truthy fen then
        let piece_counts := count_pieces f in
        (determine_game_phase piece_counts,
         calculate_position_complexity piece_counts)
      else (("unknown", dec 5 10), dec 5 10)
  | None => (("unknown", dec 5 10), dec 5 10)
  end.

(** ['word' in stats.get('type', '').lower() if 'type' in stats else
    False]. *)
Definition type_mentions (word : string) (stats : Stats F) : bool :=
  match st_type stats with
  | Some t => Py.contains word (Py.lower t)
  | None => false
  end.

(** The body of the loop over a node's moves, up to the [append]. *)
Definition score_move (current_depth : Z) (path : list string)
    (game_phase : string * F) (position_complexity : F)
    (move_sequence : list string) (move_notation : string)
    (move_data : Node F) : option (ScoredMove F) :=
  let stats := stats_of move_data in
  let rating :=
    match st_rating stats with Some r => r | None => of_int 1200 end in
  let times_played :=
    match st_timesPlayed stats with Some t => t | None => of_int 0 end in
  match calculate_difficulty_score rating times_played
          (calculate_win_rate stats) current_depth
          (match moves_of move_data with [] => false | _ => true end)
          game_phase position_complexity
          (move_sequence ++ [move_notation])
          (type_mentions "capture" stats) (type_mentions "check" stats)
  with
  | None => None
  | Some difficulty_score =>
      Some (mkScored move_notation path difficulty_score rating
              times_played (calculate_win_rate stats) current_depth
              (fst game_phase) (snd game_phase) position_complexity
              move_data (move_sequence ++ [move_notation]))
  end.

Fixpoint analyze_move_difficulty (node : Node F) (current_depth : Z)
    (path : list string) (position : option string)
    (move_sequence : list string) {struct node}
  : option (list (ScoredMove F)) :=
  match node with
  | mkNode own_pos own_stats own_moves =>
      let position_info :=
        resolve_position (mkNode own_pos own_stats own_moves) position in
      let '(game_phase, position_complexity) :=
        position_context position_info in
      match own_moves with
      | None => Some []
      | Some items =>
          (fix each (items : Py.dict (Node F))
             : option (list (ScoredMove F)) :=
             match items with
             | [] => Some []
             | (move_notation, move_data) :: rest =>
                 let next_position := own_position move_data in
                 match score_move current_depth path game_phase
                         position_complexity move_sequence
                         move_notation move_data with
                 | None => None
                 | Some scored =>
                     match analyze_move_difficulty move_data
                             (current_depth + 1)
                             (path ++ [move_notation])
                             next_position
                             (move_sequence ++ [move_notation]) with
                     | None => None
                     | Some below =>
                         match each rest with
                         | None => None
                         | Some others =>
                             Some (scored :: below ++ others)
                         end
                     end
                 end
             end) items
      end
  end.

(** The loop over the moves of one node, as a function of its own: the
    inner loop of [analyze_move_difficulty] (see [analyze_move_difficulty_eq]
    below). *)
Fixpoint analyze_items (current_depth : Z) (path : list string)
    (game_phase : string * F) (position_complexity : F)
    (move_sequence : list string) (items : Py.dict (Node F))
  : option (list (ScoredMove F)) :=
  match items with
  | [] => Some []
  | (move_notation, move_data) :: rest =>
      match score_move current_depth path game_phase position_complexity
              move_sequence move_notation move_data with
      | None => None
      | Some scored =>
          match analyze_move_difficulty move_data (current_depth + 1)
                  (path ++ [move_notation]) (own_position move_data)
                  (move_sequence ++ [move_notation]) with
          | None => None
          | Some below =>
              match analyze_items current_depth path game_phase
                      position_complexity move_sequence rest with
              | None => None
              | Some others => Some (scored :: below ++ others)
              end
          end
      end
  end.

(** The walk as [main] starts it. *)
Definition walk (root : Node F) : option (list (ScoredMove F)) :=
  analyze_move_difficulty root 0 [] None [].

(** What the walk of [node], entered at [path], says about a record. *)
Definition emitted_at (node : Node F) (path : list string)
    (position : option string) (m : ScoredMove F) : Prop :=
  exists q parent,
    sm_path m = path ++ q /\
    at_path node q parent /\
    In (sm_move m, sm_move_data m) (moves_of parent) /\
    (sm_game_phase m, sm_phase_progress m, sm_position_complexity m) =
    position_context
      (match q with
       | [] => resolve_position node position
       | _ :: _ => own_position parent
       end).

End Walker.

(* ================================================================= *)
(** ** Stratifier *)

(** [l[start:stop]] for [0 <= start <= stop]. *)
Definition slice {A} (l : list A) (start stop : nat) : list A :=
  firstn (stop - start) (skipn start l).

(** [l[i] = x]; [None] is the [IndexError] of an index out of range. *)
Definition list_assign {A} (l : list A) (i : nat) (x : A) : option (list A) :=
  if (i <? List.length l)%nat then Some (firstn i l ++ x :: skipn (S i) l)
  else None.

(** [ls[-1].extend(xs)]; [None] is the [IndexError] of an empty [ls]. *)
Definition extend_last {A} (ls : list (list A)) (xs : list A)
  : option (list (list A)) :=
  match rev ls with
  | [] => None
  | last_level :: front => Some (rev front ++ [last_level ++ xs])
  end.

Definition level_percentages : list Z := [5; 10; 15; 20; 20; 15; 10; 5].

Section Stratifier.
Context {F : Type} {num : PyFloat F}.

(** [sorted(moves, key=lambda x: x['difficulty'])]: the stable sort, which
    only ever asks [<] of two keys. *)
Fixpoint insert_by_difficulty (x : ScoredMove F) (l : list (ScoredMove F))
  : list (ScoredMove F) :=
  match l with
  | [] => [x]
  | y :: l' =>
      if (sm_difficulty y <? sm_difficulty x)%F
      then y :: insert_by_difficulty x l'
      else x :: y :: l'
  end.

Definition sorted_by_difficulty (l : list (ScoredMove F))
  : list (ScoredMove F) :=
  fold_right insert_by_difficulty [] l.

(** [int((percentage / 100) * total_moves)]. *)
Definition moves_in_level (percentage : Z) (total_moves : nat) : nat :=
  Z.to_nat (ftrunc ((of_int percentage / of_int 100) *
                    of_int (Z.of_nat total_moves))%F).

(** The loop over [enumerate(level_percentages)]; the state is
    [(difficulty_levels, start_idx)]. *)
Fixpoint fill_levels {A} (sorted_moves : list A) (total_moves : nat)
    (percentages : list Z) (level start_idx : nat)
    (difficulty_levels : list (list A))
  : option (list (list A) * nat) :=
  match percentages with
  | [] => Some (difficulty_levels, start_idx)
  | percentage :: rest =>
      let end_idx :=
        Nat.min (start_idx + moves_in_level percentage total_moves)
                total_moves in
      match list_assign difficulty_levels level
              (slice sorted_moves start_idx end_idx) with
      | None => None
      | Some difficulty_levels' =>
          fill_levels sorted_moves total_moves rest (S level) end_idx
            difficulty_levels'
      end
  end.

Definition categorize_moves_by_difficulty
    (moves_with_difficulty : list (ScoredMove F)) (num_levels : nat)
  : option (list (list (ScoredMove F))) :=
  let sorted_moves := sorted_by_difficulty moves_with_difficulty in
  let total_moves := List.length sorted_moves in
  if (total_moves =? 0)%nat then Some (repeat [] num_levels)
  else
    match fill_levels sorted_moves total_moves level_percentages 0 0
            (repeat [] num_levels) with
    | None => None
    | Some (difficulty_levels, start_idx) =>
        if (start_idx <? total_moves)%nat
        then extend_last difficulty_levels (skipn start_idx sorted_moves)
        else Some difficulty_levels
    end.

End Stratifier.

(* ================================================================= *)
(** ** Tier tree builder *)

Section Builder.
Context {F : Type}.

(** [{'moves': {}, 'stats': {'timesVisited': 0, 'firstSeen': 0}}]. *)
Definition new_root : Node F :=
  mkNode None
    (Some (mkStats None None None None None None None (Some 0) (Some 0)))
    (Some []).

(** [{'moves': {}, 'stats': {'timesVisited': 0}}]. *)
Definition placeholder : Node F :=
  mkNode None
    (Some (mkStats None None None None None None None (Some 0) None))
    (Some []).

Definition with_moves (node : Node F) (d : Py.dict (Node F)) : Node F :=
  mkNode (node_position node) (node_stats node) (Some d).

(** A node made by the builder itself: the new root or a placeholder,
    whatever moves it has received since. *)
Definition shell (node : Node F) : Prop :=
  exists d, node = with_moves new_root d \/ node = with_moves placeholder d.

(** One iteration of the loop over [level_moves], started at
    [current_node]: walk [path], creating the nodes that are missing, and
    store [move_data] under [move].  The nodes are Python objects mutated
    in place; the result is the value of [current_node] afterwards.
    [None] is the [KeyError] of [current_node['moves']] on a node without
    that key. *)
Fixpoint place (current_node : Node F) (path : list string) (move : string)
    (move_data : Node F) {struct path} : option (Node F) :=
  match node_moves current_node with
  | None => None
  | Some d =>
      match path with
      | [] => Some (with_moves current_node (Py.dict_set d move move_data))
      | path_move :: rest =>
          let child :=
            match Py.dict_get d path_move with
            | Some c => c
            | None => placeholder
            end in
          match place child rest move move_data with
          | None => None
          | Some child' =>
              Some (with_moves current_node (Py.dict_set d path_move child'))
          end
      end
  end.

Fixpoint place_all (root : Node F) (level_moves : list (ScoredMove F))
  : option (Node F) :=
  match level_moves with
  | [] => Some root
  | move_info :: rest =>
      match place root (sm_path move_info) (sm_move move_info)
              (sm_move_data move_info) with
      | None => None
      | Some root' => place_all root' rest
      end
  end.

Definition create_level_knowledge_tree (level_moves : list (ScoredMove F))
  : option (Node F) :=
  place_all new_root level_moves.

(** [rebuilt_from source tree]: every node of [tree] is a node made by the
    builder or the node of [source] at the same path. *)
Definition rebuilt_from (source tree : Node F) : Prop :=
  forall q n, tree_get tree q = Some n ->
              shell n \/ tree_get source q = Some n.

End Builder.

(** [q] is on the line of the move at [full]: on the way to it, or at or
    below it. *)
Definition on_line (q full : list string) : Prop :=
  (exists rest, full = q ++ rest) \/ (exists below, q = full ++ below).

(* ================================================================= *)
(** ** Formulas of the specification, for comparison with the code *)

(** Every one of the twelve counts is a non-negative integer. *)
Definition counts_nonneg (pc : PieceCounts) : bool :=
  (0 <=? cnt_P pc) && (0 <=? cnt_N pc) && (0 <=? cnt_B pc) &&
  (0 <=? cnt_R pc) && (0 <=? cnt_Q pc) && (0 <=? cnt_K pc) &&
  (0 <=? cnt_p pc) && (0 <=? cnt_n pc) && (0 <=? cnt_b pc) &&
  (0 <=? cnt_r pc) && (0 <=? cnt_q pc) && (0 <=? cnt_k pc).



(** A small source tree: the root carries the starting position, its moves
    [e4] and [d4] and the replies below [e4] carry none. *)
Definition start_fen : string :=
  "rnbqkbnr/pppppppp/8/8/8/8/PPPPPPPP/RNBQKBNR w KQkq - 0 1".

Definition rated (rating : Q) : Stats Q :=
  mkStats (Some rating) None None None None None None None None.

Definition sample_tree : Node Q :=
  mkNode (Some start_fen) None
    (Some [("e4", mkNode None (Some (rated 1500%Q))
              (Some [("e5", mkNode None (Some (rated 1600%Q))
                        (Some [("Nf3", mkNode None None None)]));
                     ("c5", mkNode None (Some (rated 2100%Q)) None)]));
           ("d4", mkNode None (Some (rated 900%Q)) None)]).

(** The records of [sample_tree] and the eight tiers the stratifier makes of
    them. *)
Definition sample_records : list (ScoredMove Q) :=
  match walk sample_tree with
  | Some recs => recs
  | None => []
  end.

Definition sample_tiers : list (list (ScoredMove Q)) :=
  match categorize_moves_by_difficulty sample_records 8 with
  | Some tiers => tiers
  | None => []
  end.

(** Ascending order of difficulty, in exact arithmetic. *)
Definition by_difficulty (a b : ScoredMove Q) : Prop :=
  (sm_difficulty a <= sm_difficulty b)%Q.

(** A population of [n] scored moves with the difficulties
    [(n-1)/n, ..., 1/n, 0/n], for trying the stratifier. *)
Definition sample_population (n : nat) : list (ScoredMove Q) :=
  map (fun i : nat =>
         mkScored "e4" [] (Z.of_nat (n - 1 - i) # Pos.of_nat n)%Q 1200%Q 0%Q
           (1 # 2)%Q 0 "unknown" (1 # 2)%Q (1 # 2)%Q
           (mkNode None None None) ["e4"])
      (seq 0 n).

(* ================================================================= *)
(** ** The other functions of split.py *)

Section Helpers.
Context {F : Type} {num : PyFloat F}.

(** [count_moves]: the moves of a node and of everything below it. *)
Fixpoint count_moves (node : Node F) : nat :=
  match node with
  | mkNode _ _ None => 0
  | mkNode _ _ (Some d) =>
      (List.length d +
       (fix below (items : Py.dict (Node F)) : nat :=
          match items with
          | [] => 0
          | (_, move) :: rest => count_moves move + below rest
          end) d)%nat
  end.

(** The loop of [count_moves] over the values of a [moves] dict. *)
Fixpoint count_below (items : Py.dict (Node F)) : nat :=
  match items with
  | [] => 0
  | (_, move) :: rest => (count_moves move + count_below rest)%nat
  end.



Definition is_tactical_move (move_notation : string) (move_data : Node F)
  : bool :=
  let stats := stats_of move_data in
  match st_type stats with
  | Some t =>
      let move_type := Py.lower t in
      Py.contains "capture" move_type || Py.contains "check" move_type ||
      Py.contains "mate" move_type
  | None =>
      Py.has_char "x" move_notation || Py.has_char "+" move_notation ||
      Py.has_char "#" move_notation
  end.

(** The phase distribution of [save_difficulty_levels]: the four counters
    [opening], [middlegame], [endgame], [unknown], in this order.  [None]
    is the [KeyError] of [phase_counts[phase] += 1] on any other name. *)
Definition count_phase (counts : Z * Z * Z * Z) (phase : string)
  : option (Z * Z * Z * Z) :=
  let '(o, m, e, u) := counts in
  if String.eqb phase "opening" then Some (o + 1, m, e, u)
  else if String.eqb phase "middlegame" then Some (o, m + 1, e, u)
  else if String.eqb phase "endgame" then Some (o, m, e + 1, u)
  else if String.eqb phase "unknown" then Some (o, m, e, u + 1)
  else None.

Fixpoint phase_counts (counts : Z * Z * Z * Z)
    (level_moves : list (ScoredMove F)) : option (Z * Z * Z * Z) :=
  match level_moves with
  | [] => Some counts
  | move :: rest =>
      match count_phase counts (sm_game_phase move) with
      | None => None
      | Some counts' => phase_counts counts' rest
      end
  end.

(** [count / total_phase_moves if total_phase_moves > 0 else 0] for each
    of the four phases. *)
Definition phase_distribution (level_moves : list (ScoredMove F))
  : option (F * F * F * F) :=
  match phase_counts (0, 0, 0, 0) level_moves with
  | None => None
  | Some (o, m, e, u) =>
      let total_phase_moves := o + m + e + u in
      let fraction (count : Z) : F :=
        if total_phase_moves >? 0
        then (of_int count / of_int total_phase_moves)%F
        else of_int 0 in
      Some (fraction o, fraction m, fraction e, fraction u)
  end.

(** [opening_sequences[sequence] += 1] on a [defaultdict(int)]. *)
Definition tally_one (d : Py.dict Z) (sequence : string) : Py.dict Z :=
  match Py.dict_get d sequence with
  | Some count => Py.dict_set d sequence (count + 1)
  | None => Py.dict_set d sequence 1
  end.

(** The moves that [analyze_opening_moves] counts, as the sequence strings
    it counts them under: [' '.join(move_sequence)] of every move of depth
    below 10 in the opening phase. *)
Definition opening_keys (moves_with_difficulty : list (ScoredMove F))
  : list string :=
  map (fun move => String.concat " " (sm_move_sequence move))
      (filter (fun move =>
                 (sm_depth move <? 10) &&
                 String.eqb (sm_game_phase move) "opening")
              moves_with_difficulty).

(** [sorted(items, key=lambda x: x[1], reverse=True)]: descending, and
    entries of equal count stay in their order. *)
Fixpoint insert_by_count (x : string * Z) (l : list (string * Z))
  : list (string * Z) :=
  match l with
  | [] => [x]
  | y :: l' =>
      if snd x <? snd y then y :: insert_by_count x l' else x :: y :: l'
  end.

Definition sorted_by_count (l : list (string * Z)) : list (string * Z) :=
  fold_right insert_by_count [] l.

Definition analyze_opening_moves
    (moves_with_difficulty : list (ScoredMove F)) : list (string * Z) :=
  let opening_sequences :=
    fold_left tally_one (opening_keys moves_with_difficulty) [] in
  firstn 20 (sorted_by_count opening_sequences).

End Helpers.

(** The sum of the twelve counts. *)
Definition counted_pieces (pc : PieceCounts) : Z :=
  cnt_P pc + cnt_N pc + cnt_B pc + cnt_R pc + cnt_Q pc + cnt_K pc +
  cnt_p pc + cnt_n pc + cnt_b pc + cnt_r pc + cnt_q pc + cnt_k pc.

(** The same position with the colours exchanged. *)
Definition swap_colours (pc : PieceCounts) : PieceCounts :=
  mkCounts (cnt_p pc) (cnt_n pc) (cnt_b pc) (cnt_r pc) (cnt_q pc) (cnt_k pc)
           (cnt_P pc) (cnt_N pc) (cnt_B pc) (cnt_R pc) (cnt_Q pc) (cnt_K pc).

(** The four phase names that occur in a walk. *)
Definition phase_name_known (name : string) : bool :=
  String.eqb name "opening" || String.eqb name "middlegame" ||
  String.eqb name "endgame" || String.eqb name "unknown".

(** The same statistics seen from the other side: wins and losses
    exchanged. *)
Definition swap_results {F} (stats : Stats F) : Stats F :=
  mkStats (st_rating stats) (st_timesPlayed stats) (st_losses stats)
    (st_wins stats) (st_draws stats) (st_type stats) (st_position stats)
    (st_timesVisited stats) (st_firstSeen stats).

(** [floor(percentage * total / 100)], the size of a slice in exact
    arithmetic. *)
Definition floor_share (percentage : Z) (total : nat) : nat :=
  Z.to_nat (percentage * Z.of_nat total / 100).

(** Descending order of the counts. *)
Definition by_count_descending (a b : string * Z) : Prop := snd b <= snd a.

(** A record of zeros and empty strings, the default of [nth]. *)
Definition blank_record : ScoredMove Q :=
  mkScored EmptyString [] 0%Q 0%Q 0%Q 0%Q 0 EmptyString 0%Q 0%Q
    (mkNode None None None) [].

(** The record of the reply e5 in the walk of [sample_tree]. *)
Definition sample_record : ScoredMove Q := nth 1 sample_records blank_record.

(* ================================================================= *)
(** * Binary64 values, for the rounding arguments *)

(** The rational [m * 2^e]. *)
Definition val (m e : Z) : Q := (inject_Z m * 2 ^ e)%Q.

(** Zero (of either sign) or a positive finite float. *)
Definition b64_nonneg (x : spec_float) : Prop :=
  match x with
  | S754_zero _ | S754_finite false _ _ => True
  | _ => False
  end.

(** A positive finite float. *)
Definition b64_pos (x : spec_float) : Prop :=
  match x with
  | S754_finite false _ _ => True
  | _ => False
  end.

(** Not NaN and not above zero: a zero, a negative finite float or
    [-inf]. *)
Definition b64_nonpos (x : spec_float) : Prop :=
  match x with
  | S754_zero _ | S754_finite true _ _ | S754_infinity true => True
  | _ => False
  end.

(** The exponent of a finite float that is not a zero. *)
Definition b64_exponent (x : spec_float) : Z :=
  match x with
  | S754_finite _ _ e => e
  | _ => 0
  end.

(** The largest finite binary64 number, [2^1024 - 2^971]. *)
Definition b64_max : Z := 2 ^ 1024 - 2 ^ 971.

(** A finite binary64 number with a value between [lo] and [hi]. *)
Definition b64_within (lo hi : Q) (x : spec_float) : Prop :=
  Binary64.is_finite x = true /\ (lo <= Binary64.to_Q x <= hi)%Q.

(** [-inf], or a finite binary64 number with a value of at most [hi]. *)
Definition b64_at_most (hi : Q) (x : spec_float) : Prop :=
  x = S754_infinity true \/
  (Binary64.is_finite x = true /\ (Binary64.to_Q x <= hi)%Q).

(* ================================================================= *)
(** * Properties *)

(** ** The two float formats are ordered as the clamp needs *)

#[export] Instance Q_order : FloatOrder Q.
Proof.
  split; cbn.
  - intros a b H. rewrite negb_true_iff, <- not_true_iff_false in H.
    rewrite Qle_bool_iff in *. apply Qlt_le_weak, Qnot_le_lt, H.
  - reflexivity.
  - reflexivity.
  - reflexivity.
Qed.


Section ScorerFacts.
Context {F : Type} {num : PyFloat F}.

Lemma last_item_none {A} (l : list A) : Py.last_item l = None <-> l = [].
Proof.
  unfold Py.last_item. split.
  - destruct (rev l) as [ | x r] eqn:E; [ | discriminate].
    intros _. rewrite <- (rev_involutive l), E. reflexivity.
  - intros ->. reflexivity.
Qed.

(** The phase adjustment raises exactly on an empty move sequence in a
    late endgame. *)
Lemma phase_adjustment_none (difficulty times_played : F) depth game_phase
    position_complexity move_sequence is_capture is_check :
  phase_adjustment difficulty times_played depth game_phase
    position_complexity move_sequence is_capture is_check = None <->
  fst game_phase = "endgame" /\
  (snd game_phase >? dec 7 10)%F = true /\
  move_sequence = [].
Proof.
  destruct game_phase as [phase_name phase_progress].
  unfold phase_adjustment, is_opening_theory; cbn [fst snd].
  destruct (String.eqb phase_name "opening") eqn:Eo.
  { apply String.eqb_eq in Eo; subst phase_name.
    split; [ | intros [H _]; discriminate H].
    destruct (depth <=? 10)%Z; [ | discriminate].
    destruct (times_played >? of_int 10)%F; discriminate. }
  destruct (String.eqb phase_name "middlegame") eqn:Em.
  { apply String.eqb_eq in Em; subst phase_name.
    split; [ | intros [H _]; discriminate H].
    destruct (is_capture || is_check); discriminate. }
  destruct (String.eqb phase_name "endgame") eqn:Ee.
  - apply String.eqb_eq in Ee; subst phase_name.
    destruct (phase_progress >? dec 7 10)%F.
    + destruct (Py.last_item move_sequence) as [last_move | ] eqn:El.
      * split.
        -- destruct (Py.count_alpha last_move <=? 3)%Z; discriminate.
        -- intros (_ & _ & ->). discriminate El.
      * apply last_item_none in El. tauto.
    + split; [discriminate | intros (_ & H & _); discriminate H].
  - apply String.eqb_neq in Ee.
    split; [discriminate | intros [H _]; contradiction].
Qed.

Lemma calculate_difficulty_score_none (rating times_played win_rate : F)
    depth has_children game_phase position_complexity move_sequence
    is_capture is_check :
  calculate_difficulty_score rating times_played win_rate depth
    has_children game_phase position_complexity move_sequence
    is_capture is_check = None <->
  fst game_phase = "endgame" /\
  (snd game_phase >? dec 7 10)%F = true /\
  move_sequence = [].
Proof.
  unfold calculate_difficulty_score.
  rewrite <- (phase_adjustment_none
                ((rating - of_int 800) / of_int 2000)%F times_played depth
                game_phase position_complexity move_sequence
                is_capture is_check).
  destruct (phase_adjustment _ _ _ _ _ _ _ _); split; congruence.
Qed.

Context {order : FloatOrder F}.

Lemma clamp_in_unit_interval (d : F) :
  let r := py_max (of_int 0) (py_min (of_int 1) d) in
  fle (of_int 0) r = true /\ fle r (of_int 1) = true.
Proof.
  unfold py_max, py_min.
  destruct (d <? of_int 1)%F eqn:H1.
  - destruct (of_int 0 <? d)%F eqn:H0.
    + split; apply flt_fle; assumption.
    + split; [apply fle_zero_zero | apply flt_fle, flt_zero_one].
  - rewrite flt_zero_one.
    split; [apply flt_fle, flt_zero_one | apply fle_one_one].
Qed.

End ScorerFacts.


(** ** Lists, and the stratifier in any float format *)

Section ListFacts.
Context {A : Type}.
Local Open Scope nat_scope.

Lemma firstn_then_firstn_skipn (n m : nat) (l : list A) :
  firstn n l ++ firstn m (skipn n l) = firstn (n + m) l.
Proof.
  revert l. induction n as [ | n IH]; intros l; [reflexivity | ].
  destruct l as [ | x l]; cbn.
  - now rewrite firstn_nil.
  - now rewrite IH.
Qed.

Lemma slice_app (l : list A) (start mid stop : nat) :
  start <= mid -> mid <= stop ->
  slice l start mid ++ slice l mid stop = slice l start stop.
Proof.
  intros H1 H2. unfold slice.
  replace (skipn mid l) with (skipn (mid - start) (skipn start l))
    by (rewrite skipn_skipn; f_equal; lia).
  rewrite firstn_then_firstn_skipn. f_equal. lia.
Qed.

Lemma slice_from_zero (l : list A) (stop : nat) : slice l 0 stop = firstn stop l.
Proof. unfold slice. now rewrite Nat.sub_0_r. Qed.

Lemma list_assign_some (l : list A) (i : nat) (x : A) :
  i < List.length l ->
  list_assign l i x = Some (firstn i l ++ x :: skipn (S i) l).
Proof.
  intros H. unfold list_assign.
  destruct (i <? List.length l) eqn:E; [reflexivity | ].
  apply Nat.ltb_ge in E. lia.
Qed.

Lemma extend_last_some (front : list (list A)) (last_level xs : list A) :
  extend_last (front ++ [last_level]) xs = Some (front ++ [last_level ++ xs]).
Proof.
  unfold extend_last. rewrite rev_app_distr. cbn. now rewrite rev_involutive.
Qed.

End ListFacts.

Section StratifierFacts.
Context {F : Type} {num : PyFloat F}.
Local Open Scope nat_scope.

Lemma insert_by_difficulty_perm (x : ScoredMove F) (l : list (ScoredMove F)) :
  Permutation (x :: l) (insert_by_difficulty x l).
Proof.
  induction l as [ | y l IH]; cbn; [reflexivity | ].
  destruct (sm_difficulty y <? sm_difficulty x)%F; [ | reflexivity].
  rewrite perm_swap. now apply perm_skip.
Qed.

Lemma sorted_by_difficulty_perm (l : list (ScoredMove F)) :
  Permutation l (sorted_by_difficulty l).
Proof.
  induction l as [ | x l IH]; cbn; [reflexivity | ].
  rewrite <- insert_by_difficulty_perm. now apply perm_skip.
Qed.

Lemma sorted_by_difficulty_length (l : list (ScoredMove F)) :
  List.length (sorted_by_difficulty l) = List.length l.
Proof. symmetry. apply Permutation_length, sorted_by_difficulty_perm. Qed.

(** The loop leaves the levels before [level] and after the last percentage
    alone, and fills the levels in between with consecutive slices. *)
Lemma fill_levels_spec {A} (sorted_moves : list A) (total_moves : nat)
    (percentages : list Z) :
  forall (level start_idx : nat) (difficulty_levels : list (list A)),
    level + List.length percentages <= List.length difficulty_levels ->
    start_idx <= total_moves ->
    exists (tiers : list (list A)) (stop : nat),
      fill_levels sorted_moves total_moves percentages level start_idx
        difficulty_levels =
      Some ((firstn level difficulty_levels ++ tiers ++
             skipn (level + List.length percentages) difficulty_levels)%list,
            stop) /\
      List.length tiers = List.length percentages /\
      List.concat tiers = slice sorted_moves start_idx stop /\
      start_idx <= stop <= total_moves.
Proof.
  induction percentages as [ | percentage rest IH];
    intros level start_idx dl Hlen Hstart; cbn [fill_levels List.length] in *.
  - exists [], start_idx. rewrite Nat.add_0_r. cbn [app].
    rewrite firstn_skipn. repeat split; try lia.
    unfold slice. now rewrite Nat.sub_diag.
  - set (end_idx := Nat.min (start_idx + moves_in_level percentage total_moves)
                            total_moves).
    assert (Hend : start_idx <= end_idx <= total_moves) by (unfold end_idx; lia).
    rewrite list_assign_some by lia.
    set (dl' := firstn level dl ++
                slice sorted_moves start_idx end_idx :: skipn (S level) dl).
    assert (Hlen' : List.length dl' = List.length dl).
    { unfold dl'. rewrite length_app, length_firstn. cbn [List.length].
      rewrite length_skipn. lia. }
    destruct (IH (S level) end_idx dl') as (tiers & stop & Hrun & Hn & Hcat & Hstop);
      [lia | lia | ].
    exists (slice sorted_moves start_idx end_idx :: tiers), stop.
    rewrite Hrun. repeat split; try lia.
    + f_equal. f_equal.
      assert (Hfirst : firstn (S level) dl' =
                       firstn level dl ++ [slice sorted_moves start_idx end_idx]).
      { unfold dl'. rewrite firstn_app, length_firstn.
        replace (Nat.min level (List.length dl)) with level by lia.
        replace (S level - level) with 1 by lia.
        rewrite firstn_firstn. replace (Nat.min (S level) level) with level by lia.
        reflexivity. }
      assert (Hskip : skipn (S level + List.length rest) dl' =
                      skipn (level + S (List.length rest)) dl).
      { unfold dl'. rewrite skipn_app, length_firstn.
        replace (Nat.min level (List.length dl)) with level by lia.
        rewrite skipn_firstn_comm.
        replace (level - (S level + List.length rest)) with 0 by lia.
        cbn [firstn app].
        replace (S level + List.length rest - level)
          with (S (List.length rest)) by lia.
        rewrite skipn_cons, skipn_skipn. f_equal. lia. }
      rewrite Hfirst, Hskip, <- app_assoc. reflexivity.
    + cbn [List.length]. lia.
    + cbn [List.concat]. rewrite Hcat. apply slice_app; lia.
Qed.

(** With eight levels the stratifier returns eight tiers whose
    concatenation is the sorted population. *)
Lemma categorize_eight_levels (moves : list (ScoredMove F)) :
  exists tiers,
    categorize_moves_by_difficulty moves 8 = Some tiers /\
    List.length tiers = 8 /\
    List.concat tiers = sorted_by_difficulty moves /\
    (moves = [] -> tiers = repeat [] 8).
Proof.
  unfold categorize_moves_by_difficulty.
  set (sorted_moves := sorted_by_difficulty moves).
  destruct (List.length sorted_moves =? 0) eqn:E.
  - apply Nat.eqb_eq, length_zero_iff_nil in E.
    exists (repeat [] 8). rewrite E. repeat split; reflexivity.
  - apply Nat.eqb_neq in E.
    destruct (fill_levels_spec sorted_moves (List.length sorted_moves)
                level_percentages 0 0 (repeat [] 8))
      as (tiers & stop & Hrun & Hn & Hcat & Hstop);
      [cbn; lia | lia | ].
    cbn [firstn app level_percentages List.length Nat.add repeat skipn] in Hrun, Hn.
    rewrite app_nil_r in Hrun. cbn [repeat]. rewrite Hrun. rewrite slice_from_zero in Hcat.
    assert (Hnonempty : moves = [] -> False).
    { intros ->. apply E. reflexivity. }
    destruct (stop <? List.length sorted_moves) eqn:Elt.
    + destruct (exists_last (l := tiers)) as (front & last_level & ->).
      { intros ->. discriminate Hn. }
      rewrite extend_last_some.
      exists (front ++ [last_level ++ skipn stop sorted_moves]).
      rewrite length_app in *. cbn [List.length] in *.
      repeat split; [lia | | intros H; contradiction].
      rewrite concat_app in *. cbn [List.concat] in *.
      rewrite app_nil_r in *. rewrite app_assoc, Hcat.
      apply firstn_skipn.
    + apply Nat.ltb_ge in Elt.
      exists tiers. repeat split; [exact Hn | | intros H; contradiction].
      rewrite Hcat. apply firstn_all2. lia.
Qed.

End StratifierFacts.

Section Seventeen.
Context {F : Type} {num : PyFloat F}.
Local Open Scope nat_scope.

Lemma seventeen_moves_tiers (moves : list (ScoredMove F)) :
  map (fun p => moves_in_level p 17) level_percentages
    = [0; 1; 2; 3; 3; 2; 1; 0] ->
  List.length moves = 17 ->
  exists tiers,
    categorize_moves_by_difficulty moves 8 = Some tiers /\
    map (@List.length _) tiers = [0; 1; 2; 3; 3; 2; 1; 5] /\
    nth 7 tiers [] = skipn 12 (sorted_by_difficulty moves).
Proof.
  intros Hfloor Hlen.
  rewrite <- sorted_by_difficulty_length in Hlen.
  unfold categorize_moves_by_difficulty.
  set (sorted_moves := sorted_by_difficulty moves) in *.
  cbn [map level_percentages] in Hfloor.
  injection Hfloor as H5 H10 H15 H20 H20' H15' H10' H5'.
  do 17 (destruct sorted_moves as [ | ? sorted_moves]; [discriminate Hlen | ]).
  destruct sorted_moves; [ | discriminate Hlen].
  cbn [List.length Nat.eqb level_percentages fill_levels repeat].
  rewrite H5, H10, H15, H20.
  eexists. split; [reflexivity | ]. split; reflexivity.
Qed.

End Seventeen.

(** ** Facts of exact arithmetic *)

Module ExactFacts.
Local Open Scope Q_scope.

Lemma dec_value (n : Z) (d : positive) : dec (F:=Q) n d == n # d.
Proof.
  unfold dec; cbn. unfold Qdiv, Qinv, Qmult, Qeq; simpl. lia.
Qed.

Lemma flt_true (x y : Q) : flt x y = true <-> x < y.
Proof.
  cbn. rewrite negb_true_iff, <- not_true_iff_false, Qle_bool_iff.
  split; [apply Qnot_le_lt | apply Qlt_not_le].
Qed.

Lemma flt_false (x y : Q) : flt x y = false <-> y <= x.
Proof.
  cbn. rewrite negb_false_iff, Qle_bool_iff. reflexivity.
Qed.

Lemma py_min_spec (a b : Q) :
  (b < a /\ py_min a b = b) \/ (a <= b /\ py_min a b = a).
Proof.
  unfold py_min. destruct (flt b a) eqn:E.
  - left. split; [now apply flt_true | reflexivity].
  - right. split; [now apply flt_false | reflexivity].
Qed.

Lemma py_max_spec (a b : Q) :
  (a < b /\ py_max a b = b) \/ (b <= a /\ py_max a b = a).
Proof.
  unfold py_max. destruct (flt a b) eqn:E.
  - left. split; [now apply flt_true | reflexivity].
  - right. split; [now apply flt_false | reflexivity].
Qed.

Lemma clamp_bounds (d : Q) :
  0 <= py_max (of_int 0) (py_min (of_int 1) d) <= 1.
Proof.
  change (of_int (F:=Q) 0) with 0; change (of_int (F:=Q) 1) with 1.
  destruct (py_min_spec 1 d) as [[H1 ->] | [H1 ->]];
    [destruct (py_max_spec 0 d) as [[H2 ->] | [H2 ->]]
    |destruct (py_max_spec 0 1) as [[H2 ->] | [H2 ->]]]; lra.
Qed.

Lemma clamp_nonpositive (d : Q) :
  d <= 0 -> py_max (of_int 0) (py_min (of_int 1) d) = 0.
Proof.
  intros Hd.
  change (of_int (F:=Q) 0) with 0; change (of_int (F:=Q) 1) with 1.
  destruct (py_min_spec 1 d) as [[H1 ->] | [H1 ->]]; [|lra].
  destruct (py_max_spec 0 d) as [[H2 ->] | [H2 ->]]; [lra | reflexivity].
Qed.

Ltac dec_values :=
  repeat match goal with
         | |- context [@dec Q Q_float ?n ?d] => rewrite (dec_value n d)
         | |- context [inject_Z (Zpos ?n) / inject_Z (Zpos ?d)] =>
             change (inject_Z (Zpos n) / inject_Z (Zpos d))
               with (@dec Q Q_float (Zpos n) d)
         end.

Lemma of_int_nonneg (n : Z) : (0 <= n)%Z -> 0 <= of_int (F:=Q) n.
Proof.
  intros H. change (inject_Z 0 <= inject_Z n). now rewrite <- Zle_Qle.
Qed.

Lemma scale_nonpositive (d f : Q) : d <= 0 -> 0 <= f -> fmul d f <= 0.
Proof.
  intros Hd Hf. cbn.
  setoid_replace 0 with (0 * f) by ring.
  apply Qmult_le_compat_r; assumption.
Qed.

Lemma py_max_zero_nonneg (x : Q) : 0 <= py_max (of_int 0) x.
Proof.
  change (of_int (F:=Q) 0) with 0.
  destruct (py_max_spec 0 x) as [[H ->] | [H ->]]; lra.
Qed.

(** The frequency factor [1.0 - 0.2 / (1 + 0.05 * times_played)]. *)
Lemma frequency_factor_nonneg (times_played : Q) :
  0 < times_played ->
  0 <= fsub (of_int 1)
         (fdiv (dec 2 10) (fadd (of_int 1) (fmul (dec 5 100) times_played))).
Proof.
  intros Ht. cbn [fsub fdiv fadd fmul Q_float].
  change (of_int (F:=Q) 1) with 1.
  dec_values.
  assert (Hden : 0 < 1 + (5 # 100) * times_played) by lra.
  assert (Hq : (2 # 10) / (1 + (5 # 100) * times_played) <= 1).
  { apply Qle_shift_div_r; [exact Hden | lra]. }
  lra.
Qed.

(** The divisor of the frequency factor is never zero where the division
    is reached. *)
Lemma frequency_divisor_nonzero (times_played : Q) :
  fgt times_played (of_int 0) = true ->
  ~ fadd (of_int 1) (fmul (dec 5 100) times_played) == 0.
Proof.
  unfold fgt. rewrite flt_true. change (of_int (F:=Q) 0) with 0.
  intros Ht. cbn [fadd fmul Q_float]. change (of_int (F:=Q) 1) with 1.
  dec_values. lra.
Qed.

(** The win-rate factor [0.8 + 0.2 * (1.0 - abs(win_rate - 0.5) * 0.4)]. *)
Lemma win_rate_factor_nonneg (win_rate : Q) :
  0 <= win_rate <= 1 ->
  0 <= fadd (dec 8 10)
         (fmul (dec 2 10)
            (fsub (of_int 1)
               (fmul (fabs (fsub win_rate (dec 5 10))) (dec 4 10)))).
Proof.
  intros [H0 H1]. cbn [fsub fdiv fadd fmul fabs Q_float].
  change (of_int (F:=Q) 1) with 1.
  dec_values.
  assert (Ha : Qabs (win_rate - (5 # 10)) <= 5 # 10).
  { apply Qabs_Qle_condition. split; lra. }
  lra.
Qed.

Lemma phase_adjustment_nonpositive (difficulty times_played : Q) depth
    game_phase position_complexity move_sequence is_capture is_check d' :
  difficulty <= 0 -> 0 <= position_complexity ->
  phase_adjustment difficulty times_played depth game_phase
    position_complexity move_sequence is_capture is_check = Some d' ->
  d' <= 0.
Proof.
  intros Hd Hpc. destruct game_phase as [phase_name phase_progress].
  unfold phase_adjustment, is_opening_theory.
  assert (H9 : 0 <= dec (F:=Q) 9 10) by (dec_values; lra).
  assert (H11 : 0 <= dec (F:=Q) 11 10) by (dec_values; lra).
  assert (H115 : 0 <= dec (F:=Q) 115 100) by (dec_values; lra).
  assert (H12 : 0 <= dec (F:=Q) 12 10) by (dec_values; lra).
  destruct (String.eqb phase_name "opening").
  { destruct (depth <=? 10)%Z; [ | intros [= <-]; exact Hd].
    assert (Ht : 0 <= fadd (dec 7 10)
                       (fmul (dec 3 10)
                          (py_max (of_int 0)
                             (fsub (of_int 1)
                                (fdiv (of_int depth) (of_int 10)))))).
    { pose proof (py_max_zero_nonneg
                    (fsub (of_int 1) (fdiv (of_int depth) (of_int 10))))
        as Hs.
      cbn [fadd fmul Q_float]. dec_values. lra. }
    destruct (times_played >? of_int 10)%F; intros [= <-];
      repeat apply scale_nonpositive; assumption. }
  destruct (String.eqb phase_name "middlegame").
  { destruct (is_capture || is_check); intros [= <-];
      repeat apply scale_nonpositive; assumption. }
  destruct (String.eqb phase_name "endgame"); [ | intros [= <-]; exact Hd].
  destruct (phase_progress >? dec 7 10)%F; [ | intros [= <-]; exact Hd].
  destruct (Py.last_item move_sequence) as [last_move | ]; [ | discriminate].
  destruct (Py.count_alpha last_move <=? 3)%Z; intros [= <-];
    apply scale_nonpositive; try assumption.
  cbn [fadd fmul Q_float]. dec_values. lra.
Qed.

Lemma common_adjustment_zero (difficulty times_played win_rate : Q) depth
    has_children position_complexity is_capture is_check :
  difficulty <= 0 -> 0 <= position_complexity -> (0 <= depth)%Z ->
  0 <= win_rate <= 1 ->
  common_adjustment difficulty times_played win_rate depth has_children
    position_complexity is_capture is_check = 0.
Proof.
  intros Hd Hpc Hdepth Hwr. unfold common_adjustment.
  apply clamp_nonpositive.
  pose proof (of_int_nonneg depth Hdepth) as Hz.
  assert (H1 : 0 <= fadd (dec 7 10) (fmul (dec 6 10) position_complexity)).
  { cbn [fadd fmul Q_float]. dec_values. lra. }
  assert (H2 : 0 <= fadd (of_int 1) (fmul (of_int depth) (dec 3 100))).
  { cbn [fadd fmul Q_float]. change (of_int (F:=Q) 1) with 1.
    dec_values. cbn [of_int Q_float] in *. 
    assert (0 <= inject_Z depth * (3 # 100)) by
      (apply Qmult_le_0_compat; [exact Hz | lra]).
    lra. }
  pose proof (win_rate_factor_nonneg win_rate Hwr) as H4.
  assert (H105 : 0 <= dec (F:=Q) 105 100) by (dec_values; lra).
  assert (H11 : 0 <= dec (F:=Q) 11 10) by (dec_values; lra).
  assert (H95 : 0 <= dec (F:=Q) 95 100) by (dec_values; lra).
  assert (Hfreq :
    (if (times_played >? of_int 0)%F
     then fmul (fmul (fmul difficulty
                        (fadd (dec 7 10) (fmul (dec 6 10) position_complexity)))
                  (fadd (of_int 1) (fmul (of_int depth) (dec 3 100))))
            (fsub (of_int 1)
               (fdiv (dec 2 10)
                  (fadd (of_int 1) (fmul (dec 5 100) times_played))))
     else fmul (fmul difficulty
                  (fadd (dec 7 10) (fmul (dec 6 10) position_complexity)))
            (fadd (of_int 1) (fmul (of_int depth) (dec 3 100)))) <= 0).
  { destruct (times_played >? of_int 0)%F eqn:Et.
    - unfold fgt in Et. apply flt_true in Et.
      repeat apply scale_nonpositive; try assumption.
      apply frequency_factor_nonneg. exact Et.
    - repeat apply scale_nonpositive; assumption. }
  destruct has_children; destruct (is_capture || is_check);
    try destruct (depth >? 2)%Z;
    repeat apply scale_nonpositive; assumption.
Qed.

Lemma div_by_int (x : Q) (d : positive) :
  x / inject_Z (Zpos d) == x * (1 # d).
Proof. unfold Qdiv, Qinv, inject_Z; simpl. reflexivity. Qed.






Lemma insert_by_difficulty_sorted (x : ScoredMove Q) (l : list (ScoredMove Q)) :
  StronglySorted by_difficulty l ->
  StronglySorted by_difficulty (insert_by_difficulty x l).
Proof.
  induction l as [ | y l IH]; intros Hs; cbn [insert_by_difficulty].
  - constructor; constructor.
  - inversion Hs as [ | y' l' Hl Hy]; subst.
    destruct (flt (sm_difficulty y) (sm_difficulty x)) eqn:E.
    + apply flt_true in E. constructor; [apply IH, Hl | ].
      apply (Permutation_Forall (insert_by_difficulty_perm x l)).
      constructor; [ | exact Hy].
      unfold by_difficulty. lra.
    + apply flt_false in E. constructor; [exact Hs | ].
      constructor; [exact E | ].
      apply (Forall_impl _ (P := by_difficulty y)); [ | exact Hy].
      unfold by_difficulty. intros z Hz. lra.
Qed.

Lemma sorted_by_difficulty_sorted (l : list (ScoredMove Q)) :
  StronglySorted by_difficulty (sorted_by_difficulty l).
Proof.
  induction l as [ | x l IH]; cbn; [constructor | ].
  apply insert_by_difficulty_sorted, IH.
Qed.

End ExactFacts.

(* ================================================================= *)
(** ** The difficulty scorer *)




(** C3 (as amended).  At rating 1200, timesPlayed 0, winRate 0.5, depth 0,
    no children, phase (middlegame, 0.5), complexity 0.5, no capture and no
    check, and for every move sequence, the scorer returns 0.22: the win-rate
    step multiplies by [0.8 + 0.2 * (1.0 - 0 * 0.4) = 1.0], not by 0.9.  The
    value is exactly 22/100 in exact arithmetic and the double
    [7926335344172074 * 2^-55], within [2^-54] of 0.22, in binary64. *)
Theorem scenario_score_is_022 (move_sequence : list string) :
  (exists score : Q,
     calculate_difficulty_score (F:=Q)
       1200%Q 0%Q (1 # 2)%Q 0 false ("middlegame", (1 # 2)%Q) (1 # 2)%Q
       move_sequence false false = Some score /\
     (score == 22 # 100)%Q) /\
  (exists score : spec_float,
     calculate_difficulty_score (F:=spec_float)
       (of_int 1200) (of_int 0) (dec 5 10) 0 false ("middlegame", dec 5 10)
       (dec 5 10) move_sequence false false = Some score /\
     score = S754_finite false 7926335344172074 (-55) /\
     (Qabs (Binary64.to_Q score - (22 # 100)) <= 1 # 18014398509481984)%Q).
Proof.
  split.
  - eexists. split; [vm_compute; reflexivity | reflexivity].
  - eexists. split; [vm_compute; reflexivity | ].
    split; [reflexivity | vm_compute; discriminate].
Qed.

(** C3, the claim as stated fails: the returned score is more than 0.02 away
    from 0.198, in exact arithmetic and in binary64. *)
Lemma scenario_score_is_not_0198 :
  (exists score : Q,
     calculate_difficulty_score (F:=Q)
       1200%Q 0%Q (1 # 2)%Q 0 false ("middlegame", (1 # 2)%Q) (1 # 2)%Q
       ["e4"] false false = Some score /\
     (2 # 100 < Qabs (score - (198 # 1000)))%Q) /\
  (exists score : spec_float,
     calculate_difficulty_score (F:=spec_float)
       (of_int 1200) (of_int 0) (dec 5 10) 0 false ("middlegame", dec 5 10)
       (dec 5 10) ["e4"] false false = Some score /\
     (2 # 100 < Qabs (Binary64.to_Q score - (198 # 1000)))%Q).
Proof.
  split; eexists; (split; [vm_compute; reflexivity | vm_compute; reflexivity]).
Qed.

(** The scorer at ratings of at most 800, first in exact arithmetic: for
    non-negative complexity, winRate in [0,1], non-negative depth, every
    timesPlayed, flag and phase, and a move sequence that is non-empty or a
    phase that is not a late endgame, the scorer returns exactly 0: the base
    is non-positive, every later factor is non-negative, and the lower clamp
    fires. *)
Theorem low_rating_scores_zero
    (rating times_played win_rate : Q) (depth : Z) (has_children : bool)
    (game_phase : string * Q) (position_complexity : Q)
    (move_sequence : list string) (is_capture is_check : bool) :
  (rating <= 800)%Q ->
  (0 <= position_complexity)%Q ->
  (0 <= win_rate <= 1)%Q ->
  (0 <= depth)%Z ->
  move_sequence <> [] \/ fst game_phase <> "endgame" \/
    (snd game_phase >? dec 7 10)%F = false ->
  calculate_difficulty_score rating times_played win_rate depth
    has_children game_phase position_complexity move_sequence
    is_capture is_check = Some 0%Q.
Proof.
  intros Hrating Hpc Hwr Hdepth Hdomain.
  unfold calculate_difficulty_score.
  assert (Hbase : (fdiv (fsub rating (of_int 800)) (of_int 2000) <= 0)%Q).
  { cbn [fdiv fsub of_int Q_float]. unfold inject_Z.
    apply Qle_shift_div_r; [reflexivity | ]. lra. }
  destruct (phase_adjustment _ _ _ _ _ _ _ _) as [d | ] eqn:E.
  - f_equal. apply ExactFacts.common_adjustment_zero; try assumption.
    eapply ExactFacts.phase_adjustment_nonpositive; eassumption.
  - apply phase_adjustment_none in E. destruct E as (Hname & Hlate & Hempty).
    destruct Hdomain as [H | [H | H]];
      [contradiction | contradiction | congruence].
Qed.

(** An instance in exact arithmetic: rating 750, 12 games, win rate 0.4,
    depth 4, an opening, complexity 0.6, the move sequence [e4; c5]. *)
Lemma low_rating_scores_zero_witness :
  calculate_difficulty_score (F:=Q)
    750%Q 12%Q (4 # 10)%Q 4 true ("opening", (3 # 10)%Q) (6 # 10)%Q
    ["e4"; "c5"] true false = Some 0%Q.
Proof.
  apply low_rating_scores_zero.
  - vm_compute; discriminate.
  - vm_compute; discriminate.
  - split; vm_compute; discriminate.
  - lia.
  - left. discriminate.
Defined.

(** In binary64 too a rating of at most 800 scores [+0.0], on a grid of
    ratings, play counts, depths, phases and flags. *)
Lemma low_rating_scores_zero_binary64_samples :
  forallb
    (fun rating =>
       forallb
         (fun times_played =>
            forallb
              (fun depth =>
                 forallb
                   (fun phase =>
                      forallb
                        (fun flag : bool =>
                           match
                             calculate_difficulty_score (F:=spec_float)
                               (of_int rating) (of_int times_played)
                               (dec 3 10) depth flag phase (dec 6 10)
                               ["Kxe4"] flag (negb flag)
                           with
                           | Some (S754_zero false) => true
                           | _ => false
                           end)
                        [true; false])
                   [("opening", dec 2 10); ("middlegame", dec 5 10);
                    ("endgame", dec 4 10); ("endgame", dec 9 10);
                    ("unknown", dec 5 10)])
              [0; 2; 3; 10; 11; 40])
         [0; 1; 10; 11; 500])
    [-5000; 0; 400; 799; 800] = true.
Proof. vm_compute. reflexivity. Qed.

(* ================================================================= *)
(** ** Rounding to binary64 *)

(** The steps of [binary_round_aux]: the number of digits of a mantissa,
    the truncation of [shr_fexp], the rounding to nearest even, and the two
    of them composed. *)
Module RoundFacts.
Local Open Scope Z_scope.
Import Binary64.

Local Abbreviation fexp := (SpecFloat.fexp prec emax).

Lemma fexp_value (x : Z) : fexp x = Z.max (x - 53) (-1074).
Proof. reflexivity. Qed.

Lemma digits2_pos_size (p : positive) : digits2_pos p = Pos.size p.
Proof. induction p as [p IH | p IH | ]; cbn; congruence. Qed.

Lemma Zdigits2_nonneg (m : Z) : 0 <= Zdigits2 m.
Proof. destruct m; cbn; lia. Qed.

Lemma Zdigits2_bounds (m : Z) :
  0 < m -> 2 ^ (Zdigits2 m - 1) <= m < 2 ^ Zdigits2 m.
Proof.
  destruct m as [ | p | p]; try lia. intros _.
  cbn [Zdigits2]. rewrite digits2_pos_size.
  pose proof (Pos.size_gt p) as Hgt. pose proof (Pos.size_le p) as Hle.
  apply Pos2Z.pos_lt_pos in Hgt. apply Pos2Z.pos_le_pos in Hle.
  rewrite Pos2Z.inj_pow in Hgt, Hle.
  replace (Z.pos (Pos.size p)) with (Z.succ (Z.pos (Pos.size p) - 1)) in Hle
    by lia.
  rewrite Z.pow_succ_r in Hle by lia.
  change (Z.pos p~0) with (2 * Z.pos p) in Hle. lia.
Qed.

Lemma Zdigits2_le (m k : Z) : 0 <= m -> 0 <= k -> m < 2 ^ k -> Zdigits2 m <= k.
Proof.
  intros Hm Hk Hlt. destruct (Z.eq_dec m 0) as [-> | Hne]; [cbn; lia | ].
  destruct (Zdigits2_bounds m ltac:(lia)) as [Hlow _].
  destruct (Z_le_gt_dec (Zdigits2 m) k) as [H | H]; [exact H | exfalso].
  assert (2 ^ k <= 2 ^ (Zdigits2 m - 1)) by (apply Z.pow_le_mono_r; lia).
  lia.
Qed.

Lemma Zdigits2_ge (m k : Z) : 0 <= k -> 2 ^ k <= m -> k + 1 <= Zdigits2 m.
Proof.
  intros Hk Hle.
  assert (Hm : 0 < m) by (pose proof (Z.pow_pos_nonneg 2 k); lia).
  destruct (Zdigits2_bounds m Hm) as [_ Hhigh].
  destruct (Z_le_gt_dec (k + 1) (Zdigits2 m)) as [H | H]; [exact H | exfalso].
  pose proof (Zdigits2_nonneg m).
  assert (2 ^ Zdigits2 m <= 2 ^ k) by (apply Z.pow_le_mono_r; lia).
  lia.
Qed.

Lemma shr_1_m (mrs : shr_record) :
  0 <= shr_m mrs -> shr_m (shr_1 mrs) = shr_m mrs / 2.
Proof.
  destruct mrs as [m r s]. cbn [shr_m]. intros Hm.
  destruct m as [ | [p | p | ] | p]; cbn [shr_1 shr_m]; try lia.
  - reflexivity.
  - change (Z.pos p~1) with (2 * Z.pos p + 1).
    apply Z.div_unique with (r := 1); lia.
  - change (Z.pos p~0) with (2 * Z.pos p).
    apply Z.div_unique with (r := 0); lia.
  - reflexivity.
Qed.

Lemma shr_1_nonneg (mrs : shr_record) :
  0 <= shr_m mrs -> 0 <= shr_m (shr_1 mrs).
Proof.
  intros H. rewrite shr_1_m by exact H. apply Z.div_pos; lia.
Qed.

Lemma iter_shr_m (p : positive) :
  forall mrs, 0 <= shr_m mrs ->
              shr_m (iter_pos shr_1 p mrs) = shr_m mrs / 2 ^ Z.pos p.
Proof.
  induction p as [p IH | p IH | ]; intros mrs Hm; cbn [iter_pos];
    try (assert (Hp : 0 < 2 ^ Z.pos p) by (apply Z.pow_pos_nonneg; lia)).
  - assert (H1 : 0 <= shr_m (shr_1 mrs)) by now apply shr_1_nonneg.
    assert (H2 : 0 <= shr_m (iter_pos shr_1 p (shr_1 mrs))).
    { rewrite IH by exact H1. apply Z.div_pos; [exact H1 | ].
      apply Z.pow_pos_nonneg; lia. }
    rewrite IH by exact H2. rewrite IH by exact H1. rewrite shr_1_m by exact Hm.
    rewrite !Z.div_div by lia.
    f_equal. replace (Z.pos p~1) with (1 + (Z.pos p + Z.pos p)) by lia.
    rewrite !Z.pow_add_r by lia. lia.
  - assert (H2 : 0 <= shr_m (iter_pos shr_1 p mrs)).
    { rewrite IH by exact Hm. apply Z.div_pos; [exact Hm | ].
      apply Z.pow_pos_nonneg; lia. }
    rewrite IH by exact H2. rewrite IH by exact Hm.
    rewrite Z.div_div by lia.
    f_equal. replace (Z.pos p~0) with (Z.pos p + Z.pos p) by lia.
    rewrite Z.pow_add_r by lia. lia.
  - rewrite shr_1_m by exact Hm. reflexivity.
Qed.

Lemma shr_record_of_loc_m (m : Z) (l : location) :
  shr_m (shr_record_of_loc m l) = m.
Proof. destruct l as [ | [ | | ]]; reflexivity. Qed.

(** The mantissa and the exponent after [shr_fexp]. *)
Lemma shr_fexp_m (m e : Z) (l : location) :
  0 <= m ->
  let e' := Z.max e (fexp (Zdigits2 m + e)) in
  shr_m (fst (shr_fexp prec emax m e l)) = m / 2 ^ (e' - e) /\
  snd (shr_fexp prec emax m e l) = e'.
Proof.
  intros Hm e'. unfold shr_fexp, shr.
  destruct (fexp (Zdigits2 m + e) - e) as [ | p | p] eqn:En; cbn [fst snd].
  - assert (e' = e) by (unfold e'; lia).
    rewrite shr_record_of_loc_m. replace (e' - e) with 0 by lia.
    rewrite Z.div_1_r. split; [reflexivity | lia].
  - assert (e' = e + Z.pos p) by (unfold e'; lia).
    rewrite iter_shr_m by (rewrite shr_record_of_loc_m; exact Hm).
    rewrite shr_record_of_loc_m. replace (e' - e) with (Z.pos p) by lia.
    split; [reflexivity | lia].
  - assert (e' = e) by (unfold e'; lia).
    rewrite shr_record_of_loc_m. replace (e' - e) with 0 by lia.
    rewrite Z.div_1_r. split; [reflexivity | lia].
Qed.

Lemma shr_fexp_exact (m e : Z) :
  fexp (Zdigits2 m + e) <= e ->
  fst (shr_fexp prec emax m e loc_Exact) = shr_record_of_loc m loc_Exact.
Proof.
  intros H. unfold shr_fexp, shr.
  destruct (fexp (Zdigits2 m + e) - e) as [ | p | p] eqn:En; try reflexivity.
  lia.
Qed.

Lemma round_nearest_even_range (m : Z) (l : location) :
  m <= round_nearest_even m l <= m + 1.
Proof.
  destruct l as [ | [ | | ]]; cbn; try lia. destruct (Z.even m); lia.
Qed.

(** What [binary_round_aux] computes: a truncation to the exponent [E1], a
    rounding step to one of the two neighbours, and a last truncation to
    [E2] that renormalises the mantissa. *)
Lemma binary_round_aux_cases (s : bool) (m e : Z) (l : location) :
  0 <= m ->
  exists m2 m3 E1 E2 : Z,
    E1 = Z.max e (fexp (Zdigits2 m + e)) /\
    m / 2 ^ (E1 - e) <= m2 <= m / 2 ^ (E1 - e) + 1 /\
    (l = loc_Exact -> E1 = e -> m2 = m) /\
    E2 = Z.max E1 (fexp (Zdigits2 m2 + E1)) /\
    m3 = m2 / 2 ^ (E2 - E1) /\
    0 <= m3 /\
    binary_round_aux prec emax s m e l =
    match m3 with
    | Z0 => S754_zero s
    | Zpos p => if E2 <=? 971 then S754_finite s p E2 else S754_infinity s
    | Zneg _ => S754_nan
    end.
Proof.
  intros Hm. unfold binary_round_aux.
  destruct (shr_fexp_m m e l Hm) as [Hm1 He1].
  destruct (shr_fexp prec emax m e l) as [mrs' e'] eqn:Es1.
  cbn [fst snd] in Hm1, He1.
  set (m2 := round_nearest_even (shr_m mrs') (loc_of_shr_record mrs')).
  assert (Hm1pos : 0 <= shr_m mrs').
  { rewrite Hm1. apply Z.div_pos; [exact Hm | ].
    apply Z.pow_pos_nonneg; lia. }
  pose proof (round_nearest_even_range (shr_m mrs') (loc_of_shr_record mrs'))
    as Hr. fold m2 in Hr.
  assert (Hm2 : 0 <= m2) by lia.
  destruct (shr_fexp_m m2 e' loc_Exact Hm2) as [Hm3 He2].
  destruct (shr_fexp prec emax m2 e' loc_Exact) as [mrs'' e''] eqn:Es2.
  cbn [fst snd] in Hm3, He2.
  exists m2, (shr_m mrs''), e', e''.
  split; [exact He1 | ].
  split; [rewrite He1, <- Hm1; exact Hr | ].
  split.
  { intros -> Hsame.
    assert (Hfst : fst (shr_fexp prec emax m e loc_Exact)
                   = shr_record_of_loc m loc_Exact).
    { apply shr_fexp_exact. rewrite He1 in Hsame. lia. }
    rewrite Es1 in Hfst. cbn [fst] in Hfst. unfold m2. rewrite Hfst.
    reflexivity. }
  split; [exact He2 | ].
  split; [rewrite He2; exact Hm3 | ].
  split.
  { rewrite Hm3. apply Z.div_pos; [exact Hm2 | ].
    apply Z.pow_pos_nonneg; lia. }
  reflexivity.
Qed.

End RoundFacts.

(** The values [m * 2^e] and their order. *)
Module ValFacts.
Import Binary64 RoundFacts.
Local Open Scope Q_scope.

Lemma two_neq_0 : ~ 2 == 0.
Proof. discriminate. Qed.

Lemma pow2_pos (k : Z) : 0 < 2 ^ k.
Proof. apply Qpower_0_lt. reflexivity. Qed.

Lemma pow2_add (a b : Z) : 2 ^ (a + b) == 2 ^ a * 2 ^ b.
Proof. apply Qpower_plus, two_neq_0. Qed.

Lemma pow2_le (a b : Z) : (a <= b)%Z -> 2 ^ a <= 2 ^ b.
Proof. intros H. apply Qpower_le_compat_l; [exact H | discriminate]. Qed.

Lemma pow2_lt (a b : Z) : (a < b)%Z -> 2 ^ a < 2 ^ b.
Proof. intros H. apply Qpower_lt_compat_l; [exact H | reflexivity]. Qed.

Lemma pow2_lt_inv (a b : Z) : 2 ^ a < 2 ^ b -> (a < b)%Z.
Proof. intros H. eapply Qpower_lt_compat_l_inv; [exact H | reflexivity]. Qed.

Lemma pow2_Z (n : Z) : (0 <= n)%Z -> inject_Z (2 ^ n) == 2 ^ n.
Proof. intros H. rewrite Zpower_Qpower by exact H. reflexivity. Qed.

Lemma val_pow2 (n e : Z) : (0 <= n)%Z -> val (2 ^ n) e == 2 ^ (n + e).
Proof.
  intros H. unfold val. rewrite pow2_Z by exact H. now rewrite pow2_add.
Qed.

Lemma val_scale (m e n : Z) :
  (0 <= n)%Z -> val (m * 2 ^ n) e == val m (e + n).
Proof.
  intros H. unfold val. rewrite inject_Z_mult, pow2_Z by exact H.
  rewrite pow2_add. ring.
Qed.

Lemma val_le (a b e : Z) : (a <= b)%Z -> val a e <= val b e.
Proof.
  intros H. unfold val. apply Qmult_le_compat_r.
  - now rewrite <- Zle_Qle.
  - apply Qlt_le_weak, pow2_pos.
Qed.

Lemma val_lt (a b e : Z) : (a < b)%Z -> val a e < val b e.
Proof.
  intros H. unfold val. apply Qmult_lt_compat_r; [apply pow2_pos | ].
  now rewrite <- Zlt_Qlt.
Qed.

Lemma val_lt_inv (a b e : Z) : val a e < val b e -> (a < b)%Z.
Proof.
  intros H. destruct (Z_lt_le_dec a b) as [Hlt | Hle]; [exact Hlt | exfalso].
  apply (val_le b a e) in Hle. lra.
Qed.

Lemma val_le_inv (a b e : Z) : val a e <= val b e -> (a <= b)%Z.
Proof.
  intros H. destruct (Z_le_gt_dec a b) as [Hle | Hgt]; [exact Hle | exfalso].
  assert (Hlt : (b < a)%Z) by lia. apply (val_lt b a e) in Hlt. lra.
Qed.

Lemma val_0 (e : Z) : val 0 e == 0.
Proof. unfold val. ring. Qed.

Lemma val_pos (m e : Z) : (0 < m)%Z -> 0 < val m e.
Proof. intros H. rewrite <- (val_0 e). now apply val_lt. Qed.

Lemma val_nonneg (m e : Z) : (0 <= m)%Z -> 0 <= val m e.
Proof. intros H. rewrite <- (val_0 e). now apply val_le. Qed.

Lemma val_add (a b e : Z) : val (a + b) e == val a e + val b e.
Proof. unfold val. rewrite inject_Z_plus. ring. Qed.

Lemma val_opp (a e : Z) : val (- a) e == - val a e.
Proof. unfold val. rewrite inject_Z_opp. ring. Qed.

Lemma val_mul (a b e f : Z) : val (a * b) (e + f) == val a e * val b f.
Proof. unfold val. rewrite inject_Z_mult, pow2_add. ring. Qed.

(** Truncating [n] bits never raises the value. *)
Lemma val_floor (m e n : Z) :
  (0 <= m)%Z -> (0 <= n)%Z -> val (m / 2 ^ n) (e + n) <= val m e.
Proof.
  intros Hm Hn. rewrite <- val_scale by exact Hn. apply val_le.
  assert (Hp : (0 < 2 ^ n)%Z) by (apply Z.pow_pos_nonneg; lia).
  pose proof (Z.mul_div_le m (2 ^ n) Hp). lia.
Qed.

Lemma val_digits_lt (m e : Z) : (0 <= m)%Z -> val m e < 2 ^ (Zdigits2 m + e).
Proof.
  intros Hm. pose proof (Zdigits2_nonneg m) as Hd.
  rewrite <- val_pow2 by exact Hd. apply val_lt.
  destruct (Z.eq_dec m 0) as [-> | Hne].
  - reflexivity.
  - apply Zdigits2_bounds. lia.
Qed.

Lemma val_digits_ge (m e : Z) :
  (0 < m)%Z -> 2 ^ (Zdigits2 m - 1 + e) <= val m e.
Proof.
  intros Hm. destruct (Zdigits2_bounds m Hm) as [Hlow Hhigh].
  assert (Hd : (0 <= Zdigits2 m - 1)%Z).
  { clear Hlow Hhigh. destruct m as [ | p | p]; try lia.
    cbn [Zdigits2]. lia. }
  rewrite <- val_pow2 by exact Hd. now apply val_le.
Qed.

(** Between two values on the grid [2^E] there is no third: a value below
    a grid point is at most the grid point before it. *)
Lemma val_grid (a E t et : Z) :
  (E <= et)%Z -> val a E < val t et -> val (a + 1) E <= val t et.
Proof.
  intros HE Hlt.
  assert (Hs : val t et == val (t * 2 ^ (et - E)) E).
  { rewrite val_scale by lia. replace (E + (et - E))%Z with et by lia.
    reflexivity. }
  rewrite Hs in Hlt |- *. apply val_lt_inv in Hlt. apply val_le. lia.
Qed.

(** The binade of a value survives a truncation that leaves a bit. *)
Lemma val_floor_binade (m E n : Z) :
  (0 < m)%Z -> (0 <= n <= Zdigits2 m - 1)%Z ->
  (0 < m / 2 ^ n)%Z /\
  2 ^ (Zdigits2 m - 1 + E) <= val (m / 2 ^ n) (E + n).
Proof.
  intros Hm Hn. destruct (Zdigits2_bounds m Hm) as [Hlow _].
  assert (Hp : (0 < 2 ^ n)%Z) by (apply Z.pow_pos_nonneg; lia).
  assert (Hq : (2 ^ (Zdigits2 m - 1 - n) <= m / 2 ^ n)%Z).
  { apply Z.div_le_lower_bound; [exact Hp | ].
    rewrite <- Z.pow_add_r by lia.
    replace (n + (Zdigits2 m - 1 - n))%Z with (Zdigits2 m - 1)%Z by lia.
    exact Hlow. }
  assert (Hpos : (0 < 2 ^ (Zdigits2 m - 1 - n))%Z)
    by (apply Z.pow_pos_nonneg; lia).
  split; [lia | ].
  apply (val_le _ _ (E + n)) in Hq. rewrite val_pow2 in Hq by lia.
  replace (Zdigits2 m - 1 - n + (E + n))%Z with (Zdigits2 m - 1 + E)%Z in Hq
    by lia.
  exact Hq.
Qed.

(** A threshold [t * 2^et] with at most 53 bits in [t] and an exponent in
    the range of the format lies on the grid of every value below it. *)
Lemma grid_below_threshold (m e t et : Z) :
  (0 <= m)%Z -> (0 < t < 2 ^ 53)%Z -> (-1074 <= et)%Z ->
  val m e < val t et ->
  (e < SpecFloat.fexp prec emax (Zdigits2 m + e))%Z ->
  (SpecFloat.fexp prec emax (Zdigits2 m + e) <= et)%Z.
Proof.
  intros Hm Ht Het Hlt Hshift. rewrite fexp_value in *.
  destruct (Z.eq_dec m 0) as [-> | Hne].
  - cbn [Zdigits2] in *. lia.
  - pose proof (val_digits_ge m e ltac:(lia)) as Hlow.
    pose proof (val_digits_lt t et ltac:(lia)) as Hhigh.
    assert (Hdt : (Zdigits2 t <= 53)%Z) by (apply Zdigits2_le; lia).
    assert (H : 2 ^ (Zdigits2 m - 1 + e) < 2 ^ (Zdigits2 t + et)) by lra.
    apply pow2_lt_inv in H. lia.
Qed.

End ValFacts.

(** A rounding keeps the sign, does not pass a representable threshold
    above the value, and does not fall below a power of two under it. *)
Module RoundBounds.
Import Binary64 RoundFacts ValFacts.
Local Open Scope Q_scope.

Local Abbreviation fexp := (SpecFloat.fexp prec emax).

(** Rounding keeps the sign, and a finite result has an exponent in
    range. *)
Lemma binary_round_aux_shape (s : bool) (m e : Z) (l : location) :
  (0 <= m)%Z ->
  match binary_round_aux prec emax s m e l with
  | S754_zero s' => s' = s
  | S754_finite s' _ e' => s' = s /\ (e' <= 971)%Z
  | S754_infinity s' => s' = s
  | S754_nan => False
  end.
Proof.
  intros Hm.
  destruct (binary_round_aux_cases s m e l Hm)
    as (m2 & m3 & E1 & E2 & _ & _ & _ & _ & _ & Hpos & ->).
  destruct m3 as [ | p | p]; [reflexivity | | lia].
  destruct (E2 <=? 971)%Z eqn:E; [ | reflexivity].
  apply Z.leb_le in E. split; [reflexivity | exact E].
Qed.

(** Upper bound: a value below a representable threshold is rounded to
    at most that threshold, and not to an infinity when the threshold is
    finite. *)
Lemma binary_round_aux_upper (s : bool) (m e : Z) (l : location) (t et : Z) :
  (0 <= m)%Z -> (0 < t < 2 ^ 53)%Z -> (-1074 <= et)%Z ->
  val (m + 1) e <= val t et \/ (l = loc_Exact /\ val m e < val t et) ->
  match binary_round_aux prec emax s m e l with
  | S754_finite _ m' e' => val (Z.pos m') e' <= val t et
  | S754_infinity _ => ~ ((e <= 971)%Z /\ val t et < 2 ^ 1024)
  | _ => True
  end.
Proof.
  intros Hm Ht Het H.
  destruct (binary_round_aux_cases s m e l Hm)
    as (m2 & m3 & E1 & E2 & HE1 & Hm2 & Hexact & HE2 & Hm3 & Hpos & ->).
  assert (Hv : val m e < val t et).
  { destruct H as [H | [_ H]]; [ | exact H].
    pose proof (val_lt m (m + 1) e ltac:(lia)). lra. }
  assert (Hm2v : val m2 E1 <= val t et).
  { destruct (Z_le_gt_dec (fexp (Zdigits2 m + e)) e) as [Hns | Hsh].
    - assert (HEe : E1 = e) by lia. rewrite HEe in *.
      replace (e - e)%Z with 0%Z in Hm2 by lia.
      change (2 ^ 0)%Z with 1%Z in Hm2. rewrite Z.div_1_r in Hm2.
      destruct H as [H | [Hl H]].
      + pose proof (val_le m2 (m + 1) e ltac:(lia)). lra.
      + rewrite (Hexact Hl eq_refl). lra.
    - assert (HEf : E1 = fexp (Zdigits2 m + e)) by lia.
      assert (HEt : (E1 <= et)%Z).
      { rewrite HEf. apply (grid_below_threshold m e t et); try assumption.
        lia. }
      pose proof (val_floor m e (E1 - e) Hm ltac:(lia)) as Hfl.
      replace (e + (E1 - e))%Z with E1 in Hfl by lia.
      assert (Hlt : val (m / 2 ^ (E1 - e)) E1 < val t et) by lra.
      apply (val_grid _ _ _ _ HEt) in Hlt.
      pose proof (val_le m2 (m / 2 ^ (E1 - e) + 1) E1 ltac:(lia)). lra. }
  assert (Hm2pos : (0 <= m2)%Z).
  { assert (0 <= m / 2 ^ (E1 - e))%Z; [ | lia].
    apply Z.div_pos; [exact Hm | apply Z.pow_pos_nonneg; lia]. }
  assert (Hm3v : val m3 E2 <= val m2 E1).
  { pose proof (val_floor m2 E1 (E2 - E1) Hm2pos ltac:(lia)) as Hfl.
    replace (E1 + (E2 - E1))%Z with E2 in Hfl by lia.
    rewrite Hm3. exact Hfl. }
  destruct m3 as [ | p | p]; [exact I | | lia].
  destruct (E2 <=? 971)%Z eqn:E; [lra | ].
  apply Z.leb_gt in E. intros [He Htop].
  assert (H1 : (fexp (Zdigits2 m + e) <= 971)%Z).
  { rewrite fexp_value. destruct (Z.eq_dec m 0) as [-> | Hne].
    - cbn [Zdigits2]. lia.
    - pose proof (val_digits_ge m e ltac:(lia)) as Hlow.
      assert (Hp : 2 ^ (Zdigits2 m - 1 + e) < 2 ^ 1024) by lra.
      apply pow2_lt_inv in Hp. lia. }
  assert (Hm2gt : (0 < m2)%Z).
  { destruct (Z.eq_dec m2 0) as [H0 | Hne]; [ | lia].
    rewrite H0 in Hm3. rewrite Z.div_0_l in Hm3; [lia | ].
    apply Z.pow_nonzero; lia. }
  assert (H2 : (fexp (Zdigits2 m2 + E1) <= 971)%Z).
  { rewrite fexp_value.
    pose proof (val_digits_ge m2 E1 Hm2gt) as Hlow.
    assert (Hp : 2 ^ (Zdigits2 m2 - 1 + E1) < 2 ^ 1024) by lra.
    apply pow2_lt_inv in Hp. lia. }
  lia.
Qed.

(** Lower bound: a value of at least [2^j], with [j] in the range of the
    format, is not rounded below [2^j]. *)
Lemma binary_round_aux_lower (s : bool) (m e : Z) (l : location) (j : Z) :
  (0 < m)%Z -> (-1074 <= j)%Z -> 2 ^ j <= val m e ->
  match binary_round_aux prec emax s m e l with
  | S754_finite _ m' e' => 2 ^ j <= val (Z.pos m') e'
  | S754_infinity _ => True
  | _ => False
  end.
Proof.
  intros Hm Hj Hlow.
  destruct (binary_round_aux_cases s m e l ltac:(lia))
    as (m2 & m3 & E1 & E2 & HE1 & Hm2 & _ & HE2 & Hm3 & Hpos & ->).
  assert (Hdj : (j < Zdigits2 m + e)%Z).
  { apply pow2_lt_inv. pose proof (val_digits_lt m e ltac:(lia)). lra. }
  assert (Hd1 : (1 <= Zdigits2 m)%Z).
  { destruct m as [ | p | p]; cbn [Zdigits2]; lia. }
  rewrite fexp_value in HE1.
  destruct (val_floor_binade m e (E1 - e) Hm ltac:(lia)) as [Hm1 Hv1].
  replace (e + (E1 - e))%Z with E1 in Hv1 by lia.
  assert (Hm2pos : (0 < m2)%Z) by lia.
  assert (Hv2 : 2 ^ (Zdigits2 m - 1 + e) <= val m2 E1).
  { pose proof (val_le (m / 2 ^ (E1 - e)) m2 E1 ltac:(lia)). lra. }
  assert (Hd2 : (Zdigits2 m - 1 + e < Zdigits2 m2 + E1)%Z).
  { apply pow2_lt_inv. pose proof (val_digits_lt m2 E1 ltac:(lia)). lra. }
  assert (Hd21 : (1 <= Zdigits2 m2)%Z).
  { destruct m2 as [ | p | p]; cbn [Zdigits2]; lia. }
  rewrite fexp_value in HE2.
  destruct (val_floor_binade m2 E1 (E2 - E1) Hm2pos ltac:(lia)) as [Hm3pos Hv3].
  replace (E1 + (E2 - E1))%Z with E2 in Hv3 by lia.
  rewrite <- Hm3 in Hm3pos, Hv3.
  pose proof (pow2_le j (Zdigits2 m2 - 1 + E1) ltac:(lia)) as Hjg.
  destruct m3 as [ | p | p]; [lia | | lia].
  destruct (E2 <=? 971)%Z; [lra | exact I].
Qed.

Lemma shl_align_val (mx : positive) (ex ex' : Z) :
  val (Z.pos (fst (shl_align mx ex ex'))) (snd (shl_align mx ex ex'))
  == val (Z.pos mx) ex /\
  (snd (shl_align mx ex ex') <= ex)%Z.
Proof.
  unfold shl_align.
  destruct (ex' - ex)%Z as [ | d | d] eqn:Ed; cbn [fst snd];
    try (split; [reflexivity | lia]).
  change (Pos.iter xO mx d) with (shift_pos d mx).
  rewrite shift_pos_correct. change (Z.pow_pos 2 d) with (2 ^ Z.pos d)%Z.
  split; [ | lia].
  rewrite Z.mul_comm, val_scale by lia.
  replace (ex' + Z.pos d)%Z with ex by lia. reflexivity.
Qed.

Lemma binary_round_shape (s : bool) (mx : positive) (ex : Z) :
  match binary_round prec emax s mx ex with
  | S754_zero s' => s' = s
  | S754_finite s' _ e' => s' = s /\ (e' <= 971)%Z
  | S754_infinity s' => s' = s
  | S754_nan => False
  end.
Proof.
  unfold binary_round.
  destruct (shl_align mx ex _) as [mz ez].
  apply binary_round_aux_shape. lia.
Qed.

Lemma binary_round_upper (s : bool) (mx : positive) (ex t et : Z) :
  (0 < t < 2 ^ 53)%Z -> (-1074 <= et)%Z ->
  val (Z.pos mx) ex < val t et ->
  match binary_round prec emax s mx ex with
  | S754_finite _ m' e' => val (Z.pos m') e' <= val t et
  | S754_infinity _ => ~ ((ex <= 971)%Z /\ val t et < 2 ^ 1024)
  | _ => True
  end.
Proof.
  intros Ht Het Hv. unfold binary_round.
  destruct (shl_align_val mx ex (fexp (Z.pos (digits2_pos mx) + ex)))
    as [Hval Hexp].
  destruct (shl_align mx ex _) as [mz ez]. cbn [fst snd] in Hval, Hexp.
  pose proof (binary_round_aux_upper s (Z.pos mz) ez loc_Exact t et
                ltac:(lia) Ht Het) as H.
  rewrite Hval in H. specialize (H (or_intror (conj eq_refl Hv))).
  destruct (binary_round_aux prec emax s (Z.pos mz) ez loc_Exact);
    try exact H.
  intros [He Htop]. apply H. split; [lia | exact Htop].
Qed.

Lemma binary_round_lower (s : bool) (mx : positive) (ex j : Z) :
  (-1074 <= j)%Z -> 2 ^ j <= val (Z.pos mx) ex ->
  match binary_round prec emax s mx ex with
  | S754_finite _ m' e' => 2 ^ j <= val (Z.pos m') e'
  | S754_infinity _ => True
  | _ => False
  end.
Proof.
  intros Hj Hv. unfold binary_round.
  destruct (shl_align_val mx ex (fexp (Z.pos (digits2_pos mx) + ex)))
    as [Hval _].
  destruct (shl_align mx ex _) as [mz ez]. cbn [fst snd] in Hval.
  apply binary_round_aux_lower; [lia | exact Hj | ]. rewrite Hval. exact Hv.
Qed.

End RoundBounds.

(** The four operations and the conversion of an integer, on signs and
    bounds. *)
Module OpFacts.
Import Binary64 RoundFacts ValFacts RoundBounds.
Local Open Scope Q_scope.

Lemma b64_pos_nonneg (x : spec_float) : b64_pos x -> b64_nonneg x.
Proof. destruct x as [ | | | [ | ] m e]; cbn; auto. Qed.

Lemma b64_nonneg_value (x : spec_float) : b64_nonneg x -> 0 <= to_Q x.
Proof.
  destruct x as [s | s | | [ | ] m e]; cbn [b64_nonneg to_Q];
    try contradiction; intros _; [discriminate | ].
  apply (val_nonneg (Z.pos m) e). lia.
Qed.

Lemma b64_pos_value (x : spec_float) : b64_pos x -> 0 < to_Q x.
Proof.
  destruct x as [s | s | | [ | ] m e]; cbn [b64_pos to_Q];
    try contradiction; intros _.
  apply (val_pos (Z.pos m) e). lia.
Qed.

Lemma finite_nonneg (x : spec_float) :
  is_finite x = true -> 0 <= to_Q x -> b64_nonneg x.
Proof.
  destruct x as [s | s | | [ | ] m e]; cbn [is_finite b64_nonneg to_Q];
    try discriminate; auto.
  intros _ H. pose proof (val_pos (Z.pos m) e ltac:(lia)) as Hp.
  change (inject_Z (Z.pos m) * 2 ^ e) with (val (Z.pos m) e) in H. lra.
Qed.

Lemma nonneg_nonzero_pos (x : spec_float) :
  b64_nonneg x -> 0 < to_Q x -> b64_pos x.
Proof.
  destruct x as [s | s | | [ | ] m e]; cbn [b64_nonneg b64_pos to_Q];
    try contradiction; auto.
  intros _ H. discriminate H.
Qed.

(** The exponent of a float is below the binade of its value. *)
Lemma b64_exponent_lt (x : spec_float) (k : Z) :
  b64_nonneg x -> to_Q x < 2 ^ k -> (0 < k)%Z -> (b64_exponent x < k)%Z.
Proof.
  destruct x as [s | s | | [ | ] m e]; cbn [b64_nonneg b64_exponent to_Q];
    try contradiction; intros _ H Hk; [exact Hk | ].
  apply pow2_lt_inv. eapply Qle_lt_trans; [ | exact H].
  pose proof (val_le 1 (Z.pos m) e ltac:(lia)) as Hle.
  assert (H1 : val 1 e == 2 ^ e) by (unfold val; ring).
  rewrite H1 in Hle. exact Hle.
Qed.

(** ** Multiplication *)

Lemma b64_mul_upper (x y : spec_float) (t et : Z) :
  b64_nonneg x -> b64_nonneg y ->
  (b64_exponent x + b64_exponent y <= 971)%Z ->
  (0 < t < 2 ^ 53)%Z -> (-1074 <= et)%Z -> val t et < 2 ^ 1024 ->
  to_Q x * to_Q y < val t et ->
  b64_nonneg (fmul x y) /\ to_Q (fmul x y) <= val t et.
Proof.
  intros Hx Hy Hexp Ht Het Htop Hv.
  pose proof (val_pos t et ltac:(lia)) as HT.
  destruct x as [sx | sx | | [ | ] mx ex]; try contradiction;
    destruct y as [sy | sy | | [ | ] my ey]; try contradiction;
    cbn [fmul b64_float SFmul xorb b64_nonneg to_Q b64_exponent] in *;
    try (split; [exact I | lra]).
  change (inject_Z (Z.pos mx) * 2 ^ ex) with (val (Z.pos mx) ex) in Hv.
  change (inject_Z (Z.pos my) * 2 ^ ey) with (val (Z.pos my) ey) in Hv.
  rewrite <- val_mul in Hv. change (Z.pos mx * Z.pos my)%Z
    with (Z.pos (mx * my)) in Hv.
  pose proof (binary_round_aux_shape false (Z.pos (mx * my)) (ex + ey)
                loc_Exact ltac:(lia)) as Hs.
  pose proof (binary_round_aux_upper false (Z.pos (mx * my)) (ex + ey)
                loc_Exact t et ltac:(lia) Ht Het
                (or_intror (conj eq_refl Hv))) as Hu.
  destruct (binary_round_aux prec emax false (Z.pos (mx * my)) (ex + ey)
              loc_Exact) as [s | s | | s m e].
  - subst s. split; [exact I | cbn [to_Q]; lra].
  - exfalso. apply Hu. split; [exact Hexp | exact Htop].
  - contradiction.
  - destruct Hs as [-> _]. split; [exact I | exact Hu].
Qed.

(** The product of two positive finite floats is a zero, a positive finite
    float or [+inf]. *)
Lemma b64_mul_pos_shape (x y : spec_float) :
  b64_pos x -> b64_pos y ->
  fmul x y = S754_infinity false \/ b64_nonneg (fmul x y).
Proof.
  intros Hx Hy.
  destruct x as [sx | sx | | [ | ] mx ex]; try contradiction.
  destruct y as [sy | sy | | [ | ] my ey]; try contradiction.
  cbn [fmul b64_float SFmul xorb].
  pose proof (binary_round_aux_shape false (Z.pos (mx * my)) (ex + ey)
                loc_Exact ltac:(lia)) as Hs.
  destruct (binary_round_aux prec emax false (Z.pos (mx * my)) (ex + ey)
              loc_Exact) as [s | s | | s m e].
  - right. exact I.
  - left. now subst s.
  - contradiction.
  - right. now destruct Hs as [-> _].
Qed.

(** The product of a float that is not above zero with a positive finite
    float is not above zero, and is no NaN. *)
Lemma b64_nonpos_mul (d f : spec_float) :
  b64_nonpos d -> b64_pos f -> b64_nonpos (fmul d f).
Proof.
  intros Hd Hf.
  destruct f as [sf | sf | | [ | ] mf ef]; try contradiction.
  destruct d as [sd | [ | ] | | [ | ] md ed]; try contradiction;
    cbn [fmul b64_float SFmul xorb b64_nonpos]; try exact I.
  pose proof (binary_round_aux_shape true (Z.pos (md * mf)) (ed + ef)
                loc_Exact ltac:(lia)) as Hs.
  destruct (binary_round_aux prec emax true (Z.pos (md * mf)) (ed + ef)
              loc_Exact) as [s | s | | s m e]; cbn [b64_nonpos].
  - exact I.
  - subst s. exact I.
  - contradiction.
  - destruct Hs as [-> _]. exact I.
Qed.

(** ** Addition and subtraction *)

Lemma shl_align_snd (mx : positive) (ex ex' : Z) :
  (ex' <= ex)%Z -> snd (shl_align mx ex ex') = ex'.
Proof.
  intros H. unfold shl_align.
  destruct (ex' - ex)%Z as [ | d | d] eqn:Ed; cbn [snd]; lia.
Qed.

(** The two aligned mantissas of an addition or a subtraction. *)
Lemma aligned_values (mx my : positive) (ex ey : Z) :
  val (Z.pos (fst (shl_align mx ex (Z.min ex ey)))) (Z.min ex ey)
  == val (Z.pos mx) ex /\
  val (Z.pos (fst (shl_align my ey (Z.min ex ey)))) (Z.min ex ey)
  == val (Z.pos my) ey.
Proof.
  split.
  - destruct (shl_align_val mx ex (Z.min ex ey)) as [H _].
    rewrite shl_align_snd in H by lia. exact H.
  - destruct (shl_align_val my ey (Z.min ex ey)) as [H _].
    rewrite shl_align_snd in H by lia. exact H.
Qed.

Lemma b64_add_lower (x y : spec_float) (j : Z) :
  b64_nonneg x -> b64_nonneg y -> (-1074 <= j)%Z ->
  2 ^ j <= to_Q x + to_Q y ->
  fadd x y = S754_infinity false \/
  (b64_pos (fadd x y) /\ 2 ^ j <= to_Q (fadd x y)).
Proof.
  intros Hx Hy Hj Hlow. pose proof (pow2_pos j) as Hp.
  destruct x as [sx | sx | | [ | ] mx ex]; try contradiction;
    destruct y as [sy | sy | | [ | ] my ey]; try contradiction;
    cbn [fadd b64_float SFadd cond_Zopp b64_pos to_Q] in *.
  - exfalso. lra.
  - right. split; [exact I | lra].
  - right. split; [exact I | lra].
  - destruct (aligned_values mx my ex ey) as [Ha Hb].
    set (a := fst (shl_align mx ex (Z.min ex ey))) in *.
    set (b := fst (shl_align my ey (Z.min ex ey))) in *.
    change (Z.pos a + Z.pos b)%Z with (Z.pos (a + b)).
    cbn [binary_normalize].
    pose proof (binary_round_shape false (a + b) (Z.min ex ey)) as Hs.
    pose proof (binary_round_lower false (a + b) (Z.min ex ey) j Hj) as Hl.
    assert (Hv : val (Z.pos (a + b)) (Z.min ex ey)
                 == val (Z.pos mx) ex + val (Z.pos my) ey).
    { change (Z.pos (a + b)) with (Z.pos a + Z.pos b)%Z.
      rewrite val_add, Ha, Hb. reflexivity. }
    rewrite Hv in Hl. specialize (Hl Hlow).
    destruct (binary_round prec emax false (a + b) (Z.min ex ey))
      as [s | s | | s m e]; try contradiction.
    + left. now subst s.
    + right. destruct Hs as [-> _]. split; [exact I | exact Hl].
Qed.

Lemma b64_add_between (x y : spec_float) (t et j : Z) :
  b64_nonneg x -> b64_nonneg y ->
  (Z.min (b64_exponent x) (b64_exponent y) <= 971)%Z ->
  (0 < t < 2 ^ 53)%Z -> (-1074 <= et)%Z -> val t et < 2 ^ 1024 ->
  (-1074 <= j)%Z ->
  2 ^ j <= to_Q x + to_Q y -> to_Q x + to_Q y < val t et ->
  b64_pos (fadd x y) /\ 2 ^ j <= to_Q (fadd x y) <= val t et.
Proof.
  intros Hx Hy Hexp Ht Het Htop Hj Hlow Hup.
  destruct (b64_add_lower x y j Hx Hy Hj Hlow) as [Hinf | [Hpos Hl]].
  - exfalso.
    destruct x as [sx | sx | | [ | ] mx ex]; try contradiction;
      destruct y as [sy | sy | | [ | ] my ey]; try contradiction;
      cbn [fadd b64_float SFadd cond_Zopp b64_exponent to_Q] in *;
      try discriminate Hinf.
    + destruct sx, sy; discriminate Hinf.
    + destruct (aligned_values mx my ex ey) as [Ha Hb].
      set (a := fst (shl_align mx ex (Z.min ex ey))) in *.
      set (b := fst (shl_align my ey (Z.min ex ey))) in *.
      change (Z.pos a + Z.pos b)%Z with (Z.pos (a + b)) in Hinf.
      cbn [binary_normalize] in Hinf.
      pose proof (binary_round_upper false (a + b) (Z.min ex ey) t et Ht Het)
        as Hu.
      assert (Hv : val (Z.pos (a + b)) (Z.min ex ey)
                   == val (Z.pos mx) ex + val (Z.pos my) ey).
      { change (Z.pos (a + b)) with (Z.pos a + Z.pos b)%Z.
        rewrite val_add, Ha, Hb. reflexivity. }
      rewrite Hv in Hu. specialize (Hu Hup). rewrite Hinf in Hu.
      apply Hu. split; [exact Hexp | exact Htop].
  - split; [exact Hpos | ]. split; [exact Hl | ].
    destruct x as [sx | sx | | [ | ] mx ex]; try contradiction;
      destruct y as [sy | sy | | [ | ] my ey]; try contradiction;
      cbn [fadd b64_float SFadd cond_Zopp b64_exponent to_Q] in *;
      try lra.
    + destruct sx, sy; cbn [to_Q]; lra.
    + destruct (aligned_values mx my ex ey) as [Ha Hb].
      set (a := fst (shl_align mx ex (Z.min ex ey))) in *.
      set (b := fst (shl_align my ey (Z.min ex ey))) in *.
      change (Z.pos a + Z.pos b)%Z with (Z.pos (a + b)) in *.
      cbn [binary_normalize] in *.
      pose proof (binary_round_upper false (a + b) (Z.min ex ey) t et Ht Het)
        as Hu.
      assert (Hv : val (Z.pos (a + b)) (Z.min ex ey)
                   == val (Z.pos mx) ex + val (Z.pos my) ey).
      { change (Z.pos (a + b)) with (Z.pos a + Z.pos b)%Z.
        rewrite val_add, Ha, Hb. reflexivity. }
      rewrite Hv in Hu. specialize (Hu Hup).
      destruct (binary_round prec emax false (a + b) (Z.min ex ey))
        as [s | s | | [ | ] m e]; try contradiction.
      cbn [to_Q]. exact Hu.
Qed.

(** The aligned difference of two positive finite floats. *)
Lemma aligned_difference (mx my : positive) (ex ey : Z) :
  val (Z.pos (fst (shl_align mx ex (Z.min ex ey))) -
       Z.pos (fst (shl_align my ey (Z.min ex ey)))) (Z.min ex ey)
  == val (Z.pos mx) ex - val (Z.pos my) ey.
Proof.
  destruct (aligned_values mx my ex ey) as [Ha Hb].
  unfold Z.sub. rewrite val_add, val_opp, Ha, Hb. reflexivity.
Qed.

Lemma b64_sub_between (x y : spec_float) (t et j : Z) :
  b64_nonneg x -> b64_nonneg y ->
  (Z.min (b64_exponent x) (b64_exponent y) <= 971)%Z ->
  (0 < t < 2 ^ 53)%Z -> (-1074 <= et)%Z -> val t et < 2 ^ 1024 ->
  (-1074 <= j)%Z ->
  2 ^ j <= to_Q x - to_Q y -> to_Q x - to_Q y < val t et ->
  b64_pos (fsub x y) /\ 2 ^ j <= to_Q (fsub x y) <= val t et.
Proof.
  intros Hx Hy Hexp Ht Het Htop Hj Hlow Hup. pose proof (pow2_pos j) as Hp.
  destruct x as [sx | sx | | [ | ] mx ex]; try contradiction;
    destruct y as [sy | sy | | [ | ] my ey]; try contradiction;
    cbn [fsub b64_float SFsub cond_Zopp b64_exponent b64_pos to_Q] in *.
  - exfalso. lra.
  - exfalso. pose proof (val_pos (Z.pos my) ey ltac:(lia)) as Hy0.
    change (inject_Z (Z.pos my) * 2 ^ ey) with (val (Z.pos my) ey) in Hlow.
    lra.
  - split; [exact I | lra].
  - pose proof (aligned_difference mx my ex ey) as Hd.
    set (z := (Z.pos (fst (shl_align mx ex (Z.min ex ey))) -
               Z.pos (fst (shl_align my ey (Z.min ex ey))))%Z) in *.
    change (inject_Z (Z.pos mx) * 2 ^ ex) with (val (Z.pos mx) ex) in *.
    change (inject_Z (Z.pos my) * 2 ^ ey) with (val (Z.pos my) ey) in *.
    rewrite <- Hd in Hlow, Hup.
    assert (Hz : (0 < z)%Z).
    { apply (val_lt_inv 0 z (Z.min ex ey)). rewrite val_0. lra. }
    destruct z as [ | p | p]; try lia. cbn [binary_normalize].
    pose proof (binary_round_shape false p (Z.min ex ey)) as Hs.
    pose proof (binary_round_upper false p (Z.min ex ey) t et Ht Het Hup)
      as Hu.
    pose proof (binary_round_lower false p (Z.min ex ey) j Hj Hlow) as Hl.
    destruct (binary_round prec emax false p (Z.min ex ey))
      as [s | s | | s m e]; try contradiction.
    + exfalso. apply Hu. split; [exact Hexp | exact Htop].
    + destruct Hs as [-> _]. cbn [to_Q]. split; [exact I | ].
      split; [exact Hl | exact Hu].
Qed.

Lemma b64_sub_abs (x y : spec_float) (t et : Z) :
  b64_nonneg x -> b64_nonneg y ->
  (Z.min (b64_exponent x) (b64_exponent y) <= 971)%Z ->
  (0 < t < 2 ^ 53)%Z -> (-1074 <= et)%Z -> val t et < 2 ^ 1024 ->
  - val t et < to_Q x - to_Q y -> to_Q x - to_Q y < val t et ->
  b64_nonneg (fabs (fsub x y)) /\ to_Q (fabs (fsub x y)) <= val t et.
Proof.
  intros Hx Hy Hexp Ht Het Htop Hlow Hup.
  pose proof (val_pos t et ltac:(lia)) as HT.
  destruct x as [sx | sx | | [ | ] mx ex]; try contradiction;
    destruct y as [sy | sy | | [ | ] my ey]; try contradiction;
    cbn [fsub fabs b64_float SFsub cond_Zopp b64_exponent to_Q negb] in *.
  - destruct sx, sy; cbn; split; try exact I; lra.
  - cbn [SFabs b64_nonneg to_Q]. split; [exact I | lra].
  - cbn [SFabs b64_nonneg to_Q]. split; [exact I | lra].
  - pose proof (aligned_difference mx my ex ey) as Hd.
    set (z := (Z.pos (fst (shl_align mx ex (Z.min ex ey))) -
               Z.pos (fst (shl_align my ey (Z.min ex ey))))%Z) in *.
    change (inject_Z (Z.pos mx) * 2 ^ ex) with (val (Z.pos mx) ex) in *.
    change (inject_Z (Z.pos my) * 2 ^ ey) with (val (Z.pos my) ey) in *.
    rewrite <- Hd in Hlow, Hup.
    destruct z as [ | p | p]; cbn [binary_normalize].
    + cbn. split; [exact I | lra].
    + pose proof (binary_round_shape false p (Z.min ex ey)) as Hs.
      pose proof (binary_round_upper false p (Z.min ex ey) t et Ht Het Hup)
        as Hu.
      destruct (binary_round prec emax false p (Z.min ex ey))
        as [s | s | | s m e]; try contradiction;
        cbn [SFabs b64_nonneg to_Q].
      * split; [exact I | lra].
      * exfalso. apply Hu. split; [exact Hexp | exact Htop].
      * split; [exact I | exact Hu].
    + assert (Hup' : val (Z.pos p) (Z.min ex ey) < val t et).
      { change (Z.neg p) with (- Z.pos p)%Z in Hlow.
        rewrite val_opp in Hlow. lra. }
      pose proof (binary_round_shape true p (Z.min ex ey)) as Hs.
      pose proof (binary_round_upper true p (Z.min ex ey) t et Ht Het Hup')
        as Hu.
      destruct (binary_round prec emax true p (Z.min ex ey))
        as [s | s | | s m e]; try contradiction;
        cbn [SFabs b64_nonneg to_Q].
      * split; [exact I | lra].
      * exfalso. apply Hu. split; [exact Hexp | exact Htop].
      * split; [exact I | exact Hu].
Qed.

(** A float whose value is at most that of a positive finite one, or
    [-inf], minus that float is not above zero. *)
Lemma b64_sub_nonpos (x c : spec_float) :
  b64_pos c ->
  x = S754_infinity true \/ (is_finite x = true /\ to_Q x <= to_Q c) ->
  b64_nonpos (fsub x c).
Proof.
  intros Hc Hx.
  destruct c as [sc | sc | | [ | ] mc ec]; try contradiction.
  destruct x as [sx | sx | | sx mx ex];
    cbn [fsub b64_float SFsub negb b64_nonpos].
  - exact I.
  - destruct Hx as [[= ->] | [Hfin _]]; [exact I | discriminate Hfin].
  - destruct Hx as [Hx | [Hfin _]]; [discriminate Hx | discriminate Hfin].
  - destruct Hx as [Hx | [_ Hle]]; [discriminate Hx | ].
    destruct (aligned_values mx mc ex ec) as [Ha Hb].
    set (a := fst (shl_align mx ex (Z.min ex ec))) in *.
    set (b := fst (shl_align mc ec (Z.min ex ec))) in *.
    cbn [cond_Zopp].
    assert (Hz : (cond_Zopp sx (Z.pos a) - Z.pos b <= 0)%Z).
    { destruct sx; cbn [cond_Zopp]; [lia | ].
      cbn [to_Q] in Hle.
      change (inject_Z (Z.pos mx) * 2 ^ ex) with (val (Z.pos mx) ex) in Hle.
      change (inject_Z (Z.pos mc) * 2 ^ ec) with (val (Z.pos mc) ec) in Hle.
      rewrite <- Ha, <- Hb in Hle. apply val_le_inv in Hle. lia. }
    destruct (cond_Zopp sx (Z.pos a) - Z.pos b)%Z as [ | p | p];
      cbn [binary_normalize b64_nonpos]; [exact I | lia | ].
    pose proof (binary_round_shape true p (Z.min ex ec)) as Hs.
    destruct (binary_round prec emax true p (Z.min ex ec))
      as [s | s | | s m e]; cbn [b64_nonpos].
    + exact I.
    + now subst s.
    + contradiction.
    + now destruct Hs as [-> _].
Qed.

(** ** Division *)

Lemma div_core_spec (m1 m2 : positive) (e1 e2 : Z) :
  let '(q, e', _) :=
    SFdiv_core_binary prec emax (Z.pos m1) e1 (Z.pos m2) e2 in
  (0 <= q)%Z /\
  val q e' * val (Z.pos m2) e2 <= val (Z.pos m1) e1 /\
  (e' <= SpecFloat.fexp prec emax
           (Zdigits2 (Z.pos m1) + e1 - (Zdigits2 (Z.pos m2) + e2)))%Z.
Proof.
  unfold SFdiv_core_binary.
  set (D := (Zdigits2 (Z.pos m1) + e1 - (Zdigits2 (Z.pos m2) + e2))%Z).
  set (e' := Z.min (SpecFloat.fexp prec emax D) (e1 - e2)).
  set (s := (e1 - e2 - e')%Z).
  assert (Hs : (0 <= s)%Z) by (unfold s, e'; lia).
  set (m' := match s with
             | 0%Z => Z.pos m1
             | Z.pos _ => Z.shiftl (Z.pos m1) s
             | Z.neg _ => 0%Z
             end).
  assert (Hm' : m' = (Z.pos m1 * 2 ^ s)%Z).
  { unfold m'. destruct s as [ | p | p] eqn:Es; [ | | lia].
    - rewrite Z.mul_1_r. reflexivity.
    - apply Z.shiftl_mul_pow2. lia. }
  pose proof (Z_div_mod m' (Z.pos m2) ltac:(lia)) as Hdm.
  destruct (Z.div_eucl m' (Z.pos m2)) as [q r].
  destruct Hdm as [Heq Hr].
  assert (Hp : (0 < 2 ^ s)%Z) by (apply Z.pow_pos_nonneg; lia).
  assert (Hq : (0 <= q)%Z) by nia.
  split; [exact Hq | ]. split; [ | unfold e'; lia].
  rewrite <- val_mul.
  assert (Hle : (q * Z.pos m2 <= Z.pos m1 * 2 ^ s)%Z) by lia.
  apply (val_le _ _ (e' + e2)) in Hle.
  rewrite val_scale in Hle by exact Hs.
  replace (e' + e2 + s)%Z with e1 in Hle by (unfold s; lia).
  exact Hle.
Qed.

Lemma b64_div_upper (x y : spec_float) (t et : Z) :
  b64_pos x -> b64_pos y ->
  (0 < t < 2 ^ 53)%Z -> (-1074 <= et)%Z -> val t et < 2 ^ 1024 ->
  to_Q x < to_Q y * val t et ->
  b64_nonneg (fdiv x y) /\ to_Q (fdiv x y) <= val t et.
Proof.
  intros Hx Hy Ht Het Htop Hv.
  destruct x as [sx | sx | | [ | ] mx ex]; try contradiction.
  destruct y as [sy | sy | | [ | ] my ey]; try contradiction.
  cbn [fdiv b64_float SFdiv xorb to_Q] in *.
  change (inject_Z (Z.pos mx) * 2 ^ ex) with (val (Z.pos mx) ex) in Hv.
  change (inject_Z (Z.pos my) * 2 ^ ey) with (val (Z.pos my) ey) in Hv.
  pose proof (div_core_spec mx my ex ey) as Hcore.
  destruct (SFdiv_core_binary prec emax (Z.pos mx) ex (Z.pos my) ey)
    as [[q e'] l].
  destruct Hcore as (Hq & Hle & He').
  pose proof (val_pos (Z.pos my) ey ltac:(lia)) as Hy0.
  pose proof (val_pos t et ltac:(lia)) as HT.
  assert (Hqv : val q e' < val t et).
  { apply (Qmult_lt_r _ _ (val (Z.pos my) ey) Hy0). lra. }
  (* the binade of the quotient *)
  pose proof (val_digits_ge (Z.pos mx) ex ltac:(lia)) as Hx1.
  pose proof (val_digits_lt (Z.pos my) ey ltac:(lia)) as Hy1.
  pose proof (val_digits_lt t et ltac:(lia)) as Ht1.
  assert (Hdt : (Zdigits2 t <= 53)%Z) by (apply Zdigits2_le; lia).
  set (d1 := Zdigits2 (Z.pos mx)) in *. set (d2 := Zdigits2 (Z.pos my)) in *.
  assert (HD : forall k : Z,
             val t et < 2 ^ k -> (d1 - 1 + ex < d2 + ey + k)%Z).
  { intros k Hk. apply pow2_lt_inv.
    assert (H : 2 ^ (d1 - 1 + ex) < 2 ^ (d2 + ey) * 2 ^ k).
    { eapply Qle_lt_trans; [exact Hx1 | ].
      eapply Qlt_trans; [exact Hv | ].
      apply Qmult_lt_compat_nonneg; split; lra. }
    rewrite <- pow2_add in H. exact H. }
  pose proof (HD _ Ht1) as HD1. pose proof (HD _ Htop) as HD2.
  rewrite fexp_value in He'.
  assert (Het' : (e' <= et)%Z) by lia.
  pose proof (val_grid q e' t et Het' Hqv) as Hgrid.
  pose proof (binary_round_aux_shape false q e' l Hq) as Hs.
  pose proof (binary_round_aux_upper false q e' l t et Hq Ht Het
                (or_introl Hgrid)) as Hu.
  destruct (binary_round_aux prec emax false q e' l) as [s | s | | s m e];
    cbn [b64_nonneg to_Q].
  - split; [exact I | lra].
  - exfalso. apply Hu. split; [lia | exact Htop].
  - contradiction.
  - destruct Hs as [-> _]. split; [exact I | exact Hu].
Qed.

(** The quotient of a float that is not above zero by a positive finite
    float is not above zero, and is no NaN. *)
Lemma b64_nonpos_div (d c : spec_float) :
  b64_nonpos d -> b64_pos c -> b64_nonpos (fdiv d c).
Proof.
  intros Hd Hc.
  destruct c as [sc | sc | | [ | ] mc ec]; try contradiction.
  destruct d as [sd | [ | ] | | [ | ] md ed]; try contradiction;
    cbn [fdiv b64_float SFdiv xorb b64_nonpos]; try exact I.
  pose proof (div_core_spec md mc ed ec) as Hcore.
  destruct (SFdiv_core_binary prec emax (Z.pos md) ed (Z.pos mc) ec)
    as [[q e'] l].
  destruct Hcore as (Hq & _).
  pose proof (binary_round_aux_shape true q e' l Hq) as Hs.
  destruct (binary_round_aux prec emax true q e' l) as [s | s | | s m e];
    cbn [b64_nonpos].
  - exact I.
  - now subst s.
  - contradiction.
  - now destruct Hs as [-> _].
Qed.

(** ** Conversion of an integer *)

Lemma b64_of_int_upper (n t et : Z) :
  (0 <= n)%Z ->
  (0 < t < 2 ^ 53)%Z -> (-1074 <= et)%Z -> val t et < 2 ^ 1024 ->
  inject_Z n < val t et ->
  b64_nonneg (of_int n) /\ to_Q (of_int n) <= val t et.
Proof.
  intros Hn Ht Het Htop Hv.
  pose proof (val_pos t et ltac:(lia)) as HT.
  cbn [of_int b64_float]. unfold b64_of_int.
  destruct n as [ | p | p]; cbn [binary_normalize]; [ | | lia].
  - cbn. split; [exact I | lra].
  - assert (Hv' : val (Z.pos p) 0 < val t et).
    { unfold val at 1. change (2 ^ 0) with 1. lra. }
    pose proof (binary_round_shape false p 0) as Hs.
    pose proof (binary_round_upper false p 0 t et Ht Het Hv') as Hu.
    destruct (binary_round prec emax false p 0) as [s | s | | s m e];
      cbn [b64_nonneg to_Q].
    + split; [exact I | lra].
    + exfalso. apply Hu. split; [lia | exact Htop].
    + contradiction.
    + destruct Hs as [-> _]. split; [exact I | exact Hu].
Qed.

(** ** The final clamp *)

Lemma b64_clamp_nonpos (d : spec_float) :
  b64_nonpos d ->
  py_max (of_int 0) (py_min (of_int 1) d) = S754_zero false.
Proof.
  destruct d as [[ | ] | [ | ] | | [ | ] m e]; cbn [b64_nonpos];
    try contradiction; intros _; reflexivity.
Qed.

End OpFacts.

(** The factors of [calculate_difficulty_score] in binary64: each is a
    positive finite float on the domain of the inputs. *)
Module ScorerB64.
Import Binary64 RoundFacts ValFacts RoundBounds OpFacts.
Local Open Scope Q_scope.

Ltac closed := vm_compute; first [exact I | reflexivity | discriminate].

Lemma within_nonneg (hi : Q) (x : spec_float) :
  b64_within 0 hi x -> b64_nonneg x /\ 0 <= to_Q x <= hi.
Proof.
  intros [Hfin [H0 Hhi]]. split; [now apply finite_nonneg | ]. split; assumption.
Qed.

Lemma mult_le_nonneg (k a b : Q) : 0 <= k -> a <= b -> k * a <= k * b.
Proof.
  intros Hk Hab. rewrite !(Qmult_comm k). now apply Qmult_le_compat_r.
Qed.

(** A factor [c0 + c1 * x], with positive constants and a finite [x] that
    is not negative, is a positive finite float. *)
Lemma affine_factor_pos (c0 c1 x : spec_float) :
  b64_pos c0 -> b64_pos c1 ->
  (b64_exponent c0 <= 971)%Z -> (b64_exponent c1 <= -52)%Z ->
  2 ^ (-1) <= to_Q c0 ->
  to_Q c1 * inject_Z b64_max < val 5 1021 ->
  to_Q c0 + val 5 1021 < val 6 1021 ->
  b64_within 0 (inject_Z b64_max) x ->
  b64_pos (fadd c0 (fmul c1 x)) /\ b64_pos (fadd c0 (fmul x c1)).
Proof.
  intros Hc0 Hc1 He0 He1 Hlow Hmul Hadd Hx.
  destruct (within_nonneg _ _ Hx) as [Hxn [Hx0 Hxmax]].
  pose proof (b64_pos_value c1 Hc1) as Hc1v.
  pose proof (b64_pos_nonneg c0 Hc0) as Hc0n.
  pose proof (b64_pos_nonneg c1 Hc1) as Hc1n.
  assert (Htop5 : val 5 1021 < 2 ^ 1024) by closed.
  assert (Htop6 : val 6 1021 < 2 ^ 1024) by closed.
  assert (Hmaxtop : inject_Z b64_max < 2 ^ 1024) by closed.
  assert (Hex : (b64_exponent x < 1024)%Z).
  { apply b64_exponent_lt; [exact Hxn | lra | lia]. }
  assert (Hprod : to_Q c1 * to_Q x < val 5 1021).
  { pose proof (mult_le_nonneg (to_Q c1) _ _ ltac:(lra) Hxmax). lra. }
  assert (H5 : (0 < 5 < 2 ^ 53)%Z) by (split; reflexivity).
  assert (H6 : (0 < 6 < 2 ^ 53)%Z) by (split; reflexivity).
  assert (Hm1 : b64_nonneg (fmul c1 x) /\ to_Q (fmul c1 x) <= val 5 1021).
  { apply b64_mul_upper; try assumption; lia. }
  assert (Hm2 : b64_nonneg (fmul x c1) /\ to_Q (fmul x c1) <= val 5 1021).
  { apply b64_mul_upper; try assumption; try lia.
    rewrite Qmult_comm. exact Hprod. }
  destruct Hm1 as [Hn1 Hv1]. destruct Hm2 as [Hn2 Hv2].
  pose proof (b64_nonneg_value _ Hn1) as Hp1.
  pose proof (b64_nonneg_value _ Hn2) as Hp2.
  split.
  - apply (b64_add_between c0 (fmul c1 x) 6 1021 (-1)); try assumption;
      try lia; lra.
  - apply (b64_add_between c0 (fmul x c1) 6 1021 (-1)); try assumption;
      try lia; lra.
Qed.

(** [0.7 + 0.6 * position_complexity]. *)
Lemma complexity_factor_pos (position_complexity : spec_float) :
  b64_within 0 (inject_Z b64_max) position_complexity ->
  b64_pos (fadd (dec 7 10) (fmul (dec 6 10) position_complexity)).
Proof.
  intros H.
  refine (proj1 (affine_factor_pos (dec 7 10) (dec 6 10)
                   position_complexity _ _ _ _ _ _ _ H)); closed.
Qed.

(** [0.9 + position_complexity * 0.5]. *)
Lemma endgame_factor_pos (position_complexity : spec_float) :
  b64_within 0 (inject_Z b64_max) position_complexity ->
  b64_pos (fadd (dec 9 10) (fmul position_complexity (dec 5 10))).
Proof.
  intros H.
  refine (proj2 (affine_factor_pos (dec 9 10) (dec 5 10)
                   position_complexity _ _ _ _ _ _ _ H)); closed.
Qed.

(** [1.0 + depth * 0.03]. *)
Lemma depth_factor_pos (depth : Z) :
  (0 <= depth < b64_max)%Z ->
  b64_pos (fadd (of_int 1) (fmul (of_int depth) (dec 3 100))).
Proof.
  intros [H0 Hmax].
  assert (Hm : val (2 ^ 53 - 1) 971 == inject_Z b64_max) by closed.
  assert (Hv : inject_Z depth < val (2 ^ 53 - 1) 971).
  { rewrite Hm. now rewrite <- Zlt_Qlt. }
  assert (Hr : (0 < 2 ^ 53 - 1 < 2 ^ 53)%Z) by (split; reflexivity).
  assert (Htop : val (2 ^ 53 - 1) 971 < 2 ^ 1024) by closed.
  destruct (b64_of_int_upper depth (2 ^ 53 - 1) 971 H0 Hr ltac:(lia) Htop Hv)
    as [Hn Hle].
  assert (Hw : b64_within 0 (inject_Z b64_max) (of_int depth)).
  { split.
    - destruct (of_int depth) as [s | s | | [ | ] m e]; try contradiction;
        reflexivity.
    - split; [now apply b64_nonneg_value | ]. rewrite <- Hm. exact Hle. }
  refine (proj2 (affine_factor_pos (of_int 1) (dec 3 100) (of_int depth)
                   _ _ _ _ _ _ _ Hw)); closed.
Qed.

(** [1.0 - 0.2 / (1 + 0.05 * times_played)], for [times_played > 0]. *)
Lemma frequency_factor_pos (times_played : spec_float) :
  fgt times_played (of_int 0) = true ->
  b64_pos (fsub (of_int 1)
             (fdiv (dec 2 10)
                (fadd (of_int 1) (fmul (dec 5 100) times_played)))).
Proof.
  intros Hgt.
  set (one := of_int (F:=spec_float) 1).
  set (c02 := dec (F:=spec_float) 2 10).
  set (c005 := dec (F:=spec_float) 5 100).
  assert (Hone : b64_pos one) by closed.
  assert (Hc02 : b64_pos c02) by closed.
  assert (Hc005 : b64_pos c005) by closed.
  assert (Hone_v : to_Q one == 1) by closed.
  assert (Hone_e : (b64_exponent one <= 971)%Z) by closed.
  assert (Hc02_v : to_Q c02 < 1 # 4) by closed.
  assert (Hq4 : val 1 (-2) == 1 # 4) by closed.
  assert (Hq2 : val 1 1 == 2) by closed.
  assert (Htop1 : val 1 1 < 2 ^ 1024) by closed.
  assert (Htop2 : val 1 (-2) < 2 ^ 1024) by closed.
  assert (Hhalf : 2 ^ (-1) == 1 # 2) by closed.
  assert (Hp0 : 2 ^ 0 == 1) by closed.
  assert (H1 : (0 < 1 < 2 ^ 53)%Z) by (split; reflexivity).
  assert (Hinf : b64_pos (fsub one (fdiv c02 (S754_infinity false))))
    by closed.
  (* the product 0.05 * times_played *)
  assert (Hp : fmul c005 times_played = S754_infinity false \/
               b64_nonneg (fmul c005 times_played)).
  { assert (Ht : times_played = S754_infinity false \/ b64_pos times_played).
    { destruct times_played as [[ | ] | [ | ] | | [ | ] m e];
        first [left; reflexivity | right; exact I
              | exfalso; cbv in Hgt; discriminate Hgt]. }
    destruct Ht as [-> | Ht]; [left; reflexivity | ].
    apply b64_mul_pos_shape; [exact Hc005 | exact Ht]. }
  (* the divisor 1 + 0.05 * times_played *)
  assert (Hx : fadd one (fmul c005 times_played) = S754_infinity false \/
               (b64_pos (fadd one (fmul c005 times_played)) /\
                1 <= to_Q (fadd one (fmul c005 times_played)))).
  { destruct Hp as [-> | Hp]; [left; reflexivity | ].
    pose proof (b64_nonneg_value _ Hp) as Hpv.
    assert (Hlow : 2 ^ 0 <= to_Q one + to_Q (fmul c005 times_played))
      by lra.
    destruct (b64_add_lower one (fmul c005 times_played) 0
                (b64_pos_nonneg _ Hone) Hp ltac:(lia) Hlow)
      as [H | [H H']].
    - left. exact H.
    - right. split; [exact H | lra]. }
  destruct Hx as [-> | [Hxpos Hxv]]; [exact Hinf | ].
  set (x := fadd one (fmul c005 times_played)) in *.
  destruct (b64_div_upper c02 x 1 (-2)) as [Hqn Hqv]; try assumption;
    try lia.
  { rewrite Hq4. lra. }
  pose proof (b64_nonneg_value _ Hqn) as Hq0.
  apply (b64_sub_between one (fdiv c02 x) 1 1 (-1)); try assumption;
    try lia; lra.
Qed.

(** [0.8 + 0.2 * (1.0 - abs(win_rate - 0.5) * 0.4)]. *)
Lemma win_rate_factor_pos (win_rate : spec_float) :
  b64_within 0 1 win_rate ->
  b64_pos (fadd (dec 8 10)
             (fmul (dec 2 10)
                (fsub (of_int 1)
                   (fmul (fabs (fsub win_rate (dec 5 10))) (dec 4 10))))).
Proof.
  intros Hwr. destruct (within_nonneg _ _ Hwr) as [Hn [H0 H1]].
  set (one := of_int (F:=spec_float) 1).
  set (c02 := dec (F:=spec_float) 2 10).
  set (c04 := dec (F:=spec_float) 4 10).
  set (c05 := dec (F:=spec_float) 5 10).
  set (c08 := dec (F:=spec_float) 8 10).
  assert (Hone : b64_pos one) by closed.
  assert (Hc02 : b64_pos c02) by closed.
  assert (Hc04 : b64_pos c04) by closed.
  assert (Hc05 : b64_pos c05) by closed.
  assert (Hc08 : b64_pos c08) by closed.
  assert (Hone_v : to_Q one == 1) by closed.
  assert (Hc05_v : to_Q c05 == 1 # 2) by closed.
  assert (Hc04_v : to_Q c04 < 1 # 2) by closed.
  assert (Hc02_v : to_Q c02 < 1 # 4) by closed.
  assert (Hc08_v : 1 # 2 <= to_Q c08 /\ to_Q c08 < 1) by (split; closed).
  assert (Hone_e : b64_exponent one = (-52)%Z) by closed.
  assert (Hc02_e : b64_exponent c02 = (-55)%Z) by closed.
  assert (Hc04_e : b64_exponent c04 = (-54)%Z) by closed.
  assert (Hc05_e : b64_exponent c05 = (-53)%Z) by closed.
  assert (Hc08_e : b64_exponent c08 = (-53)%Z) by closed.
  assert (Hv0 : val 1 0 == 1) by closed.
  assert (Hvm1 : val 1 (-1) == 1 # 2) by closed.
  assert (Hv1 : val 1 1 == 2) by closed.
  assert (Htop0 : val 1 0 < 2 ^ 1024) by closed.
  assert (Htopm1 : val 1 (-1) < 2 ^ 1024) by closed.
  assert (Htop1 : val 1 1 < 2 ^ 1024) by closed.
  assert (Hhalf : 2 ^ (-1) == 1 # 2) by closed.
  assert (Hp1 : 2 ^ 1 == 2) by closed.
  assert (Hp2 : 2 ^ 2 == 4) by closed.
  assert (Hr : (0 < 1 < 2 ^ 53)%Z) by (split; reflexivity).
  pose proof (b64_pos_nonneg _ Hone) as Hone_n.
  pose proof (b64_pos_nonneg _ Hc02) as Hc02_n.
  pose proof (b64_pos_nonneg _ Hc04) as Hc04_n.
  pose proof (b64_pos_nonneg _ Hc05) as Hc05_n.
  pose proof (b64_pos_nonneg _ Hc08) as Hc08_n.
  pose proof (b64_pos_value _ Hc04) as Hc04_0.
  pose proof (b64_pos_value _ Hc02) as Hc02_0.
  (* abs(win_rate - 0.5) *)
  destruct (b64_sub_abs win_rate c05 1 0) as [Htn Htv]; try assumption;
    try lia; try lra.
  set (t := fabs (fsub win_rate c05)) in *.
  pose proof (b64_nonneg_value _ Htn) as Ht0.
  assert (Hte : (b64_exponent t < 1)%Z).
  { apply b64_exponent_lt; [exact Htn | lra | lia]. }
  (* ... * 0.4 *)
  destruct (b64_mul_upper t c04 1 (-1)) as [Han Hav]; try assumption;
    try lia.
  { pose proof (Qmult_le_compat_r (to_Q t) 1 (to_Q c04) ltac:(lra)
                  ltac:(lra)). lra. }
  set (a := fmul t c04) in *.
  pose proof (b64_nonneg_value _ Han) as Ha0.
  (* 1.0 - ... *)
  destruct (b64_sub_between one a 1 1 (-1)) as [Hwp [Hwl Hwu]];
    try assumption; try lia; try lra.
  set (w := fsub one a) in *.
  assert (Hwe : (b64_exponent w < 2)%Z).
  { apply b64_exponent_lt; [apply b64_pos_nonneg; exact Hwp | lra | lia]. }
  (* 0.2 * ... *)
  destruct (b64_mul_upper c02 w 1 (-1)) as [Hmn Hmv]; try assumption;
    try lia.
  { apply b64_pos_nonneg. exact Hwp. }
  { pose proof (mult_le_nonneg (to_Q c02) (to_Q w) 2 ltac:(lra)
                  ltac:(lra)). lra. }
  set (m := fmul c02 w) in *.
  pose proof (b64_nonneg_value _ Hmn) as Hm0.
  (* 0.8 + ... *)
  apply (b64_add_between c08 m 1 1 (-1)); try assumption; try lia; lra.
Qed.

(** [0.7 + 0.3 * max(0, 1.0 - depth / 10)], up to depth 10. *)
Lemma theory_factor_pos (depth : Z) :
  (0 <= depth <= 10)%Z ->
  b64_pos (fadd (dec 7 10)
             (fmul (dec 3 10)
                (py_max (of_int 0)
                   (fsub (of_int 1) (fdiv (of_int depth) (of_int 10)))))).
Proof.
  intros H.
  assert (Hd : (depth = 0 \/ depth = 1 \/ depth = 2 \/ depth = 3 \/
                depth = 4 \/ depth = 5 \/ depth = 6 \/ depth = 7 \/
                depth = 8 \/ depth = 9 \/ depth = 10)%Z) by lia.
  repeat (destruct Hd as [-> | Hd]; [closed | ]). subst depth. closed.
Qed.

(** Products of a difficulty that is not above zero with factors known
    to be positive and finite. *)
Ltac nonpos_products :=
  repeat match goal with
         | |- b64_nonpos (fmul _ _) => apply b64_nonpos_mul; [ | assumption]
         end;
  assumption.

(** The result [d] of a branch that returns. *)
Ltac returned d :=
  let H := fresh in
  intros H;
  apply (f_equal (fun o => match o with Some x => x | None => d end)) in H;
  cbv beta iota in H; subst d.

(** The phase adjustment keeps a difficulty that is not above zero not
    above zero. *)
Lemma phase_adjustment_nonpos_b64 (difficulty times_played : spec_float)
    (depth : Z) (game_phase : string * spec_float)
    (position_complexity : spec_float) (move_sequence : list string)
    (is_capture is_check : bool) (d' : spec_float) :
  b64_nonpos difficulty ->
  b64_within 0 (inject_Z b64_max) position_complexity ->
  (0 <= depth)%Z ->
  phase_adjustment difficulty times_played depth game_phase
    position_complexity move_sequence is_capture is_check = Some d' ->
  b64_nonpos d'.
Proof.
  intros Hd Hpc Hdepth. destruct game_phase as [phase_name phase_progress].
  unfold phase_adjustment, is_opening_theory.
  assert (H9 : b64_pos (dec 9 10)) by closed.
  assert (H11 : b64_pos (dec 11 10)) by closed.
  assert (H115 : b64_pos (dec 115 100)) by closed.
  assert (H12 : b64_pos (dec 12 10)) by closed.
  pose proof (endgame_factor_pos _ Hpc) as He.
  set (fe := fadd (dec 9 10) (fmul position_complexity (dec 5 10))) in *.
  clearbody fe.
  set (c9 := dec 9 10) in *. set (c11 := dec 11 10) in *.
  set (c115 := dec 115 100) in *. set (c12 := dec 12 10) in *.
  clearbody c9 c11 c115 c12.
  destruct (String.eqb phase_name "opening").
  { destruct (depth <=? 10)%Z eqn:E; cbv beta iota zeta;
      [ | returned d'; exact Hd].
    apply Z.leb_le in E.
    assert (Ht : b64_pos (fadd (dec 7 10)
                            (fmul (dec 3 10)
                               (py_max (of_int 0)
                                  (fsub (of_int 1)
                                     (fdiv (of_int depth) (of_int 10)))))))
      by (apply theory_factor_pos; lia).
    set (ft := fadd (dec 7 10) (fmul (dec 3 10) _)) in *. clearbody ft.
    destruct (fgt times_played (of_int 10)); returned d'; nonpos_products. }
  cbv zeta.
  destruct (String.eqb phase_name "middlegame").
  { destruct (is_capture || is_check); returned d'; nonpos_products. }
  destruct (String.eqb phase_name "endgame"); [ | returned d'; exact Hd].
  destruct (fgt phase_progress (dec 7 10)); [ | returned d'; exact Hd].
  destruct (Py.last_item move_sequence) as [last_move | ]; [ | discriminate].
  destruct (Py.count_alpha last_move <=? 3)%Z; returned d';
    nonpos_products.
Qed.

(** Everything after the phase adjustment turns a difficulty that is not
    above zero into [+0.0]. *)
Lemma common_adjustment_zero_b64 (difficulty times_played win_rate : spec_float)
    (depth : Z) (has_children : bool) (position_complexity : spec_float)
    (is_capture is_check : bool) :
  b64_nonpos difficulty ->
  b64_within 0 (inject_Z b64_max) position_complexity ->
  b64_within 0 1 win_rate ->
  (0 <= depth < b64_max)%Z ->
  common_adjustment difficulty times_played win_rate depth has_children
    position_complexity is_capture is_check = S754_zero false.
Proof.
  intros Hd Hpc Hwr Hdepth. unfold common_adjustment. cbv zeta.
  apply b64_clamp_nonpos.
  pose proof (complexity_factor_pos _ Hpc) as H1.
  pose proof (depth_factor_pos _ Hdepth) as H2.
  pose proof (frequency_factor_pos times_played) as H3.
  pose proof (win_rate_factor_pos _ Hwr) as H4.
  assert (H105 : b64_pos (dec 105 100)) by closed.
  assert (H11 : b64_pos (dec 11 10)) by closed.
  assert (H95 : b64_pos (dec 95 100)) by closed.
  set (f1 := fadd (dec 7 10) (fmul (dec 6 10) position_complexity)) in *.
  set (f2 := fadd (of_int 1) (fmul (of_int depth) (dec 3 100))) in *.
  set (f3 := fsub (of_int 1) (fdiv (dec 2 10) _)) in *.
  set (f4 := fadd (dec 8 10) (fmul (dec 2 10) _)) in *.
  set (c105 := dec 105 100) in *. set (c11 := dec 11 10) in *.
  set (c95 := dec 95 100) in *. set (zero := of_int 0) in *.
  clearbody f1 f2 f3 f4 c105 c11 c95 zero.
  destruct (fgt times_played zero); [specialize (H3 eq_refl) | clear H3];
    destruct has_children; destruct (is_capture || is_check);
    try destruct (depth >? 2)%Z; nonpos_products.
Qed.

End ScorerB64.

(** C10.  In binary64, which is what the code computes: for a rating of
    at most 800 ([-inf] included), a finite complexity that is not
    negative, a finite winRate in [0,1], a depth from 0 to below the largest
    double (from there on Python's conversion of the [int] raises
    [OverflowError]), every timesPlayed (NaN and the infinities included),
    flag and phase, and a move sequence that is non-empty or a phase that is
    not a late endgame, the scorer returns exactly [+0.0]: the base is not
    above zero, every later factor is a positive finite float, no product is
    a NaN, and the lower clamp fires. *)
Theorem low_rating_scores_zero_in_binary64
    (rating times_played win_rate : spec_float) (depth : Z)
    (has_children : bool) (game_phase : string * spec_float)
    (position_complexity : spec_float) (move_sequence : list string)
    (is_capture is_check : bool) :
  b64_at_most 800 rating ->
  b64_within 0 (inject_Z b64_max) position_complexity ->
  b64_within 0 1 win_rate ->
  (0 <= depth < b64_max)%Z ->
  move_sequence <> [] \/ fst game_phase <> "endgame" \/
    (snd game_phase >? dec 7 10)%F = false ->
  calculate_difficulty_score rating times_played win_rate depth
    has_children game_phase position_complexity move_sequence
    is_capture is_check = Some (S754_zero false).
Proof.
  intros Hrating Hpc Hwr Hdepth Hdomain.
  unfold calculate_difficulty_score.
  assert (Hbase : b64_nonpos
                    (fdiv (fsub rating (of_int 800)) (of_int 2000))).
  { apply OpFacts.b64_nonpos_div; [ | vm_compute; exact I].
    apply OpFacts.b64_sub_nonpos; [vm_compute; exact I | ].
    destruct Hrating as [H | [Hfin Hle]]; [left; exact H | right].
    split; [exact Hfin | ].
    assert (H800 : (Binary64.to_Q (of_int 800) == 800)%Q)
      by (vm_compute; reflexivity).
    rewrite H800. exact Hle. }
  destruct (phase_adjustment _ _ _ _ _ _ _ _) as [d | ] eqn:E.
  - f_equal. apply ScorerB64.common_adjustment_zero_b64; try assumption.
    eapply ScorerB64.phase_adjustment_nonpos_b64; try eassumption. lia.
  - apply phase_adjustment_none in E. destruct E as (Hname & Hlate & Hempty).
    destruct Hdomain as [H | [H | H]];
      [contradiction | contradiction | congruence].
Qed.

(** Witness of C10: rating 750, 12 games, win rate 0.4, depth 4, an
    opening, complexity 0.6, the move sequence [e4; c5], in binary64. *)
Lemma low_rating_scores_zero_in_binary64_witness :
  calculate_difficulty_score (F:=spec_float)
    (of_int 750) (of_int 12) (dec 4 10) 4 true ("opening", dec 3 10)
    (dec 6 10) ["e4"; "c5"] true false = Some (S754_zero false).
Proof.
  apply low_rating_scores_zero_in_binary64.
  - right. split; [reflexivity | vm_compute; discriminate].
  - split; [reflexivity | split; vm_compute; discriminate].
  - split; [reflexivity | split; vm_compute; discriminate].
  - split; [lia | reflexivity].
  - left. discriminate.
Defined.

(** C10, the inputs at which the claim as stated fails.  With an empty move
    sequence in a late endgame the scorer returns no score, in either
    arithmetic; and in binary64 a rating of 800 with the complexity [+inf]
    scores 1.0: the base is 0.0, the complexity factor is [+inf], their
    product is a NaN, and [min(1.0, NaN)] is 1.0. *)
Lemma low_rating_does_not_always_score_zero :
  calculate_difficulty_score (F:=Q)
    700%Q 5%Q (1 # 2)%Q 3 true ("endgame", 1%Q) (1 # 2)%Q [] false false
    = None /\
  calculate_difficulty_score (F:=spec_float)
    (of_int 700) (of_int 5) (dec 5 10) 3 true ("endgame", of_int 1)
    (dec 5 10) [] false false = None /\
  calculate_difficulty_score (F:=spec_float)
    (of_int 800) (of_int 3) (dec 5 10) 3 true ("middlegame", dec 5 10)
    (S754_infinity false) ["e4"] false false = Some (of_int 1) /\
  of_int (F:=spec_float) 1 <> S754_zero false.
Proof.
  split; [reflexivity | ]. split; [vm_compute; reflexivity | ].
  split; [vm_compute; reflexivity | discriminate].
Qed.

(* ================================================================= *)
(** ** The position feature extractor *)

(** Rule 2 of [determine_game_phase] in exact arithmetic: the progress is
    [(40 - total) / 10]; [min(1.0, _)] never lowers it, and nothing keeps
    it from being negative, which it is exactly when the material exceeds
    40. *)
Lemma late_opening_progress (pc : PieceCounts) :
  ((total_pieces pc >=? 12) && (cnt_Q pc >=? 1) && (cnt_q pc >=? 1))%Z
    = false ->
  (30 <= total_material pc)%Z ->
  exists progress : Q,
    determine_game_phase pc = ("opening", progress) /\
    (progress == inject_Z (40 - total_material pc) / 10)%Q /\
    (progress <= 1)%Q /\
    ((progress < 0)%Q <-> (40 < total_material pc)%Z).
Proof.
  intros Hrule1 Hmaterial. unfold determine_game_phase.
  rewrite Hrule1.
  destruct (total_material pc >=? 30)%Z eqn:E;
    [ | rewrite Z.geb_leb, Z.leb_gt in E; lia].
  set (x := (of_int (40 - total_material pc) / of_int 10)%F).
  assert (Hx : (x == inject_Z (40 - total_material pc) * (1 # 10))%Q).
  { unfold x. cbn [fdiv of_int Q_float]. apply ExactFacts.div_by_int. }
  assert (Hle : (inject_Z (40 - total_material pc) <= inject_Z 10)%Q)
    by (rewrite <- Zle_Qle; lia).
  assert (Hsign : (inject_Z (40 - total_material pc) < inject_Z 0)%Q <->
                  (40 < total_material pc)%Z)
    by (rewrite <- Zlt_Qlt; lia).
  change (inject_Z 10) with 10%Q in Hle.
  change (inject_Z 0) with 0%Q in Hsign.
  exists (py_min (of_int 1) x). split; [reflexivity | ].
  change (of_int (F:=Q) 1) with 1%Q.
  assert (Hmin : (py_min 1 x == x)%Q).
  { destruct (ExactFacts.py_min_spec 1%Q x) as [[H ->] | [H ->]];
      [reflexivity | lra]. }
  rewrite Hmin, Hx. unfold Qdiv.
  change (/ 10)%Q with (1 # 10)%Q.
  split; [reflexivity | ]. split; [lra | ].
  rewrite <- Hsign. split; intros H; lra.
Qed.

(** Outside rule 2 the progress is on the scale from 0 to 1: 0.0 under
    rule 1, a value in (0,1] under rules 3 and 4, and 1.0 under rule 5. *)
Lemma progress_in_unit_interval_outside_rule_2 (pc : PieceCounts) :
  ((total_pieces pc >=? 12) && (cnt_Q pc >=? 1) && (cnt_q pc >=? 1))%Z
    = true \/ (total_material pc < 30)%Z ->
  (0 <= snd (determine_game_phase (F:=Q) pc) <= 1)%Q.
Proof.
  unfold determine_game_phase.
  destruct ((total_pieces pc >=? 12) && (cnt_Q pc >=? 1) &&
            (cnt_q pc >=? 1))%Z.
  { intros _. cbn. split; discriminate. }
  intros [H | H]; [discriminate H | ].
  assert (Hdiv : forall n : Z,
            (of_int (F:=Q) n / of_int 10 == inject_Z n * (1 # 10))%F%Q)
    by (intros n; apply ExactFacts.div_by_int).
  assert (Hlow : forall n : Z, (0 <= n)%Z -> (0 <= inject_Z n)%Q)
    by (intros n Hn; change 0%Q with (inject_Z 0); now rewrite <- Zle_Qle).
  assert (Hhigh : forall n : Z, (n <= 10)%Z -> (inject_Z n <= 10)%Q)
    by (intros n Hn; change 10%Q with (inject_Z 10); now rewrite <- Zle_Qle).
  destruct (total_material pc >=? 30)%Z eqn:E30;
    [rewrite Z.geb_leb, Z.leb_le in E30; lia | ].
  destruct (total_material pc >=? 20)%Z eqn:E20.
  { rewrite Z.geb_leb, Z.leb_le in E20. cbn [snd]. rewrite Hdiv.
    pose proof (Hlow (30 - total_material pc)
                  ltac:(lia)).
    pose proof (Hhigh (30 - total_material pc) ltac:(lia)). lra. }
  destruct (total_material pc >=? 10)%Z eqn:E10.
  { rewrite Z.geb_leb, Z.leb_le in E10.
    rewrite Z.geb_leb, Z.leb_gt in E20. cbn [snd]. rewrite Hdiv.
    pose proof (Hlow (20 - total_material pc) ltac:(lia)).
    pose proof (Hhigh (20 - total_material pc) ltac:(lia)). lra. }
  cbn. split; discriminate.
Qed.

(** C5.  The position of the Berlin endgame (no queens, ten pieces, material
    52) falls under rule 2, and [determine_game_phase] returns the phase
    opening with the negative progress -1.2, in exact arithmetic and in
    binary64: only [min(1.0, _)] is applied, the lower bound 0 is not. *)
Theorem berlin_endgame_has_negative_progress :
  let pc :=
    count_pieces
      (parse_fen_from_position
         "r1bk1b1r/ppp2ppp/2p5/4Pn2/8/5N2/PPP2PPP/RNB2RK1 w - - 0 9") in
  pc = mkCounts 7 2 1 2 0 1 7 1 2 2 0 1 /\
  total_pieces pc = 10 /\
  total_material pc = 52 /\
  (exists progress : Q,
     determine_game_phase pc = ("opening", progress) /\
     (progress == - (12 # 10))%Q /\ (progress < 0)%Q) /\
  (exists progress : spec_float,
     determine_game_phase pc = ("opening", progress) /\
     progress = fdiv (of_int (-12)) (of_int 10) /\
     SFltb progress (of_int 0) = true).
Proof.
  cbv zeta. split; [reflexivity | ]. split; [reflexivity | ].
  split; [reflexivity | ]. split.
  - eexists. split; [vm_compute; reflexivity | ].
    split; reflexivity.
  - eexists. split; [vm_compute; reflexivity | ].
    split; vm_compute; reflexivity.
Qed.




(* ================================================================= *)
(** ** The stratifier *)

(** C1.  For every list of scored moves, the stratifier with eight levels
    returns exactly eight tiers; their sizes sum to the length of the input;
    their concatenation in tier order is the input sorted by difficulty, a
    permutation of the input in ascending order; and an empty input yields
    eight empty tiers. *)
Theorem stratifier_partitions_sorted_population
    (moves : list (ScoredMove Q)) :
  exists tiers,
    categorize_moves_by_difficulty moves 8 = Some tiers /\
    List.length tiers = 8%nat /\
    list_sum (map (@List.length _) tiers) = List.length moves /\
    List.concat tiers = sorted_by_difficulty moves /\
    Permutation moves (List.concat tiers) /\
    StronglySorted by_difficulty (List.concat tiers) /\
    (moves = [] -> tiers = repeat [] 8).
Proof.
  destruct (categorize_eight_levels moves) as (tiers & Hrun & Hn & Hcat & He).
  exists tiers. split; [exact Hrun | ]. split; [exact Hn | ].
  split; [ | split; [exact Hcat | ]].
  - rewrite <- length_concat, Hcat. apply sorted_by_difficulty_length.
  - rewrite Hcat. split; [apply sorted_by_difficulty_perm | ].
    split; [apply ExactFacts.sorted_by_difficulty_sorted | exact He].
Qed.

(** C9.  For a population of exactly 17 scored moves the slice sizes
    [int((percentage / 100) * 17)] are [0,1,2,3,3,2,1,0], and the stratifier
    returns tiers of sizes [0,1,2,3,3,2,1,5]: the eighth tier is the last
    five moves of the sorted population, its empty slice extended by the
    five that remain. *)
Theorem seventeen_moves_fill_tiers (moves : list (ScoredMove Q)) :
  List.length moves = 17%nat ->
  map (fun p => moves_in_level (F:=Q) p 17) level_percentages
    = [0; 1; 2; 3; 3; 2; 1; 0]%nat /\
  exists tiers,
    categorize_moves_by_difficulty moves 8 = Some tiers /\
    map (@List.length _) tiers = [0; 1; 2; 3; 3; 2; 1; 5]%nat /\
    nth 7 tiers [] = skipn 12 (sorted_by_difficulty moves).
Proof.
  intros Hlen. split; [reflexivity | ].
  apply seventeen_moves_tiers; [reflexivity | exact Hlen].
Qed.

(** Witness of C9: seventeen moves of pairwise different difficulty. *)
Lemma seventeen_moves_fill_tiers_witness :
  map (fun p => moves_in_level (F:=Q) p 17) level_percentages
    = [0; 1; 2; 3; 3; 2; 1; 0]%nat /\
  exists tiers,
    categorize_moves_by_difficulty (sample_population 17) 8 = Some tiers /\
    map (@List.length _) tiers = [0; 1; 2; 3; 3; 2; 1; 5]%nat /\
    nth 7 tiers [] = skipn 12 (sorted_by_difficulty (sample_population 17)).
Proof.
  apply (seventeen_moves_fill_tiers (sample_population 17)).
  reflexivity.
Defined.

(** The same scenario in binary64. *)
Lemma seventeen_moves_fill_tiers_binary64
    (moves : list (ScoredMove spec_float)) :
  List.length moves = 17%nat ->
  map (fun p => moves_in_level (F:=spec_float) p 17) level_percentages
    = [0; 1; 2; 3; 3; 2; 1; 0]%nat /\
  exists tiers,
    categorize_moves_by_difficulty moves 8 = Some tiers /\
    map (@List.length _) tiers = [0; 1; 2; 3; 3; 2; 1; 5]%nat.
Proof.
  intros Hlen. split; [vm_compute; reflexivity | ].
  destruct (seventeen_moves_tiers moves) as (tiers & H1 & H2 & _);
    [vm_compute; reflexivity | exact Hlen | ].
  exists tiers. split; assumption.
Qed.

(** The rounding of binary64 does not change a slice size: for every
    population of up to 2000 moves, [int((percentage / 100) * total)] is the
    same number in binary64 as in exact arithmetic. *)
Lemma slice_sizes_agree_in_binary64 :
  forallb
    (fun total =>
       forallb
         (fun p => Nat.eqb (moves_in_level (F:=Q) p total)
                           (moves_in_level (F:=spec_float) p total))
         level_percentages)
    (seq 0 2001) = true.
Proof. vm_compute. reflexivity. Qed.

(* ================================================================= *)
(** ** Facts about dicts, trees and the walker *)

Section WalkerFacts.
Context {F : Type} {num : PyFloat F}.

(** The walker is its loop over the node's moves, run in the context of
    the position the node resolves to. *)
Lemma analyze_move_difficulty_eq (node : Node F) current_depth path position
    move_sequence :
  analyze_move_difficulty node current_depth path position move_sequence =
  let context := position_context (resolve_position node position) in
  analyze_items current_depth path (fst context) (snd context) move_sequence
    (moves_of node).
Proof.
  destruct node as [own_pos own_stats [items | ]]; cbn [analyze_move_difficulty].
  - cbv zeta.
    destruct (position_context _) as [game_phase position_complexity].
    cbn [fst snd moves_of node_moves].
    induction items as [ | [move_notation move_data] rest IH];
      cbn [analyze_items]; [reflexivity | ].
    destruct (score_move _ _ _ _ _ _ _); [ | reflexivity].
    destruct (analyze_move_difficulty move_data _ _ _ _); [ | reflexivity].
    rewrite IH. reflexivity.
  - cbv zeta. destruct (position_context _). reflexivity.
Qed.

(** Scoring a move of the tree never raises: the move sequence handed to the
    scorer ends with the move itself. *)
Lemma score_move_total current_depth path game_phase position_complexity
    move_sequence move_notation (move_data : Node F) :
  exists scored,
    score_move current_depth path game_phase position_complexity
      move_sequence move_notation move_data = Some scored /\
    sm_move scored = move_notation /\
    sm_path scored = path /\
    sm_depth scored = current_depth /\
    sm_game_phase scored = fst game_phase /\
    sm_phase_progress scored = snd game_phase /\
    sm_position_complexity scored = position_complexity /\
    sm_move_data scored = move_data /\
    sm_move_sequence scored = move_sequence ++ [move_notation].
Proof.
  unfold score_move.
  destruct (calculate_difficulty_score _ _ _ _ _ _ _ _ _ _) as [d | ] eqn:E.
  - eexists. split; [reflexivity | ]. cbn. repeat split; reflexivity.
  - apply calculate_difficulty_score_none in E.
    destruct E as (_ & _ & E). destruct move_sequence; discriminate E.
Qed.

Lemma analyze_items_total current_depth path game_phase position_complexity
    move_sequence (items : Py.dict (Node F)) :
  Forall (fun kv =>
            forall d p pos s,
              exists recs, analyze_move_difficulty (snd kv) d p pos s = Some recs)
         items ->
  exists recs,
    analyze_items current_depth path game_phase position_complexity
      move_sequence items = Some recs.
Proof.
  induction 1 as [ | [move_notation move_data] rest Hchild _ IH];
    cbn [analyze_items]; [eexists; reflexivity | ].
  destruct (score_move_total current_depth path game_phase
              position_complexity move_sequence move_notation move_data)
    as (scored & -> & _).
  destruct (Hchild (current_depth + 1) (path ++ [move_notation])
              (own_position move_data) (move_sequence ++ [move_notation]))
    as (below & Hbelow).
  cbn [snd] in Hbelow. rewrite Hbelow.
  destruct IH as (others & ->). eexists; reflexivity.
Qed.

(** The walk of a tree always returns. *)
Lemma analyze_move_difficulty_total (node : Node F) :
  forall current_depth path position move_sequence,
    exists recs,
      analyze_move_difficulty node current_depth path position move_sequence
        = Some recs.
Proof.
  induction node as [pos st mv IH] using node_induction.
  intros current_depth path position move_sequence.
  rewrite analyze_move_difficulty_eq. cbv zeta.
  apply analyze_items_total. destruct mv; exact IH.
Qed.

(** The position that a node's moves are scored with, when the node is
    entered with its own position as the walker's recursive call does. *)
Lemma resolve_own_position (node : Node F) :
  resolve_position node (own_position node) = own_position node.
Proof.
  unfold resolve_position.
  destruct (own_position node) as [[ | c p] | ]; reflexivity.
Qed.


Lemma analyze_items_sound current_depth path game_phase position_complexity
    move_sequence (items : Py.dict (Node F)) recs m :
  Forall (fun kv =>
            forall d p pos s recs m,
              analyze_move_difficulty (snd kv) d p pos s = Some recs ->
              In m recs -> emitted_at (snd kv) p pos m)
         items ->
  analyze_items current_depth path game_phase position_complexity
    move_sequence items = Some recs ->
  In m recs ->
  (exists k child,
     In (k, child) items /\ sm_move m = k /\ sm_move_data m = child /\
     sm_path m = path /\
     (sm_game_phase m, sm_phase_progress m, sm_position_complexity m) =
     (game_phase, position_complexity)) \/
  (exists k child,
     In (k, child) items /\
     emitted_at child (path ++ [k]) (own_position child) m).
Proof.
  intros Hchildren. revert recs.
  induction Hchildren as [ | [move_notation move_data] rest Hchild _ IH];
    intros recs Hrun Hin; cbn [analyze_items] in Hrun.
  - injection Hrun as <-. contradiction.
  - destruct (score_move_total current_depth path game_phase
                position_complexity move_sequence move_notation move_data)
      as (scored & Hs & Hmove & Hpath & _ & Hphase & Hprogress & Hcomplexity
          & Hdata & _).
    rewrite Hs in Hrun.
    destruct (analyze_move_difficulty move_data _ _ _ _) as [below | ] eqn:Eb;
      [ | discriminate Hrun].
    destruct (analyze_items _ _ _ _ _ rest) as [others | ] eqn:Eo;
      [ | discriminate Hrun].
    injection Hrun as <-.
    destruct Hin as [<- | Hin]; [ | apply in_app_or in Hin; destruct Hin as [Hin | Hin]].
    + left. exists move_notation, move_data.
      repeat split; try assumption; [left; reflexivity | ].
      rewrite Hphase, Hprogress, Hcomplexity.
      destruct game_phase; reflexivity.
    + right. exists move_notation, move_data. split; [left; reflexivity | ].
      apply (Hchild _ _ _ _ _ _ Eb Hin).
    + destruct (IH others eq_refl Hin) as [(k & child & Hk & H) | (k & child & Hk & H)].
      * left. exists k, child. split; [right; exact Hk | exact H].
      * right. exists k, child. split; [right; exact Hk | exact H].
Qed.

(** Every record of a walk belongs to a move of the tree, at the path the
    record carries, and its phase and complexity come from the position of
    the node that holds the move. *)
Lemma analyze_move_difficulty_sound (node : Node F) :
  forall current_depth path position move_sequence recs m,
    analyze_move_difficulty node current_depth path position move_sequence
      = Some recs ->
    In m recs -> emitted_at node path position m.
Proof.
  induction node as [pos st mv IH] using node_induction.
  intros current_depth path position move_sequence recs m Hrun Hin.
  rewrite analyze_move_difficulty_eq in Hrun. cbv zeta in Hrun.
  set (node := mkNode pos st mv) in *.
  change (Forall
            (fun kv =>
               forall d p pos0 s recs0 m0,
                 analyze_move_difficulty (snd kv) d p pos0 s = Some recs0 ->
                 In m0 recs0 -> emitted_at (snd kv) p pos0 m0)
            (moves_of node)) in IH.
  destruct (analyze_items_sound _ _ _ _ _ _ _ _ IH Hrun Hin)
    as [(k & child & Hk & Hmove & Hdata & Hpath & Hctx)
       | (k & child & Hk & q & parent & Hpath & Hat & Hentry & Hctx)].
  - exists [], node. rewrite app_nil_r. subst k child.
    split; [exact Hpath | ]. split; [constructor | ]. split; [exact Hk | ].
    rewrite Hctx. destruct (position_context _); reflexivity.
  - exists (k :: q), parent. rewrite <- app_assoc in Hpath.
    split; [exact Hpath | ]. split; [econstructor; eassumption | ].
    split; [exact Hentry | ].
    rewrite Hctx. destruct q; [ | reflexivity].
    inversion Hat; subst. now rewrite resolve_own_position.
Qed.

End WalkerFacts.

Section DictFacts.
Context {V : Type}.

Lemma dict_get_In (d : Py.dict V) (k : string) (v : V) :
  Py.dict_get d k = Some v -> In (k, v) d.
Proof.
  induction d as [ | [k' v'] d IH]; cbn; [discriminate | ].
  destruct (String.eqb k' k) eqn:E.
  - apply String.eqb_eq in E. intros [= ->]. left. now subst.
  - intros H. right. apply IH, H.
Qed.

Lemma In_dict_get (d : Py.dict V) (k : string) (v : V) :
  Py.unique_keys (Py.keys d) = true -> In (k, v) d ->
  Py.dict_get d k = Some v.
Proof.
  induction d as [ | [k' v'] d IH]; cbn; [contradiction | ].
  rewrite andb_true_iff, negb_true_iff. intros [Hfresh Hrest] [H | H].
  - injection H as -> ->. now rewrite String.eqb_refl.
  - destruct (String.eqb k' k) eqn:E; [ | apply IH; assumption].
    apply String.eqb_eq in E. subst k'. exfalso.
    apply not_true_iff_false in Hfresh. apply Hfresh.
    apply existsb_exists. exists k. split; [ | apply String.eqb_refl].
    unfold Py.keys. apply (in_map fst) in H. exact H.
Qed.

Lemma dict_get_set_same (d : Py.dict V) (k : string) (v : V) :
  Py.dict_get (Py.dict_set d k v) k = Some v.
Proof.
  induction d as [ | [k' v'] d IH]; cbn.
  - now rewrite String.eqb_refl.
  - destruct (String.eqb k' k) eqn:E; cbn; rewrite E; [reflexivity | exact IH].
Qed.

Lemma dict_get_set_other (d : Py.dict V) (k k' : string) (v : V) :
  k <> k' -> Py.dict_get (Py.dict_set d k v) k' = Py.dict_get d k'.
Proof.
  intros Hne. induction d as [ | [k0 v0] d IH]; cbn.
  - apply String.eqb_neq in Hne. now rewrite Hne.
  - destruct (String.eqb k0 k) eqn:E; cbn.
    + apply String.eqb_eq in E. subst k0.
      apply String.eqb_neq in Hne. now rewrite Hne.
    + destruct (String.eqb k0 k'); [reflexivity | exact IH].
Qed.

(** Storing under a key the value it already holds changes nothing. *)
Lemma dict_set_same_value (d : Py.dict V) (k : string) (v : V) :
  Py.dict_get d k = Some v -> Py.dict_set d k v = d.
Proof.
  induction d as [ | [k' v'] d IH]; cbn; [discriminate | ].
  destruct (String.eqb k' k).
  - now intros [= ->].
  - intros H. now rewrite IH.
Qed.

End DictFacts.

Section TreeFacts.
Context {F : Type} {num : PyFloat F}.

Lemma tree_get_app (node : Node F) (p q : list string) :
  tree_get node (p ++ q) =
  match tree_get node p with
  | Some mid => tree_get mid q
  | None => None
  end.
Proof.
  revert node. induction p as [ | k p IH]; intros node; cbn; [reflexivity | ].
  destruct (Py.dict_get (moves_of node) k); [apply IH | reflexivity].
Qed.

Lemma tree_get_at_path (node : Node F) (q : list string) (target : Node F) :
  tree_get node q = Some target -> at_path node q target.
Proof.
  revert node. induction q as [ | k q IH]; intros node; cbn.
  - intros [= ->]. constructor.
  - destruct (Py.dict_get (moves_of node) k) as [child | ] eqn:E;
      [ | discriminate].
    intros H. apply dict_get_In in E. econstructor; [exact E | apply IH, H].
Qed.

Lemma well_formed_inv (node : Node F) :
  well_formed node = true ->
  Py.unique_keys (Py.keys (moves_of node)) = true /\
  forall k child, In (k, child) (moves_of node) -> well_formed child = true.
Proof.
  destruct node as [pos st [d | ]]; cbn [well_formed moves_of node_moves];
    [ | intros _; split; [reflexivity | contradiction]].
  rewrite andb_true_iff. intros [Hkeys Hall]. split; [exact Hkeys | ].
  clear Hkeys. induction d as [ | [k' c'] d IH]; [contradiction | ].
  rewrite andb_true_iff in Hall. destruct Hall as [Hc Hd].
  intros k child [H | H]; [injection H as <- <-; exact Hc | ].
  apply (IH Hd k child H).
Qed.

Lemma at_path_tree_get (node : Node F) (q : list string) (target : Node F) :
  well_formed node = true -> at_path node q target ->
  tree_get node q = Some target.
Proof.
  intros Hwf Hat. induction Hat as [ | node k child rest target Hin _ IH];
    cbn; [reflexivity | ].
  destruct (well_formed_inv node Hwf) as [Hkeys Hchildren].
  rewrite (In_dict_get _ _ _ Hkeys Hin). apply IH, (Hchildren k child Hin).
Qed.

Lemma analyze_items_emits current_depth path game_phase position_complexity
    move_sequence (items : Py.dict (Node F)) recs k child :
  analyze_items current_depth path game_phase position_complexity
    move_sequence items = Some recs ->
  In (k, child) items ->
  (exists m, In m recs /\ sm_path m = path /\ sm_move m = k /\
             sm_move_data m = child) /\
  (exists below,
     analyze_move_difficulty child (current_depth + 1) (path ++ [k])
       (own_position child) (move_sequence ++ [k]) = Some below /\
     incl below recs).
Proof.
  revert recs.
  induction items as [ | [move_notation move_data] rest IH];
    intros recs Hrun Hin; [contradiction | ].
  cbn [analyze_items] in Hrun.
  destruct (score_move_total current_depth path game_phase
              position_complexity move_sequence move_notation move_data)
    as (scored & Hs & Hmove & Hpath & _ & _ & _ & _ & Hdata & _).
  rewrite Hs in Hrun.
  destruct (analyze_move_difficulty move_data _ _ _ _) as [below | ] eqn:Eb;
    [ | discriminate Hrun].
  destruct (analyze_items _ _ _ _ _ rest) as [others | ] eqn:Eo;
    [ | discriminate Hrun].
  injection Hrun as <-.
  destruct Hin as [H | H].
  - injection H as -> ->. split.
    + exists scored. repeat split; try assumption. left; reflexivity.
    + exists below. split; [exact Eb | ].
      intros x Hx. right. apply in_or_app. left. exact Hx.
  - destruct (IH others eq_refl H) as [(m & Hm & Hrest) (below' & Hb & Hincl)].
    split.
    + exists m. split; [ | exact Hrest].
      right. apply in_or_app. right. exact Hm.
    + exists below'. split; [exact Hb | ].
      intros x Hx. right. apply in_or_app. right. apply Hincl, Hx.
Qed.

(** Every move of the tree is emitted, with the path that leads to it. *)
Lemma analyze_move_difficulty_complete (node : Node F) q parent k child :
  at_path node q parent -> In (k, child) (moves_of parent) ->
  forall current_depth path position move_sequence recs,
    analyze_move_difficulty node current_depth path position move_sequence
      = Some recs ->
    exists m, In m recs /\ sm_path m = path ++ q /\ sm_move m = k /\
              sm_move_data m = child.
Proof.
  intros Hat Hentry.
  induction Hat as [node | node k0 child0 rest target Hin _ IH];
    intros current_depth path position move_sequence recs Hrun;
    rewrite analyze_move_difficulty_eq in Hrun; cbv zeta in Hrun.
  - destruct (analyze_items_emits _ _ _ _ _ _ _ _ _ Hrun Hentry)
      as [(m & Hm & Hpath & Hrest) _].
    exists m. rewrite app_nil_r. repeat split; assumption || apply Hrest.
  - destruct (analyze_items_emits _ _ _ _ _ _ _ _ _ Hrun Hin)
      as [_ (below & Hb & Hincl)].
    destruct (IH Hentry _ _ _ _ _ Hb) as (m & Hm & Hpath & Hrest).
    exists m. split; [apply Hincl, Hm | ].
    rewrite <- app_assoc in Hpath. split; [exact Hpath | exact Hrest].
Qed.

End TreeFacts.

(* ================================================================= *)
(** ** Facts about the tier tree builder *)

Section BuilderFacts.
Context {F : Type}.

Lemma moves_of_with_moves (node : Node F) (d : Py.dict (Node F)) :
  moves_of (with_moves node d) = d.
Proof. reflexivity. Qed.

Lemma with_moves_same (node : Node F) (d : Py.dict (Node F)) :
  node_moves node = Some d -> with_moves node d = node.
Proof. destruct node as [pos st mv]. cbn. now intros ->. Qed.

Lemma shell_inv (node : Node F) :
  shell node ->
  exists d, node_moves node = Some d /\ forall d', shell (with_moves node d').
Proof.
  intros (d & [-> | ->]); exists d; (split; [reflexivity | ]); intros d';
    exists d'; [left | right]; reflexivity.
Qed.

Lemma dict_get_moves_of (node : Node F) (k : string) (child : Node F) :
  Py.dict_get (moves_of node) k = Some child ->
  exists d, node_moves node = Some d /\ Py.dict_get d k = Some child.
Proof.
  unfold moves_of. destruct (node_moves node) as [d | ]; [ | discriminate].
  intros H. exists d. split; [reflexivity | exact H].
Qed.

(** Placing a move into a node that already holds it, with the same data,
    leaves the node as it is: writes into an attached subtree of the source
    rewrite keys with the objects they already hold, so the sharing of that
    subtree with the source tree is never observed. *)
Lemma place_already_there (path : list string) (move : string)
    (move_data : Node F) :
  forall node,
    tree_get node (path ++ [move]) = Some move_data ->
    place node path move move_data = Some node.
Proof.
  induction path as [ | k rest IH]; intros node Hget; cbn in Hget.
  - destruct (Py.dict_get (moves_of node) move) as [c | ] eqn:E;
      [ | discriminate Hget].
    injection Hget as ->.
    destruct (dict_get_moves_of _ _ _ E) as (d & Hd & Hk).
    cbn [place]. rewrite Hd, (dict_set_same_value _ _ _ Hk).
    now rewrite with_moves_same.
  - destruct (Py.dict_get (moves_of node) k) as [c | ] eqn:E;
      [ | discriminate Hget].
    destruct (dict_get_moves_of _ _ _ E) as (d & Hd & Hk).
    cbn [place]. rewrite Hd, Hk, (IH c Hget), (dict_set_same_value _ _ _ Hk).
    now rewrite with_moves_same.
Qed.

Lemma tree_get_with_moves (node : Node F) (d : Py.dict (Node F)) k q :
  tree_get (with_moves node d) (k :: q) =
  match Py.dict_get d k with
  | Some child => tree_get child q
  | None => None
  end.
Proof. reflexivity. Qed.

(** One iteration of the builder's loop. *)
Lemma place_spec (move : string) (move_data : Node F) (path : list string) :
  forall tree source,
    rebuilt_from source tree ->
    tree_get source (path ++ [move]) = Some move_data ->
    exists tree',
      place tree path move move_data = Some tree' /\
      rebuilt_from source tree' /\
      tree_get tree' (path ++ [move]) = Some move_data /\
      (forall q n, tree_get tree q = Some n -> tree_get source q = Some n ->
                   tree_get tree' q = Some n).
Proof.
  induction path as [ | k0 rest IH]; intros tree source Hrebuilt Hsource.
  - (* the move goes into [tree] itself *)
    destruct (Hrebuilt [] tree eq_refl) as [Hshell | Hsame].
    2:{ injection Hsame as ->. exists tree.
        split; [apply place_already_there, Hsource | ].
        split; [exact Hrebuilt | ]. split; [exact Hsource | auto]. }
    destruct (shell_inv tree Hshell) as (d & Hd & Hstay).
    cbn [place app]. rewrite Hd.
    exists (with_moves tree (Py.dict_set d move move_data)).
    split; [reflexivity | ].
    cbn [app tree_get] in Hsource.
    destruct (Py.dict_get (moves_of source) move) as [c | ] eqn:Es;
      [ | discriminate Hsource].
    injection Hsource as ->.
    assert (Hbelow : forall k q,
      tree_get (with_moves tree (Py.dict_set d move move_data)) (k :: q) =
      if String.eqb move k then tree_get move_data q
      else tree_get tree (k :: q)).
    { intros k q. rewrite tree_get_with_moves.
      destruct (String.eqb move k) eqn:E.
      - apply String.eqb_eq in E. subst k. now rewrite dict_get_set_same.
      - apply String.eqb_neq in E. rewrite (dict_get_set_other _ _ _ _ E).
        cbn [tree_get]. unfold moves_of. now rewrite Hd. }
    split; [ | split].
    + intros [ | k q] n Hn.
      * injection Hn as <-. left. apply Hstay.
      * rewrite Hbelow in Hn. destruct (String.eqb move k) eqn:E.
        -- apply String.eqb_eq in E. subst k. right.
           cbn [tree_get]. now rewrite Es.
        -- apply Hrebuilt, Hn.
    + cbn [app]. rewrite Hbelow, String.eqb_refl. reflexivity.
    + intros [ | k q] n Hn Hs.
      * injection Hn as <-. injection Hs as ->.
        rewrite (dict_set_same_value d move move_data).
        -- now rewrite with_moves_same.
        -- unfold moves_of in Es. now rewrite Hd in Es.
      * rewrite Hbelow. destruct (String.eqb move k) eqn:E; [ | exact Hn].
        apply String.eqb_eq in E. subst k.
        cbn [tree_get] in Hs. now rewrite Es in Hs.
  - (* the path goes on through the child under [k0] *)
    destruct (Hrebuilt [] tree eq_refl) as [Hshell | Hsame].
    2:{ injection Hsame as ->. exists tree.
        split; [apply place_already_there, Hsource | ].
        split; [exact Hrebuilt | ]. split; [exact Hsource | auto]. }
    destruct (shell_inv tree Hshell) as (d & Hd & Hstay).
    cbn [app tree_get] in Hsource.
    destruct (Py.dict_get (moves_of source) k0) as [source0 | ] eqn:Es;
      [ | discriminate Hsource].
    set (child := match Py.dict_get d k0 with
                  | Some c => c
                  | None => placeholder
                  end).
    assert (Hchild : rebuilt_from source0 child).
    { intros q n Hn. unfold child in Hn.
      destruct (Py.dict_get d k0) as [c | ] eqn:Ec.
      - destruct (Hrebuilt (k0 :: q) n) as [H | H].
        + cbn [tree_get]. unfold moves_of. now rewrite Hd, Ec.
        + left; exact H.
        + right. cbn [tree_get] in H. now rewrite Es in H.
      - destruct q as [ | k q]; [ | discriminate Hn].
        injection Hn as <-. left. exists []. right. reflexivity. }
    destruct (IH child source0 Hchild Hsource)
      as (child' & Hplace & Hrebuilt' & Hget' & Hkeep).
    cbn [place]. rewrite Hd. fold child. rewrite Hplace.
    exists (with_moves tree (Py.dict_set d k0 child')).
    split; [reflexivity | ].
    assert (Hbelow : forall k q,
      tree_get (with_moves tree (Py.dict_set d k0 child')) (k :: q) =
      if String.eqb k0 k then tree_get child' q
      else tree_get tree (k :: q)).
    { intros k q. rewrite tree_get_with_moves.
      destruct (String.eqb k0 k) eqn:E.
      - apply String.eqb_eq in E. subst k. now rewrite dict_get_set_same.
      - apply String.eqb_neq in E. rewrite (dict_get_set_other _ _ _ _ E).
        cbn [tree_get]. unfold moves_of. now rewrite Hd. }
    split; [ | split].
    + intros [ | k q] n Hn.
      * injection Hn as <-. left. apply Hstay.
      * rewrite Hbelow in Hn. destruct (String.eqb k0 k) eqn:E.
        -- apply String.eqb_eq in E. subst k.
           destruct (Hrebuilt' q n Hn) as [H | H]; [left; exact H | right].
           cbn [tree_get]. now rewrite Es.
        -- apply Hrebuilt, Hn.
    + cbn [app]. rewrite Hbelow, String.eqb_refl. exact Hget'.
    + intros [ | k q] n Hn Hs.
      * injection Hn as <-. injection Hs as ->.
        assert (Hthere : tree_get tree ((k0 :: rest) ++ [move]) = Some move_data).
        { cbn [app tree_get]. now rewrite Es. }
        apply place_already_there in Hthere. cbn [place] in Hthere.
        rewrite Hd in Hthere. fold child in Hthere. rewrite Hplace in Hthere.
        injection Hthere as ->. reflexivity.
      * rewrite Hbelow. destruct (String.eqb k0 k) eqn:E; [ | exact Hn].
        apply String.eqb_eq in E. subst k.
        cbn [tree_get] in Hn, Hs. rewrite Es in Hs.
        unfold moves_of in Hn. rewrite Hd in Hn.
        unfold child in Hkeep.
        destruct (Py.dict_get d k0) as [c | ]; [ | discriminate Hn].
        apply Hkeep; assumption.
Qed.

Lemma place_all_spec (source : Node F) (level_moves : list (ScoredMove F)) :
  (forall m, In m level_moves ->
             tree_get source (sm_path m ++ [sm_move m]) = Some (sm_move_data m)) ->
  forall tree,
    rebuilt_from source tree ->
    exists tree',
      place_all tree level_moves = Some tree' /\
      rebuilt_from source tree' /\
      (forall m, In m level_moves ->
                 tree_get tree' (sm_path m ++ [sm_move m])
                 = Some (sm_move_data m)) /\
      (forall q n, tree_get tree q = Some n -> tree_get source q = Some n ->
                   tree_get tree' q = Some n).
Proof.
  induction level_moves as [ | move_info rest IH]; intros Hsource tree Hrebuilt.
  - exists tree. cbn. repeat split; auto. contradiction.
  - destruct (place_spec (sm_move move_info) (sm_move_data move_info)
                (sm_path move_info) tree source Hrebuilt
                (Hsource move_info (or_introl eq_refl)))
      as (tree1 & Hplace & Hrebuilt1 & Hget1 & Hkeep1).
    destruct (IH (fun m Hm => Hsource m (or_intror Hm)) tree1 Hrebuilt1)
      as (tree' & Hrun & Hrebuilt' & Hget' & Hkeep').
    exists tree'. cbn [place_all]. rewrite Hplace.
    split; [exact Hrun | ]. split; [exact Hrebuilt' | ]. split.
    + intros m [<- | Hm]; [ | apply Hget', Hm].
      apply Hkeep'; [exact Hget1 | ].
      apply Hsource. left; reflexivity.
    + intros q n Hn Hs. apply Hkeep'; [ | exact Hs]. apply Hkeep1; assumption.
Qed.

Lemma new_root_rebuilt (source : Node F) : rebuilt_from source new_root.
Proof.
  intros [ | k q] n Hn; [ | discriminate Hn].
  injection Hn as <-. left. exists []. left. reflexivity.
Qed.

End BuilderFacts.

Section CoverFacts.
Context {F : Type}.

Lemma on_line_cons (k : string) (q full : list string) :
  on_line q full -> on_line (k :: q) (k :: full).
Proof.
  intros [(rest & ->) | (below & ->)]; [left; exists rest | right; exists below];
    reflexivity.
Qed.

(** The nodes of the tree after one iteration: those that were there, and
    nodes on the line of the move just placed. *)
Lemma place_positions (move : string) (move_data : Node F)
    (path : list string) :
  forall tree tree' q n,
    place tree path move move_data = Some tree' ->
    tree_get tree' q = Some n ->
    (exists n', tree_get tree q = Some n') \/ on_line q (path ++ [move]).
Proof.
  induction path as [ | k0 rest IH]; intros tree tree' q n Hplace Hn;
    cbn [place] in Hplace;
    destruct (node_moves tree) as [d | ] eqn:Hd; try discriminate Hplace.
  - injection Hplace as <-. destruct q as [ | k q].
    + left. eexists; reflexivity.
    + rewrite tree_get_with_moves in Hn.
      destruct (String.eqb move k) eqn:E.
      * apply String.eqb_eq in E. subst k. right. right. exists q. reflexivity.
      * apply String.eqb_neq in E. rewrite (dict_get_set_other _ _ _ _ E) in Hn.
        left. exists n. cbn [tree_get]. unfold moves_of. now rewrite Hd.
  - destruct (place _ rest move move_data) as [child' | ] eqn:Hc;
      [ | discriminate Hplace].
    injection Hplace as <-. destruct q as [ | k q].
    + left. eexists; reflexivity.
    + rewrite tree_get_with_moves in Hn.
      destruct (String.eqb k0 k) eqn:E.
      * apply String.eqb_eq in E. subst k. rewrite dict_get_set_same in Hn.
        destruct (IH _ _ _ _ Hc Hn) as [(n' & Hn') | Hline].
        -- destruct (Py.dict_get d k0) as [c | ] eqn:Ek.
           ++ left. exists n'. cbn [tree_get]. unfold moves_of.
              now rewrite Hd, Ek.
           ++ destruct q as [ | k q]; [ | discriminate Hn'].
              right. left. exists (rest ++ [move]). reflexivity.
        -- right. apply on_line_cons, Hline.
      * apply String.eqb_neq in E. rewrite (dict_get_set_other _ _ _ _ E) in Hn.
        left. exists n. cbn [tree_get]. unfold moves_of. now rewrite Hd.
Qed.

Lemma place_all_positions (level_moves : list (ScoredMove F)) :
  forall tree tree' q n,
    place_all tree level_moves = Some tree' ->
    tree_get tree' q = Some n ->
    (exists n', tree_get tree q = Some n') \/
    (exists m, In m level_moves /\ on_line q (sm_path m ++ [sm_move m])).
Proof.
  induction level_moves as [ | move_info rest IH]; intros tree tree' q n Hrun Hn;
    cbn [place_all] in Hrun.
  - injection Hrun as <-. left. exists n. exact Hn.
  - destruct (place tree _ _ _) as [tree1 | ] eqn:Hplace; [ | discriminate Hrun].
    destruct (IH _ _ _ _ Hrun Hn) as [(n1 & Hn1) | (m & Hm & Hline)].
    + destruct (place_positions _ _ _ _ _ _ _ Hplace Hn1) as [H | H];
        [left; exact H | right].
      exists move_info. split; [left; reflexivity | exact H].
    + right. exists m. split; [right; exact Hm | exact Hline].
Qed.

End CoverFacts.

Section RoundTrip.
Context {F : Type} {num : PyFloat F}.

Lemma at_path_snoc (node : Node F) q parent k child :
  at_path node q parent -> In (k, child) (moves_of parent) ->
  at_path node (q ++ [k]) child.
Proof.
  induction 1 as [node | node k0 child0 rest target Hin _ IH]; intros Hentry; cbn.
  - econstructor; [exact Hentry | constructor].
  - econstructor; [exact Hin | apply IH, Hentry].
Qed.

(** In a well-formed tree every record of the walk is found again by
    following its path and then its move. *)
Lemma walk_records_are_consistent (source : Node F) recs m :
  well_formed source = true -> walk source = Some recs -> In m recs ->
  tree_get source (sm_path m ++ [sm_move m]) = Some (sm_move_data m).
Proof.
  intros Hwf Hwalk Hin.
  destruct (analyze_move_difficulty_sound source _ _ _ _ _ _ Hwalk Hin)
    as (q & parent & Hpath & Hat & Hentry & _).
  cbn [app] in Hpath. rewrite Hpath.
  apply at_path_tree_get; [exact Hwf | ].
  eapply at_path_snoc; eassumption.
Qed.

(** Every move that can be reached in a tree is among the records of its
    walk. *)
Lemma reachable_moves_are_walked (tree : Node F) recs path move move_data :
  walk tree = Some recs ->
  tree_get tree (path ++ [move]) = Some move_data ->
  exists m, In m recs /\ sm_move m = move /\ sm_path m = path /\
            sm_move_data m = move_data.
Proof.
  intros Hwalk Hget. rewrite tree_get_app in Hget.
  destruct (tree_get tree path) as [parent | ] eqn:Hp; [ | discriminate Hget].
  cbn [tree_get] in Hget.
  destruct (Py.dict_get (moves_of parent) move) as [c | ] eqn:Hc;
    [ | discriminate Hget].
  injection Hget as ->.
  destruct (analyze_move_difficulty_complete tree path parent move move_data
              (tree_get_at_path _ _ _ Hp) (dict_get_In _ _ _ Hc)
              _ _ _ _ _ Hwalk) as (m & Hm & Hpath & Hmove & Hdata).
  exists m. cbn [app] in Hpath. repeat split; assumption.
Qed.

End RoundTrip.

(* ================================================================= *)
(** ** The tree walker *)



(* ================================================================= *)
(** ** The tier tree builder *)

(** X22.  What the builder guarantees.  For a tier whose moves come from
    a source tree (each is found there under its path), the builder returns
    a tree that holds every move of the tier at its path, with the move's
    original data, so with the whole original subtree below it; every node
    of the tree is the new root, a placeholder with zero-initialised stats,
    or the source's node at that path; and every node other than the root
    lies on the way to a move of the tier or at or below one. *)
Theorem tier_tree_holds_tier_moves
    (F : Type) (source : Node F) (tier : list (ScoredMove F)) :
  (forall m, In m tier ->
             tree_get source (sm_path m ++ [sm_move m]) = Some (sm_move_data m)) ->
  exists tree,
    create_level_knowledge_tree tier = Some tree /\
    (forall m, In m tier ->
               tree_get tree (sm_path m ++ [sm_move m]) = Some (sm_move_data m)) /\
    (forall q n, tree_get tree q = Some n ->
                 shell n \/ tree_get source q = Some n) /\
    (forall q n, tree_get tree q = Some n ->
                 q = [] \/
                 exists m, In m tier /\ on_line q (sm_path m ++ [sm_move m])).
Proof.
  intros Hsource.
  destruct (place_all_spec source tier Hsource new_root (new_root_rebuilt source))
    as (tree & Hrun & Hrebuilt & Hget & _).
  exists tree. split; [exact Hrun | ]. split; [exact Hget | ].
  split; [exact Hrebuilt | ].
  intros q n Hn.
  destruct (place_all_positions tier _ _ _ _ Hrun Hn) as [(n' & Hn') | H];
    [left | right; exact H].
  destruct q; [reflexivity | discriminate Hn'].
Qed.

(** An instance: the eighth tier of [sample_tree]. *)
Lemma tier_tree_holds_tier_moves_witness :
  exists tree,
    create_level_knowledge_tree (nth 7 sample_tiers []) = Some tree /\
    (forall m, In m (nth 7 sample_tiers []) ->
               tree_get tree (sm_path m ++ [sm_move m])
               = Some (sm_move_data m)) /\
    (forall q n, tree_get tree q = Some n ->
                 shell n \/ tree_get sample_tree q = Some n) /\
    (forall q n, tree_get tree q = Some n ->
                 q = [] \/
                 exists m, In m (nth 7 sample_tiers []) /\
                           on_line q (sm_path m ++ [sm_move m])).
Proof.
  apply (tier_tree_holds_tier_moves Q sample_tree (nth 7 sample_tiers [])).
  intros m Hm. vm_compute in Hm.
  destruct Hm as [<- | [<- | [<- | []]]]; reflexivity.
Defined.

(** C7.  The tree built for the eighth tier of [sample_tree] (the moves e5,
    e4 and c5) contains the move Nf3 under e4 e5, which is no move of that
    tier (it belongs to the fifth): the builder stores a move's original
    node, with every move below it, so moves outside the tier do appear in
    the tier tree. *)
Lemma tier_tree_keeps_moves_of_other_tiers :
  exists tree,
    create_level_knowledge_tree (nth 7 sample_tiers []) = Some tree /\
    (exists n, tree_get tree ["e4"; "e5"; "Nf3"] = Some n) /\
    ~ (exists m, In m (nth 7 sample_tiers []) /\
                 sm_path m = ["e4"; "e5"] /\ sm_move m = "Nf3") /\
    (exists m, In m (nth 4 sample_tiers []) /\
               sm_path m = ["e4"; "e5"] /\ sm_move m = "Nf3").
Proof.
  eexists. split; [vm_compute; reflexivity | ].
  split; [eexists; vm_compute; reflexivity | ]. split.
  - intros (m & Hm & Hpath & _). vm_compute in Hm.
    destruct Hm as [<- | [<- | [<- | []]]]; discriminate Hpath.
  - eexists. split; [vm_compute; left; reflexivity | ].
    split; reflexivity.
Qed.

(** C8.  For every tier whose records are located in the source tree (each
    record's move data is the node found in the source by following the
    record's path and then its move), building the tier tree and walking it
    again returns, for each move of the tier, a record with the same move,
    the same path and the same move data.  The records of a walk of the
    source are located in this sense ([walk_records_are_consistent]), and so
    are the tiers the stratifier makes of them
    ([tier_records_are_located]). *)
Theorem tier_tree_walk_preserves_paths
    (F : Type) (num : PyFloat F) (source : Node F)
    (tier : list (ScoredMove F)) :
  (forall m, In m tier ->
             tree_get source (sm_path m ++ [sm_move m]) = Some (sm_move_data m)) ->
  exists tree rewalked,
    create_level_knowledge_tree tier = Some tree /\
    walk tree = Some rewalked /\
    forall m, In m tier ->
      exists m', In m' rewalked /\ sm_move m' = sm_move m /\
                 sm_path m' = sm_path m /\
                 sm_move_data m' = sm_move_data m.
Proof.
  intros Hsource.
  destruct (place_all_spec source tier Hsource new_root (new_root_rebuilt source))
    as (tree & Hbuild & _ & Hget & _).
  destruct (analyze_move_difficulty_total tree 0 [] None []) as (rewalked & Hrewalk).
  exists tree, rewalked. split; [exact Hbuild | ]. split; [exact Hrewalk | ].
  intros m Hm. eapply reachable_moves_are_walked; [exact Hrewalk | apply Hget, Hm].
Qed.

(** An instance: the eighth tier of [sample_tree], the moves e5, e4 and
    c5. *)
Lemma tier_tree_walk_preserves_paths_witness :
  exists tree rewalked,
    create_level_knowledge_tree (nth 7 sample_tiers []) = Some tree /\
    walk tree = Some rewalked /\
    forall m, In m (nth 7 sample_tiers []) ->
      exists m', In m' rewalked /\ sm_move m' = sm_move m /\
                 sm_path m' = sm_path m /\
                 sm_move_data m' = sm_move_data m.
Proof.
  apply (tier_tree_walk_preserves_paths Q Q_float sample_tree
           (nth 7 sample_tiers [])).
  intros m Hm. vm_compute in Hm.
  destruct Hm as [<- | [<- | [<- | []]]]; reflexivity.
Defined.

(** The walk of the tree built for the eighth tier of [sample_tree]: the
    three moves of the tier come back at their paths, e4 at the root and e5
    and c5 under e4, together with the moves below them. *)
Lemma sample_tier_tree_walk :
  exists tree rewalked,
    create_level_knowledge_tree (nth 7 sample_tiers []) = Some tree /\
    walk tree = Some rewalked /\
    map (fun m => (sm_path m, sm_move m)) (nth 7 sample_tiers [])
      = [(["e4"], "e5"); ([], "e4"); (["e4"], "c5")] /\
    forallb
      (fun m =>
         existsb
           (fun m' =>
              String.eqb (sm_move m') (sm_move m) &&
              (if list_eq_dec string_dec (sm_path m') (sm_path m)
               then true else false))
           rewalked)
      (nth 7 sample_tiers []) = true.
Proof.
  eexists. eexists. split; [vm_compute; reflexivity | ].
  split; [vm_compute; reflexivity | ].
  split; vm_compute; reflexivity.
Qed.

(* ================================================================= *)
(** ** The position feature extractor, further *)

(* ================================================================= *)
(** ** More on the position feature extractor *)

Lemma count_char_step (pc : PieceCounts) (char : ascii) :
  (counts_nonneg pc = true -> counts_nonneg (count_char pc char) = true) /\
  counted_pieces pc <= counted_pieces (count_char pc char)
    <= counted_pieces pc + 1.
Proof.
  destruct pc as [P N B R Q K p n b r q k].
  unfold counts_nonneg, counted_pieces, count_char.
  repeat (destruct (Ascii.eqb char _);
          [cbn [cnt_P cnt_N cnt_B cnt_R cnt_Q cnt_K cnt_p cnt_n cnt_b cnt_r
                cnt_q cnt_k];
           rewrite !andb_true_iff, !Z.leb_le; split; [intros; lia | lia] | ]).
  split; [trivial | cbn; lia].
Qed.

Lemma count_from_bounds (fen : string) :
  forall pc,
    (counts_nonneg pc = true -> counts_nonneg (count_from pc fen) = true) /\
    counted_pieces pc <= counted_pieces (count_from pc fen)
      <= counted_pieces pc + Z.of_nat (String.length fen).
Proof.
  induction fen as [ | char rest IH]; intros pc; cbn [count_from String.length].
  - split; [trivial | lia].
  - destruct (count_char_step pc char) as [Hn Hc].
    destruct (IH (count_char pc char)) as [Hn' Hc'].
    split; [auto | lia].
Qed.

(** X1.  Each of the twelve counts of [count_pieces] is non-negative, and
    together they count at most one piece per character of the string. *)
Theorem count_pieces_bounds (fen : string) :
  counts_nonneg (count_pieces fen) = true /\
  0 <= counted_pieces (count_pieces fen) <= Z.of_nat (String.length fen).
Proof.
  destruct (count_from_bounds fen zero_counts) as [Hn Hc].
  split; [apply Hn; reflexivity | exact Hc].
Qed.

Lemma before_space_no_space (s : string) :
  Py.has_char " " (Py.before_space s) = false.
Proof.
  induction s as [ | c s IH]; cbn; [reflexivity | ].
  destruct (Ascii.eqb c " ") eqn:E; cbn; [reflexivity | ].
  now rewrite E, IH.
Qed.

Lemma before_space_app (a b : string) :
  Py.has_char " " a = false ->
  Py.before_space (a ++ String " " b) = a.
Proof.
  induction a as [ | c a IH]; cbn; [reflexivity | ].
  destruct (Ascii.eqb c " ") eqn:E; cbn; [discriminate | ].
  intros H. now rewrite IH.
Qed.

Lemma has_char_app (c : ascii) (a b : string) :
  Py.has_char c (a ++ b) = Py.has_char c a || Py.has_char c b.
Proof.
  induction a as [ | c' a IH]; cbn; [reflexivity | ].
  now rewrite IH, orb_assoc.
Qed.

(** X2.  [parse_fen_from_position] returns a string without a space, and
    parsing its result again changes nothing. *)
Theorem parse_fen_has_no_space (position : string) :
  Py.has_char " " (parse_fen_from_position position) = false /\
  parse_fen_from_position (parse_fen_from_position position)
  = parse_fen_from_position position.
Proof.
  assert (H : Py.has_char " " (parse_fen_from_position position) = false).
  { unfold parse_fen_from_position.
    destruct (Py.has_char " " position) eqn:E;
      [apply before_space_no_space | exact E]. }
  split; [exact H | ].
  unfold parse_fen_from_position at 1. now rewrite H.
Qed.

(** X3.  Of a full FEN only the piece placement is counted: what follows
    the first space (side to move, the castling letters KQkq, ...) adds no
    piece. *)
Theorem fields_after_placement_are_not_counted (placement others : string) :
  Py.has_char " " placement = false ->
  count_pieces (parse_fen_from_position (placement ++ String " " others))
  = count_pieces placement.
Proof.
  intros H. unfold parse_fen_from_position.
  rewrite has_char_app. cbn [Py.has_char]. rewrite Ascii.eqb_refl.
  rewrite orb_true_r. cbn [orb].
  replace (Py.has_char " " placement || true) with true
    by (now rewrite orb_true_r).
  now rewrite before_space_app.
Qed.

(** An instance: a position with a rook and the two kings. *)
Lemma fields_after_placement_are_not_counted_witness :
  count_pieces
    (parse_fen_from_position ("4k3/8/8/8/8/8/8/4K2R" ++ String " " "w K - 0 1"))
  = count_pieces "4k3/8/8/8/8/8/8/4K2R".
Proof.
  apply (fields_after_placement_are_not_counted
           "4k3/8/8/8/8/8/8/4K2R" "w K - 0 1").
  reflexivity.
Defined.

(** The names and the upper bound of the progress, rule by rule. *)
Lemma game_phase_names_and_upper_bound (pc : PieceCounts) :
  (fst (determine_game_phase (F:=Q) pc) = "opening" \/
   fst (determine_game_phase (F:=Q) pc) = "middlegame" \/
   fst (determine_game_phase (F:=Q) pc) = "endgame") /\
  (snd (determine_game_phase (F:=Q) pc) <= 1)%Q.
Proof.
  unfold determine_game_phase.
  assert (Hdiv : forall n : Z,
            (of_int (F:=Q) n / of_int 10 == inject_Z n * (1 # 10))%F%Q)
    by (intros n; apply ExactFacts.div_by_int).
  assert (Hhigh : forall n : Z, (n <= 10)%Z -> (inject_Z n <= 10)%Q)
    by (intros n Hn; change 10%Q with (inject_Z 10); now rewrite <- Zle_Qle).
  destruct ((total_pieces pc >=? 12) && (cnt_Q pc >=? 1) &&
            (cnt_q pc >=? 1))%Z.
  { cbn. split; [left; reflexivity | discriminate]. }
  destruct (total_material pc >=? 30)%Z eqn:E30.
  { cbn [fst snd]. split; [left; reflexivity | ].
    change (of_int (F:=Q) 1) with 1%Q.
    destruct (ExactFacts.py_min_spec 1%Q
                (of_int (40 - total_material pc) / of_int 10)%F)
      as [[H ->] | [H ->]]; lra. }
  destruct (total_material pc >=? 20)%Z eqn:E20.
  { cbn [fst snd]. split; [right; left; reflexivity | ].
    rewrite Z.geb_leb, Z.leb_le in E20. rewrite Hdiv.
    pose proof (Hhigh (30 - total_material pc) ltac:(lia)). lra. }
  destruct (total_material pc >=? 10)%Z eqn:E10.
  { cbn [fst snd]. split; [right; right; reflexivity | ].
    rewrite Z.geb_leb, Z.leb_le in E10. rewrite Hdiv.
    pose proof (Hhigh (20 - total_material pc) ltac:(lia)). lra. }
  cbn. split; [right; right; reflexivity | discriminate].
Qed.

(** X4.  [determine_game_phase] only ever names the opening, the
    middlegame or the endgame; in exact arithmetic its progress never
    exceeds 1, whatever the counts, and it is negative exactly when rule 1
    (at least 12 pieces and both queens) does not apply and the material
    exceeds 40. *)
Theorem game_phase_names_and_progress (pc : PieceCounts) :
  (fst (determine_game_phase (F:=Q) pc) = "opening" \/
   fst (determine_game_phase (F:=Q) pc) = "middlegame" \/
   fst (determine_game_phase (F:=Q) pc) = "endgame") /\
  (snd (determine_game_phase (F:=Q) pc) <= 1)%Q /\
  ((snd (determine_game_phase (F:=Q) pc) < 0)%Q <->
   ((total_pieces pc >=? 12) && (cnt_Q pc >=? 1) && (cnt_q pc >=? 1))%Z
     = false /\
   (40 < total_material pc)%Z).
Proof.
  destruct (game_phase_names_and_upper_bound pc) as [Hnames Hupper].
  split; [exact Hnames | ]. split; [exact Hupper | ].
  destruct ((total_pieces pc >=? 12) && (cnt_Q pc >=? 1) &&
            (cnt_q pc >=? 1))%Z eqn:E1.
  - pose proof (progress_in_unit_interval_outside_rule_2 pc (or_introl E1))
      as [H0 _].
    split; [intros H; lra | intros [H _]; discriminate H].
  - destruct (Z_lt_le_dec (total_material pc) 30) as [Hlow | Hhigh].
    + pose proof (progress_in_unit_interval_outside_rule_2 pc
                    (or_intror Hlow)) as [H0 _].
      split; [intros H; lra | intros [_ H]; lia].
    + destruct (late_opening_progress pc E1 Hhigh)
        as (progress & -> & _ & _ & Hsign).
      cbn [snd]. rewrite Hsign. tauto.
Qed.

(** X5.  Exchanging the colours changes neither the game phase nor the
    position complexity, in any float format. *)
Theorem features_are_colour_blind
    (F : Type) (num : PyFloat F) (pc : PieceCounts) :
  determine_game_phase (F:=F) (swap_colours pc) = determine_game_phase pc /\
  calculate_position_complexity (F:=F) (swap_colours pc)
  = calculate_position_complexity pc.
Proof.
  destruct pc as [P N B R Q K p n b r q k]. split.
  - unfold determine_game_phase, swap_colours, total_material, total_pieces,
      white_material, black_material.
    cbn [cnt_P cnt_N cnt_B cnt_R cnt_Q cnt_K cnt_p cnt_n cnt_b cnt_r cnt_q
         cnt_k].
    replace (n + b + r + q + N + B + R + Q) with (N + B + R + Q + n + b + r + q)
      by lia.
    replace (p * 1 + n * 3 + b * 3 + r * 5 + q * 9 +
             (P * 1 + N * 3 + B * 3 + R * 5 + Q * 9))
      with (P * 1 + N * 3 + B * 3 + R * 5 + Q * 9 +
            (p * 1 + n * 3 + b * 3 + r * 5 + q * 9)) by lia.
    replace ((N + B + R + Q + n + b + r + q >=? 12) && (q >=? 1) && (Q >=? 1))
      with ((N + B + R + Q + n + b + r + q >=? 12) && (Q >=? 1) && (q >=? 1))
      by (rewrite <- !andb_assoc; f_equal; apply andb_comm).
    reflexivity.
  - unfold calculate_position_complexity, swap_colours, white_material,
      black_material.
    cbn [cnt_P cnt_N cnt_B cnt_R cnt_Q cnt_K cnt_p cnt_n cnt_b cnt_r cnt_q
         cnt_k].
    replace (n + b + N + B) with (N + B + n + b) by lia.
    replace (r + q + R + Q) with (R + Q + r + q) by lia.
    replace (p + P) with (P + p) by lia.
    replace (Z.abs (p * 1 + n * 3 + b * 3 + r * 5 + q * 9 -
                    (P * 1 + N * 3 + B * 3 + R * 5 + Q * 9)))
      with (Z.abs (P * 1 + N * 3 + B * 3 + R * 5 + Q * 9 -
                   (p * 1 + n * 3 + b * 3 + r * 5 + q * 9))) by lia.
    replace ((q >? 0) || (Q >? 0)) with ((Q >? 0) || (q >? 0))
      by apply orb_comm.
    reflexivity.
Qed.

(* ================================================================= *)
(** ** The position lookup and the tactical test *)

Section PositionLookup.
Context {F : Type} {num : PyFloat F}.


End PositionLookup.



(** X14.  Whatever the walker flags as a capture or a check,
    [is_tactical_move] calls tactical, under any notation. *)
Theorem flagged_moves_are_tactical
    (F : Type) (move_notation : string) (move_data : Node F) :
  type_mentions "capture" (stats_of move_data) ||
  type_mentions "check" (stats_of move_data) = true ->
  is_tactical_move move_notation move_data = true.
Proof.
  unfold is_tactical_move, type_mentions.
  destruct (st_type (stats_of move_data)) as [t | ]; [ | discriminate].
  intros H. rewrite H. reflexivity.
Qed.

(** An instance: a queen move of type Capture, written without an x. *)
Lemma flagged_moves_are_tactical_witness :
  is_tactical_move (F:=Q) "Qd5"
    (mkNode None
       (Some (mkStats None None None None None (Some "Capture") None None None))
       None) = true.
Proof.
  apply flagged_moves_are_tactical. reflexivity.
Defined.

(* ================================================================= *)
(** ** The records of a walk *)

Section WalkerRecords.
Context {F : Type} {num : PyFloat F}.

Lemma count_moves_eq (node : Node F) :
  count_moves node
  = (List.length (moves_of node) + count_below (moves_of node))%nat.
Proof.
  destruct node as [pos st [d | ]]; reflexivity.
Qed.

Lemma analyze_items_length current_depth path game_phase position_complexity
    move_sequence (items : Py.dict (Node F)) recs :
  Forall (fun kv =>
            forall d p pos s recs,
              analyze_move_difficulty (snd kv) d p pos s = Some recs ->
              List.length recs = count_moves (snd kv))
         items ->
  analyze_items current_depth path game_phase position_complexity
    move_sequence items = Some recs ->
  List.length recs = (List.length items + count_below items)%nat.
Proof.
  intros Hchildren. revert recs.
  induction Hchildren as [ | [move_notation move_data] rest Hchild _ IH];
    intros recs Hrun; cbn [analyze_items] in Hrun.
  - injection Hrun as <-. reflexivity.
  - destruct (score_move _ _ _ _ _ _ _) as [scored | ]; [ | discriminate Hrun].
    destruct (analyze_move_difficulty move_data _ _ _ _) as [below | ] eqn:Eb;
      [ | discriminate Hrun].
    destruct (analyze_items _ _ _ _ _ rest) as [others | ] eqn:Eo;
      [ | discriminate Hrun].
    injection Hrun as <-.
    cbn [List.length count_below]. rewrite length_app.
    rewrite (Hchild _ _ _ _ _ Eb), (IH others eq_refl). cbn [snd]. lia.
Qed.

Lemma analyze_move_difficulty_length (node : Node F) :
  forall current_depth path position move_sequence recs,
    analyze_move_difficulty node current_depth path position move_sequence
      = Some recs ->
    List.length recs = count_moves node.
Proof.
  induction node as [pos st mv IH] using node_induction.
  intros current_depth path position move_sequence recs Hrun.
  rewrite analyze_move_difficulty_eq in Hrun. cbv zeta in Hrun.
  rewrite count_moves_eq.
  eapply analyze_items_length; [ | exact Hrun]. exact IH.
Qed.

(** A property of the records of a walk holds when the scored move of a
    node has it and when it passes from a child's walk to the parent's. *)
Lemma analyze_items_inv
    (Inv : Z -> list string -> list string -> ScoredMove F -> Prop) :
  (forall d p pi seq k data m,
     score_move d p (fst (position_context pi)) (snd (position_context pi))
       seq k data = Some m -> Inv d p seq m) ->
  (forall d p seq k m,
     Inv (d + 1) (p ++ [k]) (seq ++ [k]) m -> Inv d p seq m) ->
  forall current_depth path pi move_sequence (items : Py.dict (Node F)) recs m,
    Forall (fun kv =>
              forall d p pos s recs m,
                analyze_move_difficulty (snd kv) d p pos s = Some recs ->
                In m recs -> Inv d p s m)
           items ->
    analyze_items current_depth path (fst (position_context pi))
      (snd (position_context pi)) move_sequence items = Some recs ->
    In m recs -> Inv current_depth path move_sequence m.
Proof.
  intros Hscore Hlift current_depth path pi move_sequence items recs m Hchildren.
  revert recs.
  induction Hchildren as [ | [move_notation move_data] rest Hchild _ IH];
    intros recs Hrun Hin; cbn [analyze_items] in Hrun.
  - injection Hrun as <-. contradiction.
  - destruct (score_move _ _ _ _ _ _ _) as [scored | ] eqn:Es;
      [ | discriminate Hrun].
    destruct (analyze_move_difficulty move_data _ _ _ _) as [below | ] eqn:Eb;
      [ | discriminate Hrun].
    destruct (analyze_items _ _ _ _ _ rest) as [others | ] eqn:Eo;
      [ | discriminate Hrun].
    injection Hrun as <-.
    destruct Hin as [<- | Hin];
      [ | apply in_app_or in Hin; destruct Hin as [Hin | Hin]].
    + eapply Hscore, Es.
    + eapply Hlift, (Hchild _ _ _ _ _ _ Eb Hin).
    + apply (IH others eq_refl Hin).
Qed.

Lemma analyze_records_inv
    (Inv : Z -> list string -> list string -> ScoredMove F -> Prop) :
  (forall d p pi seq k data m,
     score_move d p (fst (position_context pi)) (snd (position_context pi))
       seq k data = Some m -> Inv d p seq m) ->
  (forall d p seq k m,
     Inv (d + 1) (p ++ [k]) (seq ++ [k]) m -> Inv d p seq m) ->
  forall (node : Node F) current_depth path position move_sequence recs m,
    analyze_move_difficulty node current_depth path position move_sequence
      = Some recs ->
    In m recs -> Inv current_depth path move_sequence m.
Proof.
  intros Hscore Hlift.
  induction node as [pos st mv IH] using node_induction.
  intros current_depth path position move_sequence recs m Hrun Hin.
  rewrite analyze_move_difficulty_eq in Hrun. cbv zeta in Hrun.
  eapply (analyze_items_inv Inv Hscore Hlift); [ | exact Hrun | exact Hin].
  exact IH.
Qed.

(** What [score_move] writes into a record. *)
Lemma score_move_fields current_depth path game_phase position_complexity
    move_sequence move_notation (move_data : Node F) m :
  score_move current_depth path game_phase position_complexity
    move_sequence move_notation move_data = Some m ->
  sm_move m = move_notation /\ sm_path m = path /\
  sm_depth m = current_depth /\
  sm_move_sequence m = move_sequence ++ [move_notation] /\
  sm_move_data m = move_data /\
  sm_game_phase m = fst game_phase /\
  sm_phase_progress m = snd game_phase /\
  sm_position_complexity m = position_complexity /\
  sm_rating m = match st_rating (stats_of move_data) with
                | Some r => r
                | None => of_int 1200
                end /\
  sm_times_played m = match st_timesPlayed (stats_of move_data) with
                      | Some t => t
                      | None => of_int 0
                      end /\
  sm_win_rate m = calculate_win_rate (stats_of move_data) /\
  exists d, sm_difficulty m = py_max (of_int 0) (py_min (of_int 1) d).
Proof.
  unfold score_move.
  destruct (calculate_difficulty_score _ _ _ _ _ _ _ _ _ _) as [d | ] eqn:E;
    [ | discriminate].
  intros [= <-]. cbn. repeat split.
  unfold calculate_difficulty_score in E.
  destruct (phase_adjustment _ _ _ _ _ _ _ _) as [a | ]; [ | discriminate E].
  injection E as <-. unfold common_adjustment. eexists; reflexivity.
Qed.

Lemma position_context_names (pi : option string) :
  phase_name_known (fst (fst (position_context (F:=F) pi))) = true.
Proof.
  unfold position_context.
  destruct pi as [p | ]; [ | reflexivity].
  destruct (Py.truthy (Some p)); [ | reflexivity].
  destruct (Py.truthy (Some (parse_fen_from_position p))); [ | reflexivity].
  cbn [fst]. unfold determine_game_phase.
  repeat match goal with
         | |- context [if ?c then _ else _] => destruct c
         end; reflexivity.
Qed.

End WalkerRecords.

(** X7.  The walk emits exactly one record per move of the tree: the number
    of records is [count_moves] of the root. *)
Theorem walk_has_one_record_per_move
    (F : Type) (num : PyFloat F) (root : Node F) :
  exists recs, walk root = Some recs /\ List.length recs = count_moves root.
Proof.
  destruct (analyze_move_difficulty_total root 0 [] None []) as (recs & Hwalk).
  exists recs. split; [exact Hwalk | ].
  eapply analyze_move_difficulty_length, Hwalk.
Qed.

(** X8.  The bookkeeping of every record of a walk: its depth is the length
    of its path, its move sequence is the path followed by the move, and
    its rating, times played and win rate are read from the statistics of
    its move data (1200, 0 and [calculate_win_rate] by default). *)
Theorem walk_record_bookkeeping
    (F : Type) (num : PyFloat F) (root : Node F)
    (recs : list (ScoredMove F)) (m : ScoredMove F) :
  walk root = Some recs -> In m recs ->
  sm_depth m = Z.of_nat (List.length (sm_path m)) /\
  sm_move_sequence m = sm_path m ++ [sm_move m] /\
  sm_rating m = match st_rating (stats_of (sm_move_data m)) with
                | Some r => r
                | None => of_int 1200
                end /\
  sm_times_played m = match st_timesPlayed (stats_of (sm_move_data m)) with
                      | Some t => t
                      | None => of_int 0
                      end /\
  sm_win_rate m = calculate_win_rate (stats_of (sm_move_data m)).
Proof.
  intros Hwalk Hin.
  pose (Inv := fun (d : Z) (p seq : list string) (m : ScoredMove F) =>
    (exists q, sm_path m = p ++ q /\
               sm_move_sequence m = seq ++ q ++ [sm_move m] /\
               sm_depth m = d + Z.of_nat (List.length q)) /\
    sm_rating m = match st_rating (stats_of (sm_move_data m)) with
                  | Some r => r
                  | None => of_int 1200
                  end /\
    sm_times_played m = match st_timesPlayed (stats_of (sm_move_data m)) with
                        | Some t => t
                        | None => of_int 0
                        end /\
    sm_win_rate m = calculate_win_rate (stats_of (sm_move_data m))).
  assert (H : Inv 0 [] [] m).
  { eapply (analyze_records_inv Inv); [ | | exact Hwalk | exact Hin].
    - intros d p pi seq k data m0 Hs.
      apply score_move_fields in Hs.
      destruct Hs as (Hk & Hp & Hd & Hseq & Hdata & _ & _ & _ & Hr & Ht & Hw & _).
      split; [ | rewrite Hdata; auto].
      exists []. rewrite app_nil_r, Hk. cbn. repeat split; auto. lia.
    - intros d p seq k m0 [(q & Hp & Hseq & Hd) Hrest].
      split; [ | exact Hrest].
      exists (k :: q). rewrite <- app_assoc in Hp, Hseq.
      repeat split; auto. cbn [List.length]. lia. }
  destruct H as [(q & Hp & Hseq & Hd) Hrest]. cbn [app] in Hp, Hseq.
  subst q. rewrite Hd. repeat split; auto; apply Hrest.
Qed.

(** An instance: the record of the reply e5 in the walk of [sample_tree]. *)
Lemma walk_record_bookkeeping_witness :
  sm_depth sample_record = Z.of_nat (List.length (sm_path sample_record)) /\
  sm_move_sequence sample_record
  = sm_path sample_record ++ [sm_move sample_record] /\
  sm_rating sample_record
  = match st_rating (stats_of (sm_move_data sample_record)) with
    | Some r => r
    | None => of_int 1200
    end /\
  sm_times_played sample_record
  = match st_timesPlayed (stats_of (sm_move_data sample_record)) with
    | Some t => t
    | None => of_int 0
    end /\
  sm_win_rate sample_record
  = calculate_win_rate (stats_of (sm_move_data sample_record)).
Proof.
  apply (walk_record_bookkeeping Q Q_float sample_tree sample_records
           sample_record).
  - reflexivity.
  - vm_compute. right. left. reflexivity.
Defined.

(** X9.  In every float format ordered as [FloatOrder] asks, every record of
    a walk carries a difficulty in [0,1] and one of the four phase names
    opening, middlegame, endgame and unknown. *)
Theorem walk_records_are_in_range
    (F : Type) (num : PyFloat F) (order : FloatOrder F) (root : Node F)
    (recs : list (ScoredMove F)) (m : ScoredMove F) :
  walk root = Some recs -> In m recs ->
  fle (of_int 0) (sm_difficulty m) = true /\
  fle (sm_difficulty m) (of_int 1) = true /\
  phase_name_known (sm_game_phase m) = true.
Proof.
  intros Hwalk Hin.
  pose (Inv := fun (d : Z) (p seq : list string) (m : ScoredMove F) =>
    fle (of_int 0) (sm_difficulty m) = true /\
    fle (sm_difficulty m) (of_int 1) = true /\
    phase_name_known (sm_game_phase m) = true).
  apply (analyze_records_inv Inv) with (node := root) (current_depth := 0)
    (path := []) (position := None) (move_sequence := []) (recs := recs);
    [ | | exact Hwalk | exact Hin].
  - intros d p pi seq k data m0 Hs. apply score_move_fields in Hs.
    destruct Hs as (_ & _ & _ & _ & _ & Hphase & _ & _ & _ & _ & _ & x & Hx).
    unfold Inv. rewrite Hx, Hphase.
    destruct (clamp_in_unit_interval x) as [H0 H1].
    split; [exact H0 | ]. split; [exact H1 | apply position_context_names].
  - intros d p seq k m0 H. exact H.
Qed.

(** An instance: the record of the reply e5 in the walk of [sample_tree]. *)
Lemma walk_records_are_in_range_witness :
  fle (of_int 0) (sm_difficulty sample_record) = true /\
  fle (sm_difficulty sample_record) (of_int 1) = true /\
  phase_name_known (sm_game_phase sample_record) = true.
Proof.
  apply (walk_records_are_in_range Q Q_float Q_order sample_tree
           sample_records sample_record).
  - reflexivity.
  - vm_compute. right. left. reflexivity.
Defined.

(** X10.  In a tree whose dicts have unique keys the records of the walk are
    exactly the moves of the tree: a record with a given path, move and
    move data exists if and only if following the path and then the move
    from the root leads to that data. *)
Theorem walk_records_are_the_moves
    (F : Type) (num : PyFloat F) (root : Node F)
    (recs : list (ScoredMove F)) (path : list string) (move : string)
    (move_data : Node F) :
  well_formed root = true ->
  walk root = Some recs ->
  (exists m, In m recs /\ sm_move m = move /\ sm_path m = path /\
             sm_move_data m = move_data) <->
  tree_get root (path ++ [move]) = Some move_data.
Proof.
  intros Hwf Hwalk. split.
  - intros (m & Hm & <- & <- & <-).
    eapply walk_records_are_consistent; eassumption.
  - intros Hget. eapply reachable_moves_are_walked; eassumption.
Qed.

(** An instance: the move Nf3 of [sample_tree]. *)
Lemma walk_records_are_the_moves_witness :
  (exists m, In m sample_records /\ sm_move m = "Nf3" /\
             sm_path m = ["e4"; "e5"] /\
             sm_move_data m = mkNode None None None) <->
  tree_get sample_tree (["e4"; "e5"] ++ ["Nf3"]) = Some (mkNode None None None).
Proof.
  apply (walk_records_are_the_moves Q Q_float sample_tree sample_records);
    reflexivity.
Defined.

(* ================================================================= *)
(** ** The win rate and the scorer, further *)

Module ExactScorer.
Import ExactFacts.
Local Open Scope Q_scope.

Lemma feq_true (x y : Q) : feq x y = true <-> x == y.
Proof. cbn. apply Qeq_bool_iff. Qed.

Lemma feq_false (x y : Q) : feq x y = false <-> ~ x == y.
Proof.
  rewrite <- feq_true. destruct (feq x y); split; congruence.
Qed.

Lemma scale_monotone (d1 d2 f : Q) :
  d1 <= d2 -> 0 <= f -> fmul d1 f <= fmul d2 f.
Proof. intros Hd Hf. cbn. apply Qmult_le_compat_r; assumption. Qed.

Lemma clamp_monotone (d1 d2 : Q) :
  d1 <= d2 ->
  py_max (of_int 0) (py_min (of_int 1) d1)
  <= py_max (of_int 0) (py_min (of_int 1) d2).
Proof.
  intros Hd.
  change (of_int (F:=Q) 0) with 0; change (of_int (F:=Q) 1) with 1.
  destruct (py_min_spec 1 d1) as [[H1 ->] | [H1 ->]];
    destruct (py_min_spec 1 d2) as [[H2 ->] | [H2 ->]];
    repeat match goal with
           | |- context [py_max 0 ?x] =>
               let H := fresh in
               destruct (py_max_spec 0 x) as [[H ->] | [H ->]]
           end; lra.
Qed.

Lemma phase_adjustment_monotone (d1 d2 times_played : Q) depth game_phase
    position_complexity move_sequence is_capture is_check a1 a2 :
  d1 <= d2 -> 0 <= position_complexity ->
  phase_adjustment d1 times_played depth game_phase position_complexity
    move_sequence is_capture is_check = Some a1 ->
  phase_adjustment d2 times_played depth game_phase position_complexity
    move_sequence is_capture is_check = Some a2 ->
  a1 <= a2.
Proof.
  intros Hd Hpc. destruct game_phase as [phase_name phase_progress].
  unfold phase_adjustment, is_opening_theory.
  assert (H9 : 0 <= dec (F:=Q) 9 10) by (rewrite dec_value; lra).
  assert (H11 : 0 <= dec (F:=Q) 11 10) by (rewrite dec_value; lra).
  assert (H115 : 0 <= dec (F:=Q) 115 100) by (rewrite dec_value; lra).
  assert (H12 : 0 <= dec (F:=Q) 12 10) by (rewrite dec_value; lra).
  destruct (String.eqb phase_name "opening").
  { destruct (depth <=? 10)%Z; [ | intros [= <-] [= <-]; exact Hd].
    assert (Ht : 0 <= fadd (dec 7 10)
                       (fmul (dec 3 10)
                          (py_max (of_int 0)
                             (fsub (of_int 1)
                                (fdiv (of_int depth) (of_int 10)))))).
    { pose proof (py_max_zero_nonneg
                    (fsub (of_int 1) (fdiv (of_int depth) (of_int 10))))
        as Hs.
      cbn [fadd fmul Q_float]. dec_values. lra. }
    destruct (times_played >? of_int 10)%F; intros [= <-] [= <-];
      repeat apply scale_monotone; assumption. }
  destruct (String.eqb phase_name "middlegame").
  { destruct (is_capture || is_check); intros [= <-] [= <-];
      repeat apply scale_monotone; assumption. }
  destruct (String.eqb phase_name "endgame");
    [ | intros [= <-] [= <-]; exact Hd].
  destruct (phase_progress >? dec 7 10)%F;
    [ | intros [= <-] [= <-]; exact Hd].
  destruct (Py.last_item move_sequence) as [last_move | ]; [ | discriminate].
  destruct (Py.count_alpha last_move <=? 3)%Z; intros [= <-] [= <-];
    apply scale_monotone; try assumption.
  cbn [fadd fmul Q_float]. dec_values. lra.
Qed.

Lemma common_adjustment_monotone (d1 d2 times_played win_rate : Q) depth
    has_children position_complexity is_capture is_check :
  d1 <= d2 -> 0 <= position_complexity -> (0 <= depth)%Z ->
  0 <= win_rate <= 1 ->
  common_adjustment d1 times_played win_rate depth has_children
    position_complexity is_capture is_check
  <= common_adjustment d2 times_played win_rate depth has_children
       position_complexity is_capture is_check.
Proof.
  intros Hd Hpc Hdepth Hwr. unfold common_adjustment.
  apply clamp_monotone.
  pose proof (of_int_nonneg depth Hdepth) as Hz.
  assert (H1 : 0 <= fadd (dec 7 10) (fmul (dec 6 10) position_complexity)).
  { cbn [fadd fmul Q_float]. dec_values. lra. }
  assert (H2 : 0 <= fadd (of_int 1) (fmul (of_int depth) (dec 3 100))).
  { cbn [fadd fmul Q_float]. change (of_int (F:=Q) 1) with 1.
    dec_values. cbn [of_int Q_float] in *.
    assert (0 <= inject_Z depth * (3 # 100)) by
      (apply Qmult_le_0_compat; [exact Hz | lra]).
    lra. }
  pose proof (win_rate_factor_nonneg win_rate Hwr) as H4.
  assert (H105 : 0 <= dec (F:=Q) 105 100) by (rewrite dec_value; lra).
  assert (H11 : 0 <= dec (F:=Q) 11 10) by (rewrite dec_value; lra).
  assert (H95 : 0 <= dec (F:=Q) 95 100) by (rewrite dec_value; lra).
  destruct (times_played >? of_int 0)%F eqn:Et;
    [unfold fgt in Et; apply flt_true in Et;
     pose proof (frequency_factor_nonneg times_played Et) | ];
    destruct has_children; destruct (is_capture || is_check);
    try destruct (depth >? 2)%Z;
    repeat apply scale_monotone; assumption.
Qed.

End ExactScorer.

(** X15.  In exact arithmetic a higher rating never scores lower: with
    everything else equal (non-negative complexity and depth, winRate in
    [0,1], a move sequence the scorer accepts), the score is monotone in the
    rating. *)
Theorem score_is_monotone_in_rating
    (rating1 rating2 times_played win_rate : Q) (depth : Z)
    (has_children : bool) (game_phase : string * Q)
    (position_complexity : Q) (move_sequence : list string)
    (is_capture is_check : bool) :
  (rating1 <= rating2)%Q ->
  (0 <= position_complexity)%Q ->
  (0 <= win_rate <= 1)%Q ->
  (0 <= depth)%Z ->
  move_sequence <> [] ->
  exists score1 score2,
    calculate_difficulty_score rating1 times_played win_rate depth
      has_children game_phase position_complexity move_sequence
      is_capture is_check = Some score1 /\
    calculate_difficulty_score rating2 times_played win_rate depth
      has_children game_phase position_complexity move_sequence
      is_capture is_check = Some score2 /\
    (score1 <= score2)%Q.
Proof.
  intros Hrating Hpc Hwr Hdepth Hseq.
  unfold calculate_difficulty_score.
  assert (Hbase : (fdiv (fsub rating1 (of_int 800)) (of_int 2000)
                   <= fdiv (fsub rating2 (of_int 800)) (of_int 2000))%Q).
  { cbn [fdiv fsub of_int Q_float]. rewrite !ExactFacts.div_by_int. lra. }
  destruct (phase_adjustment (fdiv (fsub rating1 _) _) _ _ _ _ _ _ _)
    as [a1 | ] eqn:E1.
  2:{ apply phase_adjustment_none in E1. destruct E1 as (_ & _ & E1).
      contradiction. }
  destruct (phase_adjustment (fdiv (fsub rating2 _) _) _ _ _ _ _ _ _)
    as [a2 | ] eqn:E2.
  2:{ apply phase_adjustment_none in E2. destruct E2 as (_ & _ & E2).
      contradiction. }
  eexists. eexists. split; [reflexivity | ]. split; [reflexivity | ].
  apply ExactScorer.common_adjustment_monotone; try assumption.
  eapply ExactScorer.phase_adjustment_monotone; eassumption.
Qed.

(** An instance: a rook capture in a late endgame, rated 1400 and 1900. *)
Lemma score_is_monotone_in_rating_witness :
  exists score1 score2,
    calculate_difficulty_score (F:=Q) 1400%Q 30%Q (6 # 10)%Q 5 true
      ("endgame", (9 # 10)%Q) (4 # 10)%Q ["Rxa7"] true false = Some score1 /\
    calculate_difficulty_score (F:=Q) 1900%Q 30%Q (6 # 10)%Q 5 true
      ("endgame", (9 # 10)%Q) (4 # 10)%Q ["Rxa7"] true false = Some score2 /\
    (score1 <= score2)%Q.
Proof.
  apply score_is_monotone_in_rating.
  - vm_compute; discriminate.
  - vm_compute; discriminate.
  - split; vm_compute; discriminate.
  - lia.
  - discriminate.
Defined.

(** X11.  In exact arithmetic the win rate of non-negative counters lies in
    [0,1]; absent counters count as 0. *)
Theorem win_rate_in_unit_interval (stats : Stats Q) :
  (forall w, st_wins stats = Some w -> 0 <= w)%Q ->
  (forall l, st_losses stats = Some l -> 0 <= l)%Q ->
  (forall d, st_draws stats = Some d -> 0 <= d)%Q ->
  (0 <= calculate_win_rate stats <= 1)%Q.
Proof.
  intros Hw Hl Hd. unfold calculate_win_rate.
  set (wins := match st_wins stats with Some w => w | None => of_int 0 end).
  set (losses := match st_losses stats with Some l => l | None => of_int 0 end).
  set (draws := match st_draws stats with Some d => d | None => of_int 0 end).
  assert (Hw0 : (0 <= wins)%Q)
    by (unfold wins; destruct (st_wins stats); [now apply Hw | discriminate]).
  assert (Hl0 : (0 <= losses)%Q)
    by (unfold losses; destruct (st_losses stats);
        [now apply Hl | discriminate]).
  assert (Hd0 : (0 <= draws)%Q)
    by (unfold draws; destruct (st_draws stats); [now apply Hd | discriminate]).
  cbv zeta.
  destruct (feq (fadd (fadd wins losses) draws) (of_int 0)) eqn:E.
  - rewrite ExactFacts.dec_value. split; discriminate.
  - apply ExactScorer.feq_false in E. cbn [fadd fmul fdiv of_int Q_float] in *.
    change (inject_Z 0) with 0%Q in E.
    rewrite ExactFacts.dec_value.
    assert (Ht : (0 < wins + losses + draws)%Q) by lra.
    split.
    + apply Qle_shift_div_l; [exact Ht | lra].
    + apply Qle_shift_div_r; [exact Ht | lra].
Qed.

(** An instance: seven wins and two losses. *)
Lemma win_rate_in_unit_interval_witness :
  (0 <= calculate_win_rate
          (mkStats None None (Some 7%Q) (Some 2%Q) None None None None None)
   <= 1)%Q.
Proof.
  apply win_rate_in_unit_interval; intros x [= <-]; discriminate.
Defined.

(** X12.  In exact arithmetic the win rate seen from the other side is the
    complement: exchanging wins and losses turns the rate [r] into
    [1 - r], also when there are no games (0.5 both ways). *)
Theorem win_rate_of_the_other_side (stats : Stats Q) :
  (calculate_win_rate (swap_results stats)
   == 1 - calculate_win_rate stats)%Q.
Proof.
  unfold calculate_win_rate, swap_results.
  cbn [st_wins st_losses st_draws].
  set (wins := match st_wins stats with Some w => w | None => of_int 0 end).
  set (losses := match st_losses stats with Some l => l | None => of_int 0 end).
  set (draws := match st_draws stats with Some d => d | None => of_int 0 end).
  cbv zeta.
  assert (Hsame : feq (fadd (fadd losses wins) draws) (of_int 0)
                  = feq (fadd (fadd wins losses) draws) (of_int 0)).
  { cbn. apply eq_true_iff_eq. rewrite !Qeq_bool_iff.
    split; intros H; rewrite <- H; ring. }
  rewrite Hsame.
  destruct (feq (fadd (fadd wins losses) draws) (of_int 0)) eqn:E.
  - rewrite ExactFacts.dec_value. reflexivity.
  - apply ExactScorer.feq_false in E. cbn [fadd fmul fdiv of_int Q_float] in *.
    change (inject_Z 0) with 0%Q in E.
    rewrite ExactFacts.dec_value. field. exact E.
Qed.

(** X13.  [is_opening_theory] in exact arithmetic: the flag is set exactly
    up to depth 10, whatever the move sequence; the strength is never
    negative, it is positive exactly below depth 10, and from depth 0 on
    it is at most 1. *)
Theorem opening_theory_strength (move_sequence : list string) (depth : Z) :
  (fst (is_opening_theory (F:=Q) move_sequence depth) = true <->
   (depth <= 10)%Z) /\
  (0 <= snd (is_opening_theory (F:=Q) move_sequence depth))%Q /\
  ((0 < snd (is_opening_theory (F:=Q) move_sequence depth))%Q <->
   (depth < 10)%Z) /\
  ((0 <= depth)%Z ->
   (snd (is_opening_theory (F:=Q) move_sequence depth) <= 1)%Q).
Proof.
  unfold is_opening_theory.
  destruct (depth <=? 10)%Z eqn:E; cbn [fst snd].
  - apply Z.leb_le in E.
    set (x := (of_int 1 - of_int depth / of_int 10)%F).
    assert (Hx : (x == 1 - inject_Z depth * (1 # 10))%Q).
    { unfold x. cbn [fsub fdiv of_int Q_float].
      rewrite ExactFacts.div_by_int. reflexivity. }
    assert (Hten : (inject_Z depth <= 10)%Q)
      by (change 10%Q with (inject_Z 10); rewrite <- Zle_Qle; exact E).
    assert (Hlt : (inject_Z depth < 10)%Q <-> (depth < 10)%Z)
      by (change 10%Q with (inject_Z 10); now rewrite <- Zlt_Qlt).
    assert (Hpos : (0 <= inject_Z depth)%Q <-> (0 <= depth)%Z)
      by (change 0%Q with (inject_Z 0); now rewrite <- Zle_Qle).
    change (of_int (F:=Q) 0) with 0%Q.
    split; [tauto | ].
    destruct (ExactFacts.py_max_spec 0%Q x) as [[H ->] | [H ->]].
    + split; [lra | ]. split; [ | intros Hd; apply Hpos in Hd; lra].
      rewrite <- Hlt. split; intros; lra.
    + split; [lra | ]. split; [ | intros _; lra].
      rewrite <- Hlt. split; intros; lra.
  - apply Z.leb_gt in E. split; [split; [discriminate | lia] | ].
    change (of_int (F:=Q) 0) with 0%Q.
    split; [lra | ]. split; [ | intros _; lra].
    split; [intros H; lra | lia].
Qed.

(* ================================================================= *)
(** ** The stratifier, further *)

Section LevelFacts.
Context {F : Type} {num : PyFloat F}.
Local Open Scope nat_scope.

Lemma fill_levels_out_of_range {A} (sorted_moves : list A) (total_moves : nat)
    (percentages : list Z) :
  forall (level start_idx : nat) (difficulty_levels : list (list A)),
    level <= List.length difficulty_levels ->
    List.length difficulty_levels < level + List.length percentages ->
    fill_levels sorted_moves total_moves percentages level start_idx
      difficulty_levels = None.
Proof.
  induction percentages as [ | percentage rest IH];
    intros level start_idx dl Hlow Hhigh; cbn [fill_levels List.length] in *;
    [lia | ].
  unfold list_assign.
  destruct (level <? List.length dl) eqn:E; [ | reflexivity].
  apply Nat.ltb_lt in E. apply IH.
  - rewrite length_app, length_firstn. cbn [List.length].
    rewrite length_skipn. lia.
  - rewrite length_app, length_firstn. cbn [List.length].
    rewrite length_skipn. lia.
Qed.

Lemma concat_repeat_nil {A} (n : nat) :
  List.concat (repeat (@nil A) n) = [].
Proof. induction n as [ | n IH]; [reflexivity | exact IH]. Qed.

Lemma length_slice {A} (l : list A) (start stop : nat) :
  List.length (slice l start stop)
  = Nat.min (stop - start) (List.length l - start).
Proof. unfold slice. now rewrite length_firstn, length_skipn. Qed.

(** With at least eight levels the stratifier returns as many tiers as it
    was asked for, and their concatenation is the sorted population. *)
Lemma categorize_enough_levels (moves : list (ScoredMove F)) (n : nat) :
  8 <= n ->
  exists tiers,
    categorize_moves_by_difficulty moves n = Some tiers /\
    List.length tiers = n /\
    List.concat tiers = sorted_by_difficulty moves.
Proof.
  intros Hn. unfold categorize_moves_by_difficulty.
  set (sorted_moves := sorted_by_difficulty moves).
  destruct (List.length sorted_moves =? 0) eqn:E.
  - apply Nat.eqb_eq, length_zero_iff_nil in E.
    exists (repeat [] n). rewrite E, concat_repeat_nil, repeat_length.
    repeat split; reflexivity.
  - destruct (fill_levels_spec sorted_moves (List.length sorted_moves)
                level_percentages 0 0 (repeat [] n))
      as (tiers & stop & Hrun & Hlen & Hcat & Hstop);
      [rewrite repeat_length; cbn; lia | lia | ].
    cbn [firstn app] in Hrun. rewrite Hrun. rewrite slice_from_zero in Hcat.
    set (spare := skipn (0 + List.length level_percentages) (repeat [] n)) in *.
    assert (Hspare : List.concat spare = [] /\
                     List.length spare = n - 8).
    { unfold spare. cbn [level_percentages List.length Nat.add].
      replace n with (8 + (n - 8)) at 1 2 by lia.
      rewrite repeat_app, skipn_app, repeat_length.
      rewrite skipn_all2 by (rewrite repeat_length; lia).
      replace (8 - 8) with 0 by lia. cbn [skipn app].
      now rewrite concat_repeat_nil, repeat_length. }
    destruct Hspare as [Hnil Hsize].
    cbn [level_percentages List.length] in Hlen.
    destruct (stop <? List.length sorted_moves) eqn:Elt.
    + destruct (exists_last (l := tiers ++ spare)) as (front & last_level & Hsplit).
      { destruct tiers; [discriminate Hlen | discriminate]. }
      rewrite Hsplit, extend_last_some.
      exists (front ++ [last_level ++ skipn stop sorted_moves]).
      split; [reflexivity | ].
      assert (Hl : List.length (front ++ [last_level]) = n)
        by (rewrite <- Hsplit, length_app; lia).
      assert (Hc : List.concat (front ++ [last_level]) = firstn stop sorted_moves)
        by (rewrite <- Hsplit, concat_app, Hnil, app_nil_r; exact Hcat).
      rewrite length_app in *. cbn [List.length] in *.
      split; [lia | ].
      rewrite concat_app in *. cbn [List.concat] in *.
      rewrite app_nil_r in *. rewrite app_assoc, Hc.
      apply firstn_skipn.
    + apply Nat.ltb_ge in Elt.
      exists (tiers ++ spare). split; [reflexivity | ].
      split; [rewrite length_app; lia | ].
      rewrite concat_app, Hnil, app_nil_r, Hcat.
      apply firstn_all2. lia.
Qed.

(** The sizes of the eight tiers when the slices fit: each tier but the
    last has the size of its slice, the last has all the rest. *)
Lemma tier_sizes_when_slices_fit (moves : list (ScoredMove F)) :
  let total := List.length moves in
  let size := fun p => moves_in_level p total in
  size 5%Z + size 10%Z + size 15%Z + size 20%Z + size 20%Z + size 15%Z +
    size 10%Z <= total ->
  exists tiers,
    categorize_moves_by_difficulty moves 8 = Some tiers /\
    map (@List.length _) tiers =
    [size 5%Z; size 10%Z; size 15%Z; size 20%Z; size 20%Z; size 15%Z;
     size 10%Z;
     total - (size 5%Z + size 10%Z + size 15%Z + size 20%Z + size 20%Z +
              size 15%Z + size 10%Z)].
Proof.
  cbv zeta. rewrite <- (sorted_by_difficulty_length moves).
  unfold categorize_moves_by_difficulty.
  set (sorted_moves := sorted_by_difficulty moves).
  set (total := List.length sorted_moves).
  set (s5 := moves_in_level 5%Z total). set (s10 := moves_in_level 10%Z total).
  set (s15 := moves_in_level 15%Z total).
  set (s20 := moves_in_level 20%Z total).
  intros Hfit.
  destruct (total =? 0) eqn:E.
  - apply Nat.eqb_eq in E. eexists. split; [reflexivity | ].
    cbn [repeat map List.length].
    repeat (f_equal; [lia | ]). f_equal. lia.
  - cbn [fill_levels level_percentages repeat].
    fold s5 s10 s15 s20.
    unfold list_assign. cbn [List.length Nat.ltb Nat.leb firstn skipn app].
    rewrite (Nat.min_l (0 + s5) total) by lia.
    rewrite (Nat.min_l (0 + s5 + s10) total) by lia.
    rewrite (Nat.min_l (0 + s5 + s10 + s15) total) by lia.
    rewrite (Nat.min_l (0 + s5 + s10 + s15 + s20) total) by lia.
    rewrite (Nat.min_l (0 + s5 + s10 + s15 + s20 + s20) total) by lia.
    rewrite (Nat.min_l (0 + s5 + s10 + s15 + s20 + s20 + s15) total) by lia.
    rewrite (Nat.min_l (0 + s5 + s10 + s15 + s20 + s20 + s15 + s10) total)
      by lia.
    set (e7 := 0 + s5 + s10 + s15 + s20 + s20 + s15 + s10).
    set (e8 := Nat.min (e7 + s5) total).
    change (match total with 0 => false | S m' => e8 <=? m' end)
      with (e8 <? total).
    destruct (e8 <? total) eqn:Elt.
    + apply Nat.ltb_lt in Elt. unfold extend_last. cbn [rev app].
      eexists. split; [reflexivity | ].
      cbn [map]. rewrite length_app, !length_slice, length_skipn.
      fold total. repeat (f_equal; [lia | ]). f_equal. lia.
    + apply Nat.ltb_ge in Elt.
      eexists. split; [reflexivity | ].
      cbn [map]. rewrite !length_slice. fold total.
      repeat (f_equal; [lia | ]). f_equal. lia.
Qed.

End LevelFacts.

(** X16.  The stratifier raises (the [IndexError] of
    [difficulty_levels[level]]) exactly when it is given moves and asked for
    fewer than eight levels; otherwise it returns as many tiers as it was
    asked for, whose concatenation is the sorted population. *)
Theorem stratifier_needs_eight_levels
    (F : Type) (num : PyFloat F) (moves : list (ScoredMove F)) (n : nat) :
  (categorize_moves_by_difficulty moves n = None <->
   moves <> [] /\ (n < 8)%nat) /\
  (moves = [] \/ (8 <= n)%nat ->
   exists tiers,
     categorize_moves_by_difficulty moves n = Some tiers /\
     List.length tiers = n /\
     List.concat tiers = sorted_by_difficulty moves).
Proof.
  assert (Hempty : moves = [] ->
            categorize_moves_by_difficulty moves n = Some (repeat [] n)).
  { intros ->. reflexivity. }
  assert (Hfew : moves <> [] -> (n < 8)%nat ->
            categorize_moves_by_difficulty moves n = None).
  { intros Hne Hn. unfold categorize_moves_by_difficulty.
    destruct (List.length (sorted_by_difficulty moves) =? 0)%nat eqn:E.
    - apply Nat.eqb_eq in E. rewrite sorted_by_difficulty_length in E.
      apply length_zero_iff_nil in E. contradiction.
    - rewrite fill_levels_out_of_range; [reflexivity | lia | ].
      rewrite repeat_length. cbn. lia. }
  split.
  - split.
    + intros Hnone. destruct moves as [ | m ms].
      * rewrite Hempty in Hnone by reflexivity. discriminate Hnone.
      * split; [discriminate | ].
        destruct (Nat.lt_ge_cases n 8) as [H | H]; [exact H | ].
        destruct (categorize_enough_levels (m :: ms) n H) as (t & Ht & _).
        rewrite Ht in Hnone. discriminate Hnone.
    + intros [Hne Hn]. apply Hfew; assumption.
  - intros [-> | Hn]; [ | apply categorize_enough_levels, Hn].
    exists (repeat [] n). rewrite repeat_length, concat_repeat_nil.
    repeat split; reflexivity.
Qed.

Module ExactTiers.
Import ExactFacts.
Local Open Scope Q_scope.

Lemma moves_in_level_exact (percentage : Z) (total : nat) :
  (0 <= percentage)%Z ->
  moves_in_level (F:=Q) percentage total = floor_share percentage total.
Proof.
  intros Hp. unfold moves_in_level, floor_share. f_equal.
  cbn [ftrunc fmul fdiv of_int Q_float].
  set (x := inject_Z percentage / inject_Z 100 * inject_Z (Z.of_nat total)).
  assert (Hx : x == (percentage * Z.of_nat total) # 100).
  { unfold x. rewrite div_by_int. unfold Qeq, Qmult, inject_Z; cbn. lia. }
  assert (H0 : 0 <= x).
  { rewrite Hx. unfold Qle; cbn. nia. }
  apply Qle_bool_iff in H0. rewrite H0.
  rewrite (Qfloor_comp _ _ Hx). reflexivity.
Qed.

Lemma filter_insert_by_difficulty (d : Q) (x : ScoredMove Q)
    (l : list (ScoredMove Q)) :
  filter (fun m => Qeq_bool (sm_difficulty m) d) (insert_by_difficulty x l)
  = filter (fun m => Qeq_bool (sm_difficulty m) d) (x :: l).
Proof.
  induction l as [ | y l IH]; cbn [insert_by_difficulty]; [reflexivity | ].
  destruct (flt (sm_difficulty y) (sm_difficulty x)) eqn:E; [ | reflexivity].
  apply flt_true in E. cbn [filter] in *. rewrite IH.
  destruct (Qeq_bool (sm_difficulty x) d) eqn:Ex; [ | reflexivity].
  apply Qeq_bool_iff in Ex.
  destruct (Qeq_bool (sm_difficulty y) d) eqn:Ey; [ | reflexivity].
  apply Qeq_bool_iff in Ey. lra.
Qed.

Lemma sorted_concat_order {A} (R : A -> A -> Prop) (ls : list (list A)) :
  StronglySorted R (List.concat ls) ->
  forall i j a b,
    (i < j)%nat -> In a (nth i ls []) -> In b (nth j ls []) -> R a b.
Proof.
  induction ls as [ | l ls IH]; intros Hs i j a b Hij Ha Hb.
  - destruct i; contradiction.
  - cbn [List.concat] in Hs.
    destruct j as [ | j]; [lia | ]. cbn [nth] in Hb.
    destruct i as [ | i]; cbn [nth] in Ha.
    + assert (Hb' : In b (List.concat ls)).
      { apply in_concat. exists (nth j ls []). split; [ | exact Hb].
        destruct (Nat.lt_ge_cases j (List.length ls)) as [H | H];
          [apply nth_In, H | ].
        rewrite nth_overflow in Hb by exact H. contradiction. }
      clear IH Hb. induction l as [ | x l IHl]; [contradiction | ].
      cbn [app] in Hs. inversion Hs as [ | ? ? Hs' Hall]; subst.
      destruct Ha as [<- | Ha]; [ | apply IHl; assumption].
      rewrite Forall_forall in Hall. apply Hall, in_or_app. right. exact Hb'.
    + apply (IH) with (i := i) (j := j); [ | lia | exact Ha | exact Hb].
      clear - Hs. induction l as [ | x l IHl]; [exact Hs | ].
      cbn [app] in Hs. inversion Hs; subst. auto.
Qed.

End ExactTiers.

(** X17.  In exact arithmetic the tiers have these sizes: each of the first
    seven has [floor(percentage * total / 100)] moves for its percentage
    5, 10, 15, 20, 20, 15, 10, and the eighth has all the rest. *)
Theorem tier_sizes (moves : list (ScoredMove Q)) :
  let total := List.length moves in
  exists tiers,
    categorize_moves_by_difficulty moves 8 = Some tiers /\
    map (@List.length _) tiers =
    [floor_share 5 total; floor_share 10 total; floor_share 15 total;
     floor_share 20 total; floor_share 20 total; floor_share 15 total;
     floor_share 10 total;
     (total - (floor_share 5 total + floor_share 10 total +
               floor_share 15 total + floor_share 20 total +
               floor_share 20 total + floor_share 15 total +
               floor_share 10 total))%nat].
Proof.
  cbv zeta.
  rewrite <- !ExactTiers.moves_in_level_exact by lia.
  apply (tier_sizes_when_slices_fit (F:=Q) moves).
  rewrite !ExactTiers.moves_in_level_exact by lia.
  unfold floor_share.
  set (n := Z.of_nat (List.length moves)).
  assert (Hn : 0 <= n) by (unfold n; lia).
  pose proof (Z.mul_div_le (5 * n) 100 ltac:(lia)).
  pose proof (Z.mul_div_le (10 * n) 100 ltac:(lia)).
  pose proof (Z.mul_div_le (15 * n) 100 ltac:(lia)).
  pose proof (Z.mul_div_le (20 * n) 100 ltac:(lia)).
  pose proof (Z.div_pos (5 * n) 100 ltac:(lia) ltac:(lia)).
  pose proof (Z.div_pos (10 * n) 100 ltac:(lia) ltac:(lia)).
  pose proof (Z.div_pos (15 * n) 100 ltac:(lia) ltac:(lia)).
  pose proof (Z.div_pos (20 * n) 100 ltac:(lia) ltac:(lia)).
  set (q5 := 5 * n / 100) in *. set (q10 := 10 * n / 100) in *.
  set (q15 := 15 * n / 100) in *. set (q20 := 20 * n / 100) in *.
  assert (Hsum : q5 + q10 + q15 + q20 + q20 + q15 + q10 <= n) by lia.
  unfold n in Hsum. lia.
Qed.

(** X18.  The sort of the stratifier is stable: in exact arithmetic the moves
    of any one difficulty come out in the order they went in. *)
Theorem sort_by_difficulty_is_stable
    (moves : list (ScoredMove Q)) (d : Q) :
  filter (fun m => Qeq_bool (sm_difficulty m) d) (sorted_by_difficulty moves)
  = filter (fun m => Qeq_bool (sm_difficulty m) d) moves.
Proof.
  induction moves as [ | x l IH]; [reflexivity | ].
  cbn [sorted_by_difficulty fold_right].
  rewrite ExactTiers.filter_insert_by_difficulty.
  cbn [filter]. fold (sorted_by_difficulty l). now rewrite IH.
Qed.

(** X19.  The tiers are ordered: in exact arithmetic no move of a tier is
    more difficult than a move of a later tier. *)
Theorem tiers_are_ordered
    (moves : list (ScoredMove Q)) (tiers : list (list (ScoredMove Q)))
    (i j : nat) (a b : ScoredMove Q) :
  categorize_moves_by_difficulty moves 8 = Some tiers ->
  (i < j)%nat -> In a (nth i tiers []) -> In b (nth j tiers []) ->
  (sm_difficulty a <= sm_difficulty b)%Q.
Proof.
  intros Hrun Hij Ha Hb.
  destruct (categorize_eight_levels moves) as (tiers' & Hrun' & _ & Hcat & _).
  rewrite Hrun in Hrun'. injection Hrun' as <-.
  apply (ExactTiers.sorted_concat_order by_difficulty tiers)
    with (i := i) (j := j); try assumption.
  rewrite Hcat. apply ExactFacts.sorted_by_difficulty_sorted.
Qed.

(** An instance: the fifth and the eighth tier of [sample_tree]. *)
Lemma tiers_are_ordered_witness :
  (sm_difficulty (nth 0 (nth 4 sample_tiers []) blank_record)
   <= sm_difficulty (nth 0 (nth 7 sample_tiers []) blank_record))%Q.
Proof.
  apply (tiers_are_ordered sample_records sample_tiers 4 7).
  - reflexivity.
  - lia.
  - vm_compute. left. reflexivity.
  - vm_compute. left. reflexivity.
Defined.

(* ================================================================= *)
(** ** One iteration of the builder *)

Section PlaceFacts.
Context {F : Type}.

Lemma on_line_uncons (k : string) (q full : list string) :
  on_line (k :: q) (k :: full) -> on_line q full.
Proof.
  intros [(rest & H) | (below & H)]; injection H as H;
    [left; exists rest | right; exists below]; exact H.
Qed.

Lemma on_line_nil (full : list string) : on_line [] full.
Proof. left. exists full. reflexivity. Qed.

Lemma place_get (move : string) (move_data : Node F) (path : list string) :
  forall tree tree',
    place tree path move move_data = Some tree' ->
    tree_get tree' (path ++ [move]) = Some move_data.
Proof.
  induction path as [ | k0 rest IH]; intros tree tree' Hplace;
    cbn [place] in Hplace;
    destruct (node_moves tree) as [d | ]; try discriminate Hplace.
  - injection Hplace as <-. cbn [app]. rewrite tree_get_with_moves.
    now rewrite dict_get_set_same.
  - destruct (place _ rest move move_data) as [child' | ] eqn:Hc;
      [ | discriminate Hplace].
    injection Hplace as <-. cbn [app]. rewrite tree_get_with_moves.
    rewrite dict_get_set_same. apply (IH _ _ Hc).
Qed.

Lemma place_frame (move : string) (move_data : Node F) (path : list string) :
  forall tree tree' q,
    place tree path move move_data = Some tree' ->
    ~ on_line q (path ++ [move]) ->
    tree_get tree' q = tree_get tree q.
Proof.
  induction path as [ | k0 rest IH]; intros tree tree' q Hplace Hoff;
    cbn [place] in Hplace;
    destruct (node_moves tree) as [d | ] eqn:Hd; try discriminate Hplace.
  - injection Hplace as <-.
    destruct q as [ | k q]; [exfalso; apply Hoff, on_line_nil | ].
    rewrite tree_get_with_moves. cbn [tree_get]. unfold moves_of. rewrite Hd.
    rewrite dict_get_set_other; [reflexivity | ].
    intros ->. apply Hoff. right. exists q. reflexivity.
  - destruct (place _ rest move move_data) as [child' | ] eqn:Hc;
      [ | discriminate Hplace].
    injection Hplace as <-.
    destruct q as [ | k q]; [exfalso; apply Hoff, on_line_nil | ].
    rewrite tree_get_with_moves. cbn [tree_get]. unfold moves_of. rewrite Hd.
    destruct (String.eqb k0 k) eqn:E.
    + apply String.eqb_eq in E. subst k. rewrite dict_get_set_same.
      assert (Hoff' : ~ on_line q (rest ++ [move])).
      { intros H. apply Hoff. cbn [app]. apply on_line_cons, H. }
      rewrite (IH _ _ _ Hc Hoff').
      destruct (Py.dict_get d k0) as [c | ]; [reflexivity | ].
      destruct q as [ | k q]; [ | reflexivity].
      exfalso. apply Hoff', on_line_nil.
    + apply String.eqb_neq in E. now rewrite dict_get_set_other.
Qed.

End PlaceFacts.

(** X20.  Insert and look up: when one iteration of the builder's loop
    succeeds, the move is found under its path with the data that was
    stored, and every lookup off the line of that move gives what it gave
    before. *)
Theorem placed_move_is_found
    (F : Type) (tree tree' : Node F) (path : list string) (move : string)
    (move_data : Node F) :
  place tree path move move_data = Some tree' ->
  tree_get tree' (path ++ [move]) = Some move_data /\
  forall q, ~ on_line q (path ++ [move]) ->
            tree_get tree' q = tree_get tree q.
Proof.
  intros Hplace. split; [eapply place_get, Hplace | ].
  intros q Hq. eapply place_frame; eassumption.
Qed.

(** An instance: the reply d5 to d4, placed in the new root. *)
Lemma placed_move_is_found_witness :
  tree_get (with_moves (new_root (F:=Q))
              [("d4", with_moves placeholder [("d5", mkNode None None None)])])
           (["d4"] ++ ["d5"]) = Some (mkNode None None None) /\
  forall q, ~ on_line q (["d4"] ++ ["d5"]) ->
            tree_get (with_moves (new_root (F:=Q))
                        [("d4", with_moves placeholder
                                  [("d5", mkNode None None None)])]) q
            = tree_get new_root q.
Proof.
  apply (placed_move_is_found Q new_root _ ["d4"] "d5" (mkNode None None None)).
  reflexivity.
Defined.

(** X21.  One iteration of the builder's loop raises (the [KeyError] of
    [current_node['moves']]) exactly when a node that is already in the
    tree, on the move's path, has no [moves] key. *)
Theorem place_raises_on_missing_moves_key
    (F : Type) (tree : Node F) (path : list string) (move : string)
    (move_data : Node F) :
  place tree path move move_data = None <->
  exists p rest n,
    path = p ++ rest /\ tree_get tree p = Some n /\ node_moves n = None.
Proof.
  revert tree.
  induction path as [ | k0 rest IH]; intros tree; cbn [place].
  - destruct (node_moves tree) as [d | ] eqn:Hd.
    + split; [discriminate | ].
      intros (p & r & n & Hp & Hn & Hm).
      symmetry in Hp. apply app_eq_nil in Hp. destruct Hp as [-> _].
      injection Hn as <-. congruence.
    + split; [ | reflexivity]. intros _.
      exists [], [], tree. repeat split; assumption.
  - destruct (node_moves tree) as [d | ] eqn:Hd.
    + set (child := match Py.dict_get d k0 with
                    | Some c => c
                    | None => placeholder
                    end).
      destruct (place child rest move move_data) as [child' | ] eqn:Hc.
      * split; [discriminate | ].
        intros (p & r & n & Hp & Hn & Hm).
        destruct p as [ | k p].
        -- injection Hn as <-. congruence.
        -- cbn [app] in Hp. injection Hp as <- ->.
           cbn [tree_get] in Hn. unfold moves_of in Hn. rewrite Hd in Hn.
           assert (Hnone : place child (p ++ r) move move_data = None).
           { apply IH. exists p, r, n. split; [reflexivity | ].
             split; [ | exact Hm]. unfold child.
             destruct (Py.dict_get d k0); [exact Hn | discriminate Hn]. }
           rewrite Hnone in Hc. discriminate Hc.
      * split; [ | reflexivity]. intros _.
        apply IH in Hc. destruct Hc as (p & r & n & Hp & Hn & Hm).
        unfold child in Hn.
        destruct (Py.dict_get d k0) as [c | ] eqn:Ek.
        -- exists (k0 :: p), r, n. cbn [app tree_get]. unfold moves_of.
           rewrite Hd, Ek, Hp. repeat split; assumption.
        -- destruct p as [ | k p]; [ | discriminate Hn].
           injection Hn as <-. discriminate Hm.
    + split; [ | reflexivity]. intros _.
      exists [], (k0 :: rest), tree. repeat split; assumption.
Qed.

(* ================================================================= *)
(** ** The phase distribution of a tier *)

Section PhaseFacts.
Context {F : Type} {num : PyFloat F}.

Lemma count_phase_known (counts : Z * Z * Z * Z) (phase : string) :
  phase_name_known phase = true ->
  exists counts',
    count_phase counts phase = Some counts' /\
    let '(o, m, e, u) := counts in
    let '(o', m', e', u') := counts' in
    o <= o' /\ m <= m' /\ e <= e' /\ u <= u' /\
    o' + m' + e' + u' = o + m + e + u + 1.
Proof.
  destruct counts as [[[o m] e] u]. unfold phase_name_known, count_phase.
  destruct (String.eqb phase "opening");
    [intros _; eexists; split; [reflexivity | cbv beta iota; lia] | ].
  destruct (String.eqb phase "middlegame");
    [intros _; eexists; split; [reflexivity | cbv beta iota; lia] | ].
  destruct (String.eqb phase "endgame");
    [intros _; eexists; split; [reflexivity | cbv beta iota; lia] | ].
  destruct (String.eqb phase "unknown");
    [intros _; eexists; split; [reflexivity | cbv beta iota; lia] | ].
  discriminate.
Qed.

Lemma count_phase_unknown_name (counts : Z * Z * Z * Z) (phase : string) :
  phase_name_known phase = false -> count_phase counts phase = None.
Proof.
  destruct counts as [[[o m] e] u]. unfold phase_name_known, count_phase.
  destruct (String.eqb phase "opening"); [discriminate | ].
  destruct (String.eqb phase "middlegame"); [discriminate | ].
  destruct (String.eqb phase "endgame"); [discriminate | ].
  destruct (String.eqb phase "unknown"); [discriminate | reflexivity].
Qed.

Lemma phase_counts_known (level_moves : list (ScoredMove F)) :
  forall counts,
    forallb (fun m => phase_name_known (sm_game_phase m)) level_moves = true ->
    exists counts',
      phase_counts counts level_moves = Some counts' /\
      let '(o, m, e, u) := counts in
      let '(o', m', e', u') := counts' in
      o <= o' /\ m <= m' /\ e <= e' /\ u <= u' /\
      o' + m' + e' + u'
      = o + m + e + u + Z.of_nat (List.length level_moves).
Proof.
  induction level_moves as [ | move rest IH]; intros counts Hall;
    cbn [phase_counts forallb List.length] in *.
  - exists counts. split; [reflexivity | ].
    destruct counts as [[[o m] e] u]. lia.
  - apply andb_true_iff in Hall. destruct Hall as [Hmove Hrest].
    destruct (count_phase_known counts _ Hmove) as (c1 & -> & H1).
    destruct (IH c1 Hrest) as (c2 & -> & H2).
    exists c2. split; [reflexivity | ].
    destruct counts as [[[o m] e] u], c1 as [[[o1 m1] e1] u1],
      c2 as [[[o2 m2] e2] u2]. lia.
Qed.

Lemma phase_counts_unknown_name (level_moves : list (ScoredMove F)) :
  forall counts,
    forallb (fun m => phase_name_known (sm_game_phase m)) level_moves = false ->
    phase_counts counts level_moves = None.
Proof.
  induction level_moves as [ | move rest IH]; intros counts Hall;
    cbn [phase_counts forallb] in *; [discriminate | ].
  destruct (phase_name_known (sm_game_phase move)) eqn:E.
  - destruct (count_phase_known counts _ E) as (c1 & -> & _).
    apply IH, Hall.
  - now rewrite count_phase_unknown_name.
Qed.

End PhaseFacts.

(** X23.  The phase distribution of a tier raises (the [KeyError] of
    [phase_counts[phase]]) exactly when a move carries a phase name other
    than opening, middlegame, endgame and unknown; and in exact arithmetic,
    for a non-empty tier, the four fractions are non-negative and add up
    to 1. *)
Theorem phase_distribution_is_a_distribution
    (level_moves : list (ScoredMove Q)) :
  (phase_distribution level_moves = None <->
   forallb (fun m => phase_name_known (sm_game_phase m)) level_moves = false)
  /\
  (forall o m e u,
     level_moves <> [] ->
     phase_distribution level_moves = Some (o, m, e, u) ->
     (0 <= o /\ 0 <= m /\ 0 <= e /\ 0 <= u /\ o + m + e + u == 1)%Q).
Proof.
  unfold phase_distribution.
  destruct (forallb (fun m => phase_name_known (sm_game_phase m)) level_moves)
    eqn:Hall.
  - destruct (phase_counts_known level_moves (0, 0, 0, 0) Hall)
      as ([[[o' m'] e'] u'] & -> & Ho & Hm & He & Hu & Hsum).
    split; [split; discriminate | ].
    intros o m e u Hne [= <- <- <- <-].
    assert (Hpos : 0 < o' + m' + e' + u').
    { destruct level_moves; [contradiction | ]. cbn [List.length] in Hsum. lia. }
    destruct (o' + m' + e' + u' >? 0) eqn:E; [ | lia].
    cbn [fdiv of_int Q_float].
    set (t := o' + m' + e' + u') in *.
    assert (Ht : (0 < inject_Z t)%Q)
      by (change 0%Q with (inject_Z 0); rewrite <- Zlt_Qlt; exact Hpos).
    assert (Hq : forall c : Z, 0 <= c -> (0 <= inject_Z c / inject_Z t)%Q).
    { intros c Hc. apply Qle_shift_div_l; [exact Ht | ].
      rewrite Qmult_0_l. change 0%Q with (inject_Z 0).
      now rewrite <- Zle_Qle. }
    repeat (split; [apply Hq; assumption | ]).
    assert (Hadd : (inject_Z o' + inject_Z m' + inject_Z e' + inject_Z u'
                    == inject_Z t)%Q)
      by (unfold t; rewrite !inject_Z_plus; reflexivity).
    field_simplify_eq; [ | intros H; rewrite H in Ht; discriminate Ht].
    rewrite <- Hadd. ring.
  - rewrite (phase_counts_unknown_name level_moves (0, 0, 0, 0) Hall).
    split; [split; reflexivity | ]. intros o m e u _ H. discriminate H.
Qed.

(* ================================================================= *)
(** ** The opening report *)

Section TallyFacts.

Lemma keys_dict_set_mem {V} (d : Py.dict V) (k k' : string) (v : V) :
  existsb (String.eqb k') (Py.keys (Py.dict_set d k v))
  = existsb (String.eqb k') (Py.keys d) || String.eqb k' k.
Proof.
  unfold Py.keys.
  induction d as [ | [k0 v0] d IH]; cbn [Py.dict_set map fst existsb].
  - now rewrite orb_false_r.
  - destruct (String.eqb k0 k) eqn:E; cbn [map fst existsb].
    + apply String.eqb_eq in E. subst k0.
      destruct (String.eqb k' k), (existsb (String.eqb k') (map fst d));
        reflexivity.
    + rewrite IH. now rewrite orb_assoc.
Qed.

Lemma unique_keys_dict_set {V} (d : Py.dict V) (k : string) (v : V) :
  Py.unique_keys (Py.keys d) = true ->
  Py.unique_keys (Py.keys (Py.dict_set d k v)) = true.
Proof.
  induction d as [ | [k0 v0] d IH];
    cbn [Py.dict_set Py.keys map fst Py.unique_keys existsb];
    [reflexivity | ].
  rewrite andb_true_iff, negb_true_iff. intros [Hfresh Hrest].
  destruct (String.eqb k0 k) eqn:E;
    cbn [Py.dict_set Py.keys map fst Py.unique_keys existsb].
  - now rewrite Hfresh, Hrest.
  - pose proof (keys_dict_set_mem d k k0 v) as Hmem.
    unfold Py.keys in Hmem, IH. rewrite Hmem, Hfresh, E, (IH Hrest).
    reflexivity.
Qed.

Lemma unique_keys_NoDup (ks : list string) :
  Py.unique_keys ks = true -> NoDup ks.
Proof.
  induction ks as [ | k ks IH]; cbn; [constructor | ].
  rewrite andb_true_iff, negb_true_iff. intros [Hfresh Hrest].
  constructor; [ | apply IH, Hrest].
  intros Hin. apply not_true_iff_false in Hfresh. apply Hfresh.
  apply existsb_exists. exists k. split; [exact Hin | apply String.eqb_refl].
Qed.

Lemma tally_one_get (d : Py.dict Z) (sequence k : string) :
  Py.dict_get (tally_one d sequence) k =
  if String.eqb sequence k
  then Some (match Py.dict_get d k with Some c => c + 1 | None => 1 end)
  else Py.dict_get d k.
Proof.
  unfold tally_one. destruct (String.eqb sequence k) eqn:E.
  - apply String.eqb_eq in E. subst k.
    destruct (Py.dict_get d sequence); apply dict_get_set_same.
  - apply String.eqb_neq in E.
    destruct (Py.dict_get d sequence); now apply dict_get_set_other.
Qed.

Lemma tally_one_unique (d : Py.dict Z) (sequence : string) :
  Py.unique_keys (Py.keys d) = true ->
  Py.unique_keys (Py.keys (tally_one d sequence)) = true.
Proof.
  intros H. unfold tally_one.
  destruct (Py.dict_get d sequence); now apply unique_keys_dict_set.
Qed.

(** The counter of a sequence after the loop: what it was, plus one for
    each occurrence. *)
Lemma tally_get (sequences : list string) :
  forall (d : Py.dict Z) (k : string),
    Py.dict_get (fold_left tally_one sequences d) k =
    match Py.dict_get d k, count_occ string_dec sequences k with
    | None, O => None
    | None, n => Some (Z.of_nat n)
    | Some c, n => Some (c + Z.of_nat n)
    end.
Proof.
  induction sequences as [ | s rest IH]; intros d k; cbn [fold_left count_occ].
  - destruct (Py.dict_get d k); [f_equal; lia | reflexivity].
  - rewrite IH, tally_one_get.
    destruct (string_dec s k) as [-> | Hne].
    + rewrite String.eqb_refl.
      destruct (Py.dict_get d k); f_equal; lia.
    + apply String.eqb_neq in Hne. rewrite Hne. reflexivity.
Qed.

Lemma tally_unique (sequences : list string) :
  forall d : Py.dict Z,
    Py.unique_keys (Py.keys d) = true ->
    Py.unique_keys (Py.keys (fold_left tally_one sequences d)) = true.
Proof.
  induction sequences as [ | s rest IH]; intros d H; cbn [fold_left];
    [exact H | ].
  apply IH, tally_one_unique, H.
Qed.

Lemma insert_by_count_perm (x : string * Z) (l : list (string * Z)) :
  Permutation (x :: l) (insert_by_count x l).
Proof.
  induction l as [ | y l IH]; cbn; [reflexivity | ].
  destruct (snd x <? snd y); [ | reflexivity].
  rewrite perm_swap. now apply perm_skip.
Qed.

Lemma sorted_by_count_perm (l : list (string * Z)) :
  Permutation l (sorted_by_count l).
Proof.
  induction l as [ | x l IH]; cbn; [reflexivity | ].
  rewrite <- insert_by_count_perm. now apply perm_skip.
Qed.

Lemma insert_by_count_sorted (x : string * Z) (l : list (string * Z)) :
  StronglySorted by_count_descending l ->
  StronglySorted by_count_descending (insert_by_count x l).
Proof.
  induction l as [ | y l IH]; intros Hs; cbn [insert_by_count].
  - constructor; constructor.
  - inversion Hs as [ | y' l' Hl Hy]; subst.
    destruct (snd x <? snd y) eqn:E.
    + apply Z.ltb_lt in E. constructor; [apply IH, Hl | ].
      apply (Permutation_Forall (insert_by_count_perm x l)).
      constructor; [unfold by_count_descending; lia | exact Hy].
    + apply Z.ltb_ge in E. constructor; [exact Hs | ].
      constructor; [exact E | ].
      apply (Forall_impl _ (P := by_count_descending y)); [ | exact Hy].
      unfold by_count_descending. intros z Hz. lia.
Qed.

Lemma sorted_by_count_sorted (l : list (string * Z)) :
  StronglySorted by_count_descending (sorted_by_count l).
Proof.
  induction l as [ | x l IH]; cbn; [constructor | ].
  apply insert_by_count_sorted, IH.
Qed.

Lemma StronglySorted_app_inv {A} (R : A -> A -> Prop) (l1 l2 : list A) :
  StronglySorted R (l1 ++ l2) ->
  StronglySorted R l1 /\
  forall a b, In a l1 -> In b l2 -> R a b.
Proof.
  induction l1 as [ | x l1 IH]; cbn [app]; intros Hs.
  - split; [constructor | contradiction].
  - inversion Hs as [ | ? ? Hs' Hall]; subst.
    destruct (IH Hs') as [H1 H2]. rewrite Forall_forall in Hall. split.
    + constructor; [exact H1 | ].
      apply Forall_forall. intros y Hy. apply Hall, in_or_app. now left.
    + intros a b [<- | Ha] Hb; [ | now apply H2].
      apply Hall, in_or_app. now right.
Qed.

Lemma In_firstn {A} (n : nat) (l : list A) (x : A) :
  In x (firstn n l) -> In x l.
Proof.
  intros H. rewrite <- (firstn_skipn n l). apply in_or_app. now left.
Qed.

End TallyFacts.

Section OpeningFacts.
Context {F : Type} {num : PyFloat F}.

Lemma opening_tally (moves : list (ScoredMove F)) :
  let items := fold_left tally_one (opening_keys moves) [] in
  Py.unique_keys (Py.keys items) = true /\
  (forall k c, In (k, c) items ->
               c = Z.of_nat (count_occ string_dec (opening_keys moves) k) /\
               1 <= c) /\
  (forall k, In k (opening_keys moves) ->
             In (k, Z.of_nat (count_occ string_dec (opening_keys moves) k))
                items).
Proof.
  cbv zeta.
  assert (Hu : Py.unique_keys
                 (Py.keys (fold_left tally_one (opening_keys moves) [])) = true)
    by (apply tally_unique; reflexivity).
  split; [exact Hu | ]. split.
  - intros k c Hin. apply (In_dict_get _ _ _ Hu) in Hin.
    rewrite tally_get in Hin. cbn [Py.dict_get] in Hin.
    destruct (count_occ string_dec (opening_keys moves) k) as [ | n];
      [discriminate Hin | ].
    injection Hin as <-. split; [reflexivity | lia].
  - intros k Hk. apply dict_get_In. rewrite tally_get. cbn [Py.dict_get].
    apply (count_occ_In string_dec) in Hk.
    destruct (count_occ string_dec (opening_keys moves) k); [lia | reflexivity].
Qed.

End OpeningFacts.

(** X24.  Every entry that [analyze_opening_moves] reports carries the right
    count: the number of moves of depth below 10 in the opening phase whose
    move sequence, joined by spaces, is the entry's sequence; and that
    number is at least 1. *)
Theorem opening_counts_are_right
    (F : Type) (num : PyFloat F) (moves : list (ScoredMove F))
    (sequence : string) (count : Z) :
  In (sequence, count) (analyze_opening_moves moves) ->
  count = Z.of_nat (count_occ string_dec (opening_keys moves) sequence) /\
  1 <= count.
Proof.
  intros Hin. unfold analyze_opening_moves in Hin.
  apply In_firstn in Hin.
  apply (Permutation_in _ (Permutation_sym (sorted_by_count_perm _))) in Hin.
  destruct (opening_tally moves) as (_ & Hcounts & _).
  apply Hcounts, Hin.
Qed.

(** An instance: the move d4 of [sample_tree]. *)
Lemma opening_counts_are_right_witness :
  1 = Z.of_nat (count_occ string_dec (opening_keys sample_records) "d4") /\
  1 <= 1.
Proof.
  apply (opening_counts_are_right Q Q_float sample_records "d4" 1).
  vm_compute. right. left. reflexivity.
Defined.

(** X25.  [analyze_opening_moves] reports at most 20 entries, with pairwise
    different sequences, in descending order of count, and they are the
    most frequent ones: a counted sequence that is not reported occurs no
    more often than any sequence that is. *)
Theorem opening_report_is_the_top_twenty
    (F : Type) (num : PyFloat F) (moves : list (ScoredMove F)) :
  (List.length (analyze_opening_moves moves) <= 20)%nat /\
  NoDup (map fst (analyze_opening_moves moves)) /\
  StronglySorted by_count_descending (analyze_opening_moves moves) /\
  forall k, In k (opening_keys moves) ->
    (exists c, In (k, c) (analyze_opening_moves moves)) \/
    (forall e, In e (analyze_opening_moves moves) ->
               Z.of_nat (count_occ string_dec (opening_keys moves) k)
               <= snd e).
Proof.
  unfold analyze_opening_moves.
  set (items := fold_left tally_one (opening_keys moves) []).
  destruct (opening_tally moves) as (Hu & _ & Hall). fold items in Hu, Hall.
  pose proof (sorted_by_count_sorted items) as Hs.
  pose proof (sorted_by_count_perm items) as Hp.
  rewrite <- (firstn_skipn 20 (sorted_by_count items)) in Hs.
  destruct (StronglySorted_app_inv _ _ _ Hs) as [Hs1 Hcross].
  split; [apply firstn_le_length | ]. split; [ | split; [exact Hs1 | ]].
  - assert (Hnd : NoDup (map fst (sorted_by_count items))).
    { apply (Permutation_NoDup (Permutation_map fst Hp)).
      apply unique_keys_NoDup, Hu. }
    rewrite <- (firstn_skipn 20 (sorted_by_count items)), map_app in Hnd.
    apply NoDup_app_remove_r in Hnd. exact Hnd.
  - intros k Hk. apply Hall in Hk.
    apply (Permutation_in _ Hp) in Hk.
    rewrite <- (firstn_skipn 20 (sorted_by_count items)) in Hk.
    apply in_app_or in Hk. destruct Hk as [Hk | Hk].
    + left. eexists. exact Hk.
    + right. intros e He. apply (Hcross e _ He Hk).
Qed.

(* ================================================================= *)
(** ** The pipeline of main *)

Section PipelineFacts.
Context {F : Type} {num : PyFloat F}.

(** Every record of a walk carries one of the four phase names. *)
Lemma walk_phase_names (root : Node F) (recs : list (ScoredMove F)) :
  walk root = Some recs ->
  forallb (fun m => phase_name_known (sm_game_phase m)) recs = true.
Proof.
  intros Hwalk. apply forallb_forall. intros m Hin.
  apply (analyze_records_inv
           (fun _ _ _ m => phase_name_known (sm_game_phase m) = true))
    with (node := root) (current_depth := 0) (path := [])
         (position := None) (move_sequence := []) (recs := recs);
    [ | | exact Hwalk | exact Hin].
  - intros d p pi seq k data m0 Hs. apply score_move_fields in Hs.
    destruct Hs as (_ & _ & _ & _ & _ & -> & _).
    apply position_context_names.
  - intros d p seq k m0 H. exact H.
Qed.

Lemma tiers_are_made_of_the_moves (moves : list (ScoredMove F))
    (tiers : list (list (ScoredMove F))) (tier : list (ScoredMove F)) :
  List.concat tiers = sorted_by_difficulty moves ->
  In tier tiers -> incl tier moves.
Proof.
  intros Hconcat Htier m Hm.
  apply (Permutation_in _ (Permutation_sym (sorted_by_difficulty_perm moves))).
  rewrite <- Hconcat. apply in_concat. exists tier. split; assumption.
Qed.

(** The records of the tiers that the stratifier makes of a walk are
    located in the walked tree: following a record's path and then its move
    leads to the record's move data. *)
Lemma tier_records_are_located (source : Node F)
    (recs : list (ScoredMove F)) (tiers : list (list (ScoredMove F)))
    (tier : list (ScoredMove F)) (m : ScoredMove F) :
  well_formed source = true ->
  walk source = Some recs ->
  categorize_moves_by_difficulty recs 8 = Some tiers ->
  In tier tiers -> In m tier ->
  tree_get source (sm_path m ++ [sm_move m]) = Some (sm_move_data m).
Proof.
  intros Hwf Hwalk Htiers Htier Hm.
  destruct (categorize_enough_levels recs 8 (le_n 8))
    as (tiers' & Htiers' & _ & Hconcat).
  rewrite Htiers in Htiers'. injection Htiers' as <-.
  eapply walk_records_are_consistent; [exact Hwf | exact Hwalk | ].
  eapply tiers_are_made_of_the_moves; eassumption.
Qed.

Lemma forallb_incl {A} (f : A -> bool) (l l' : list A) :
  incl l l' -> forallb f l' = true -> forallb f l = true.
Proof.
  intros Hincl Hall. apply forallb_forall. intros x Hx.
  rewrite forallb_forall in Hall. apply Hall, Hincl, Hx.
Qed.

End PipelineFacts.

(** X26.  The computing steps of [main] compose without an exception on a
    tree whose dicts have unique keys: the walk returns its records, the
    stratifier makes eight tiers of them, the sizes of the tiers add up to
    the number of moves of the tree, and for every tier the tier tree
    builder and the phase distribution return. *)
Theorem pipeline_splits_every_move
    (F : Type) (num : PyFloat F) (root : Node F) :
  well_formed root = true ->
  exists moves_with_difficulty difficulty_levels,
    walk root = Some moves_with_difficulty /\
    categorize_moves_by_difficulty moves_with_difficulty 8
      = Some difficulty_levels /\
    List.length difficulty_levels = 8%nat /\
    list_sum (map (@List.length _) difficulty_levels) = count_moves root /\
    forall level_moves, In level_moves difficulty_levels ->
      (exists level_tree,
         create_level_knowledge_tree level_moves = Some level_tree) /\
      (exists distribution,
         phase_distribution level_moves = Some distribution).
Proof.
  intros Hwf.
  destruct (analyze_move_difficulty_total root 0 [] None []) as (recs & Hwalk).
  destruct (categorize_enough_levels recs 8 (le_n 8))
    as (tiers & Htiers & Hlen & Hconcat).
  exists recs, tiers.
  split; [exact Hwalk | ]. split; [exact Htiers | ]. split; [exact Hlen | ].
  split.
  - rewrite <- length_concat, Hconcat, sorted_by_difficulty_length.
    eapply analyze_move_difficulty_length, Hwalk.
  - intros tier Htier.
    pose proof (tiers_are_made_of_the_moves recs tiers tier Hconcat Htier)
      as Hincl.
    split.
    + destruct (place_all_spec root tier) with (tree := new_root (F:=F))
        as (tree & Hbuild & _).
      { intros m Hm. eapply walk_records_are_consistent; eauto. }
      { apply new_root_rebuilt. }
      exists tree. exact Hbuild.
    + unfold phase_distribution.
      destruct (phase_counts_known tier (0, 0, 0, 0))
        as ([[[o m] e] u] & -> & _).
      { eapply forallb_incl; [exact Hincl | ].
        eapply walk_phase_names, Hwalk. }
      eexists. reflexivity.
Qed.

(** An instance: [sample_tree]. *)
Lemma pipeline_splits_every_move_witness :
  exists moves_with_difficulty difficulty_levels,
    walk sample_tree = Some moves_with_difficulty /\
    categorize_moves_by_difficulty moves_with_difficulty 8
      = Some difficulty_levels /\
    List.length difficulty_levels = 8%nat /\
    list_sum (map (@List.length _) difficulty_levels)
      = count_moves sample_tree /\
    forall level_moves, In level_moves difficulty_levels ->
      (exists level_tree,
         create_level_knowledge_tree level_moves = Some level_tree) /\
      (exists distribution,
         phase_distribution level_moves = Some distribution).
Proof.
  apply (pipeline_splits_every_move Q Q_float sample_tree). reflexivity.
Defined.
